(** * pic-viewer: folder-tree traversal and navigation

    A shallow embedding of the Go backend ([app.go]: [ListImages],
    [ReadImage], [ListSubfolders]) and of the navigation state machine of
    the Vue front end ([ImageViewer.vue]: [nextImage], [prevImage],
    [handleFolderSelected], the slideshow and the one-slot prefetch), with
    the properties the specification states about them.

    The sources hold more than one revision of both files.  The embedding
    follows the latest one: the backend with RAF support, sorted image
    lists and natural ordering of subfolders, and the viewer with the leaf
    folder list, the last-visited folder and the slideshow modes.

    Layout: library models and the embedding first, then the theorems. *)

From Stdlib Require Import List Bool Arith ZArith NArith Lia.
From Stdlib Require Import Ascii String.
From Stdlib Require Import Sorted Permutation.
Import ListNotations.

Set Implicit Arguments.

Set Warnings "-register-all".

Local Open Scope list_scope.
Local Open Scope string_scope.

(** ** Go values shared by the backend models *)

(** A Go [(T, error)] result in which exactly one side is meaningful. *)
Inductive Result (A : Type) : Type :=
| Ok (a : A)
| Err (e : string).
Arguments Ok {A} a.
Arguments Err {A} e.

(** The outcome of a Go call that may panic instead of returning. *)
Inductive Outcome (A : Type) : Type :=
| Returns (a : A)
| Panics (v : string).
Arguments Returns {A} a.
Arguments Panics {A} v.

(** ** Go standard library: [strings] *)
Module GoStrings.

(** [strings.ToLower] maps every letter of its argument, in any script,
    to lower case, by the case tables of Go's [unicode] package.  The
    tables are no part of the sources, so the function is a parameter of
    the backend: what is proved about the backend holds whatever
    [ToLower] does to a string. *)
Class Strings : Type := { ToLower : string -> string }.

Definition is_upper (c : ascii) : bool :=
  let n := nat_of_ascii c in (65 <=? n)%nat && (n <=? 90)%nat.

Definition lower_ascii (c : ascii) : ascii :=
  if is_upper c then ascii_of_nat (nat_of_ascii c + 32) else c.

(** What [strings.ToLower] does to a string written in ASCII: the
    letters [A] to [Z] are replaced, nothing else is. *)
Fixpoint ascii_ToLower (s : string) : string :=
  match s with
  | EmptyString => EmptyString
  | String c rest => String (lower_ascii c) (ascii_ToLower rest)
  end.

(** The runtime the scenarios run on.  Their file names are written in
    ASCII, where it agrees with Go's. *)
Definition ascii_names : Strings := {| ToLower := ascii_ToLower |}.

(** [strings.HasPrefix s p]. *)
Definition HasPrefix (s p : string) : bool := String.prefix p s.

(** [strings.Split s "/"]: the pieces between separators; never empty. *)
Fixpoint split_sep (s : string) : list string :=
  match s with
  | EmptyString => [EmptyString]
  | String c rest =>
      if Ascii.eqb c "/"%char then EmptyString :: split_sep rest
      else match split_sep rest with
           | [] => [String c EmptyString]
           | x :: xs => String c x :: xs
           end
  end.

(** [strings.Join cs "/"]. *)
Definition join_sep (cs : list string) : string := String.concat "/" cs.

Fixpoint contains_char (c : ascii) (s : string) : bool :=
  match s with
  | EmptyString => false
  | String d rest => Ascii.eqb c d || contains_char c rest
  end.

End GoStrings.

(** ** Go standard library: [path/filepath], for slash-separated paths
    without a volume name *)
Module Filepath.
Import GoStrings.

(** The element stack of [Clean]: empty and [.] elements are dropped, a
    [..] removes the element before it, or is dropped at the root, or is
    kept at the start of a relative path. *)
Fixpoint clean_elems (rooted : bool) (stack : list string) (cs : list string)
  : list string :=
  match cs with
  | [] => rev stack
  | c :: cs' =>
      if (c =? "") || (c =? ".") then clean_elems rooted stack cs'
      else if c =? ".." then
        match stack with
        | top :: stack' =>
            if top =? ".." then clean_elems rooted (c :: stack) cs'
            else clean_elems rooted stack' cs'
        | [] =>
            if rooted then clean_elems rooted [] cs'
            else clean_elems rooted [c] cs'
        end
      else clean_elems rooted (c :: stack) cs'
  end.

Definition render (rooted : bool) (cs : list string) : string :=
  if rooted then "/" ++ join_sep cs
  else match cs with
       | [] => "."
       | _ => join_sep cs
       end.

(** [filepath.Clean]. *)
Definition Clean (path : string) : string :=
  let rooted := String.prefix "/" path in
  render rooted (clean_elems rooted [] (split_sep path)).

(** [filepath.Join a b]: empty elements are ignored, the rest is joined
    with one separator and cleaned. *)
Definition Join (a b : string) : string :=
  if negb (a =? "") then Clean (a ++ "/" ++ b)
  else if negb (b =? "") then Clean b
  else "".

(** [filepath.Dir]: everything up to and including the last separator,
    cleaned. *)
Definition Dir (path : string) : string :=
  match removelast (split_sep path) with
  | [] => Clean ""
  | init => Clean (join_sep init ++ "/")
  end.

Fixpoint last_nonempty (cs : list string) (acc : option string) : option string :=
  match cs with
  | [] => acc
  | c :: cs' => last_nonempty cs' (if c =? "" then acc else Some c)
  end.

(** [filepath.Base]: the last element; [.] for the empty path and [/]
    for a path of separators only. *)
Definition Base (path : string) : string :=
  if path =? "" then "."
  else match last_nonempty (split_sep path) None with
       | Some c => c
       | None => "/"
       end.

(** [filepath.Ext]: the suffix that starts at the last dot of the last
    element, or the empty string. *)
Fixpoint Ext (path : string) : string :=
  match path with
  | EmptyString => EmptyString
  | String c rest =>
      let r := Ext rest in
      if contains_char "/"%char rest then r
      else if negb (r =? "") then r
      else if Ascii.eqb c "."%char then path
      else EmptyString
  end.

(** *** Vocabulary *)

(** A name a directory listing can hold: not empty, not [.] or [..],
    without a separator. *)
Definition valid_name (name : string) : bool :=
  negb (name =? "") && negb (name =? ".") && negb (name =? "..")
  && negb (contains_char "/"%char name).

(** The elements of a clean path: [..] elements, none if the path is
    rooted, then valid names. *)
Definition normal_elems (rooted : bool) (cs : list string) : Prop :=
  exists (k : nat) (names : list string),
    cs = (repeat ".." k ++ names)%list
    /\ Forall (fun c => valid_name c = true) names
    /\ (rooted = true -> k = 0%nat).

End Filepath.

(** ** Go standard library: [sort] *)
Module GoSort.

Section Insertion.
Variable A : Type.
Variable less : A -> A -> bool.

(** One pass of the inner loop of insertion sort: [x] travels left past
    every element it is less than.  [sorted_rev] is the sorted prefix,
    last element first. *)
Fixpoint sift (x : A) (sorted_rev : list A) : list A :=
  match sorted_rev with
  | [] => [x]
  | y :: r => if less x y then y :: sift x r else x :: y :: r
  end.

(** [sort.Slice data less], as the insertion sort the library runs on
    short slices.  The theorems below only use that the result is a
    permutation in which no element is less than its predecessor. *)
Definition Slice (data : list A) : list A :=
  rev (fold_left (fun acc x => sift x acc) data []).
End Insertion.

(** [sort.Strings]: increasing byte-wise order. *)
Definition Strings (data : list string) : list string :=
  Slice String.ltb data.

End GoSort.

(** ** The [natsort] package used by [ListSubfolders] *)
Module Natsort.

Definition is_digit (c : ascii) : bool :=
  let n := nat_of_ascii c in (48 <=? n)%nat && (n <=? 57)%nat.

(** The chunks matched by [(\d+|\D+)]: maximal runs of digits and of
    non-digits, in order. *)
Fixpoint chunkify (s : string) : list string :=
  match s with
  | EmptyString => []
  | String c rest =>
      match chunkify rest with
      | String d ch :: chs =>
          if Bool.eqb (is_digit c) (is_digit d)
          then String c (String d ch) :: chs
          else String c EmptyString :: String d ch :: chs
      | chs => String c EmptyString :: chs
      end
  end.

Fixpoint all_digits (s : string) : bool :=
  match s with
  | EmptyString => true
  | String c rest => is_digit c && all_digits rest
  end.

Fixpoint decimal_value (acc : N) (s : string) : N :=
  match s with
  | EmptyString => acc
  | String c rest =>
      decimal_value (acc * 10 + N.of_nat (nat_of_ascii c - 48)) rest
  end.

(** Two numeric chunks compare by value, any other pair byte-wise. *)
Definition compare_chunk (a b : string) : comparison :=
  if all_digits a && all_digits b
  then N.compare (decimal_value 0 a) (decimal_value 0 b)
  else String.compare a b.

Fixpoint compare_chunks (a b : list string) : comparison :=
  match a, b with
  | [], [] => Eq
  | [], _ :: _ => Lt
  | _ :: _, [] => Gt
  | x :: a', y :: b' =>
      match compare_chunk x y with
      | Eq => compare_chunks a' b'
      | c => c
      end
  end.

(** Modelled from the spec: [natsort.Compare] belongs to the third-party
    package [github.com/facette/natsort], which is not part of the
    sources.  The spec describes the order it induces: natural order in
    which numeric runs compare by numeric value ("img2" before "img10").
    [Compare a b] holds when [a] strictly precedes [b]. *)
Definition Compare (a b : string) : bool :=
  match compare_chunks (chunkify a) (chunkify b) with
  | Lt => true
  | _ => false
  end.

End Natsort.

(** ** Natural order, in the words of the specification *)
Module NaturalOrder.

(** Modelled from the spec: the order behind "children are sorted by
    case-insensitive natural order of name (numeric runs compare by
    numeric value, e.g. "img2" < "img10")", for names already in lower
    case.  A name is read as its runs, the blocks of digits and the
    blocks of other bytes between them.  Two names are compared run by
    run: the first pair of runs that differ decides, two numeric runs by
    their value and any other pair byte by byte; a name whose runs are
    the first runs of another name comes before it.  The definitions
    below do not use the comparison function of the code. *)
Definition digit (c : ascii) : bool :=
  let n := nat_of_ascii c in (48 <=? n)%nat && (n <=? 57)%nat.

Fixpoint only (p : ascii -> bool) (r : string) : bool :=
  match r with
  | EmptyString => true
  | String c rest => p c && only p rest
  end.

(** A numeric run and a run of text. *)
Definition numeric (r : string) : Prop := r <> "" /\ only digit r = true.
Definition textual (r : string) : Prop :=
  r <> "" /\ only (fun c => negb (digit c)) r = true.

(** The value of a numeric run, read in base ten. *)
Fixpoint value_from (acc : N) (r : string) : N :=
  match r with
  | EmptyString => acc
  | String c rest => value_from (acc * 10 + N.of_nat (nat_of_ascii c - 48)) rest
  end.
Definition value (r : string) : N := value_from 0 r.

(** [runs s rs]: [rs] are the runs of [s], numeric runs and runs of text
    in turn, so that every run is as long as it can be. *)
Inductive runs : string -> list string -> Prop :=
| runs_none : runs "" []
| runs_one (r : string) : numeric r \/ textual r -> runs r [r]
| runs_numeric (r r' s : string) (rs : list string) :
    numeric r -> textual r' -> runs s (r' :: rs) -> runs (r ++ s) (r :: r' :: rs)
| runs_textual (r r' s : string) (rs : list string) :
    textual r -> numeric r' -> runs s (r' :: rs) -> runs (r ++ s) (r :: r' :: rs).

(** Two runs that do not decide: numeric runs of one value, or the same
    bytes. *)
Definition same_run (x y : string) : Prop :=
  (numeric x /\ numeric y /\ value x = value y)
  \/ (~ (numeric x /\ numeric y) /\ x = y).

Inductive runs_before : list string -> list string -> Prop :=
| before_shorter (y : string) (ys : list string) : runs_before [] (y :: ys)
| before_value (x y : string) (xs ys : list string) :
    numeric x -> numeric y -> (value x < value y)%N ->
    runs_before (x :: xs) (y :: ys)
| before_bytes (x y : string) (xs ys : list string) :
    ~ (numeric x /\ numeric y) -> String.ltb x y = true ->
    runs_before (x :: xs) (y :: ys)
| before_later (x y : string) (xs ys : list string) :
    same_run x y -> runs_before xs ys -> runs_before (x :: xs) (y :: ys).

(** [a] comes before [b] in natural order. *)
Definition before (a b : string) : Prop :=
  exists ra rb, runs a ra /\ runs b rb /\ runs_before ra rb.

End NaturalOrder.



(** ** The Go backend: [app.go] *)
Module App.
Import GoStrings.

(** *** The file system the backend reads

    One node per directory entry.  [FsEntry name isDir stat readdir]
    carries what the operating system answers about the entry:
    - [isDir]: the type the parent's listing reports ([fs.DirEntry.IsDir]);
    - [stat]: the outcome of [os.Stat] / [os.Lstat] on its path, [Ok b]
      with [b] telling whether it is a directory;
    - [readdir]: the outcome of [os.ReadDir] on its path, the entries in
      the order the call returns them. *)
Inductive FsNode : Type :=
| FsEntry (name : string) (isDir : bool) (stat : Result bool)
          (readdir : Result (list FsNode)).

Definition fs_name (n : FsNode) : string :=
  match n with FsEntry name _ _ _ => name end.
Definition fs_isDir (n : FsNode) : bool :=
  match n with FsEntry _ isDir _ _ => isDir end.
Definition fs_stat (n : FsNode) : Result bool :=
  match n with FsEntry _ _ stat _ => stat end.
Definition fs_readdir (n : FsNode) : Result (list FsNode) :=
  match n with FsEntry _ _ _ readdir => readdir end.

(** A plain file and a readable directory. *)
Definition file (name : string) : FsNode :=
  FsEntry name false (Ok false) (Err "not a directory").
Definition dir (name : string) (entries : list FsNode) : FsNode :=
  FsEntry name true (Ok true) (Ok entries).

(** [fs.DirEntry], as far as the callbacks look at it. *)
Record DirEntry : Type := { entry_Name : string; entry_IsDir : bool }.

(** *** [filepath.WalkDir] *)
Section Walk.
Variable S : Type.
(** [fs.WalkDirFunc], with the variables the closure captures passed
    explicitly.  The callbacks of this program return [nil] or the
    error they were given, never [SkipDir]. *)
Variable fn : S -> string -> option DirEntry -> option string -> S * option string.

Fixpoint walkDir (path : string) (d : DirEntry) (n : FsNode) (st : S)
  {struct n} : S * option string :=
  match fn st path (Some d) None with
  | (st1, Some err) => (st1, Some err)
  | (st1, None) =>
      if negb (entry_IsDir d) then (st1, None)
      else
        let walk_entries :=
          (fix walk_entries (dirs : list FsNode) (st : S) {struct dirs}
             : S * option string :=
             match dirs with
             | [] => (st, None)
             | d1 :: rest =>
                 let path1 := Filepath.Join path (fs_name d1) in
                 match walkDir path1
                         {| entry_Name := fs_name d1; entry_IsDir := fs_isDir d1 |}
                         d1 st with
                 | (st', Some err) => (st', Some err)
                 | (st', None) => walk_entries rest st'
                 end
             end) in
        match n with
        | FsEntry _ _ _ (Err e) =>
            (* second call, to report the ReadDir error *)
            match fn st1 path (Some d) (Some e) with
            | (st2, Some err) => (st2, Some err)
            | (st2, None) => (st2, None)
            end
        | FsEntry _ _ _ (Ok dirs) => walk_entries dirs st1
        end
  end.

(** The [for] loop of [walkDir] on its own. *)
Fixpoint walkDir_entries (path : string) (dirs : list FsNode) (st : S)
  : S * option string :=
  match dirs with
  | [] => (st, None)
  | d1 :: rest =>
      let path1 := Filepath.Join path (fs_name d1) in
      match walkDir path1
              {| entry_Name := fs_name d1; entry_IsDir := fs_isDir d1 |}
              d1 st with
      | (st', Some err) => (st', Some err)
      | (st', None) => walkDir_entries path rest st'
      end
  end.

Definition WalkDir (root : string) (n : FsNode) (st : S) : S * option string :=
  match fs_stat n with
  | Err e => fn st root None (Some e)
  | Ok isDir =>
      walkDir root {| entry_Name := Filepath.Base root; entry_IsDir := isDir |} n st
  end.
End Walk.

Section Backend.
Context {go : Strings}.

(** *** [ListImages] *)

Definition validExtensions (ext : string) : bool :=
  (ext =? ".jpg") || (ext =? ".jpeg") || (ext =? ".png") || (ext =? ".gif")
  || (ext =? ".bmp") || (ext =? ".webp") || (ext =? ".raf").

(** The closure passed to [WalkDir]; [imageFiles] is the captured slice. *)
Definition ListImages_visit (dirPath : string) (imageFiles : list string)
           (path : string) (d : option DirEntry) (err : option string)
  : list string * option string :=
  match err with
  | Some e => (imageFiles, Some e)
  | None =>
      match d with
      | Some d =>
          if negb (entry_IsDir d) && (Filepath.Dir path =? dirPath) then
            let ext := ToLower (Filepath.Ext path) in
            if validExtensions ext then ((imageFiles ++ [path])%list, None)
            else (imageFiles, None)
          else (imageFiles, None)
      | None => (imageFiles, None)
      end
  end.

(** [ListImages dirPath], run on the node the file system has at
    [dirPath]. *)
Definition ListImages (dirPath : string) (n : FsNode) : Result (list string) :=
  match WalkDir (ListImages_visit dirPath) dirPath n [] with
  | (_, Some err) => Err err
  | (imageFiles, None) => Ok (GoSort.Strings imageFiles)
  end.

(** *** [ReadImage] *)

(** [raw.RAF], as far as [ReadImage] reads it. *)
Record RAF : Type := { Jpeg : string }.

(** What [ReadImage] calls outside this file.  [raw.ReadRAF] and
    [image.Decode] may panic. *)
Record World : Type := {
  File : Type;
  Image : Type;
  raw_ReadRAF : string -> Outcome (option RAF);
  os_Open : string -> Result File;
  image_Decode : File -> Outcome (Result (Image * string));
  file_Seek : File -> Result unit;
  os_ReadFile : string -> Result string;
  png_Encode : Image -> Result string;
  base64_EncodeToString : string -> string;
  (* the text of [fmt.Errorf(msg)], where [msg] is used as the format *)
  fmt_Errorf : string -> string
}.

(** A function body that runs under [defer func() { if r := recover();
    r != nil { ... } }()]: a panic of the body is stopped and the
    handler sets the named results. *)
Definition with_recover (A : Type) (body : Outcome A) (handler : string -> A)
  : Outcome A :=
  match body with
  | Returns a => Returns a
  | Panics r => Returns (handler r)
  end.

(** The results are the named pair [(encodedImage, err)] and the lines
    written to the log. *)
Definition ReadImage (w : World) (filePath : string)
  : Outcome ((string * option string) * list string) :=
  let ext := ToLower (Filepath.Ext filePath) in
  if ext =? ".raf" then
    with_recover
      (match raw_ReadRAF w filePath with
       | Panics r => Panics r
       | Returns rafData =>
           match rafData with
           | None =>
               Returns (("", Some ("failed to extract JPEG from RAF file " ++ filePath)), [])
           | Some raf =>
               if (String.length (Jpeg raf) =? 0)%nat then
                 Returns (("", Some ("failed to extract JPEG from RAF file " ++ filePath)), [])
               else
                 let encoded := base64_EncodeToString w (Jpeg raf) in
                 Returns (("data:image/jpeg;base64," ++ encoded, None), [])
           end
       end)
      (fun r =>
         let errMsg := "panic occurred while decoding RAF file " ++ filePath ++ ": " ++ r in
         (("", Some (fmt_Errorf w errMsg)), [errMsg]))
  else
    match os_Open w filePath with
    | Err e => Returns (("", Some ("failed to open file " ++ filePath ++ ": " ++ e)), [])
    | Ok file =>
        match image_Decode w file with
        | Panics r => Panics r
        | Returns (Err decodeErr) =>
            match file_Seek w file with
            | Err seekErr =>
                Returns (("", Some ("failed to seek file " ++ filePath
                                    ++ " after decode error: " ++ seekErr)), [])
            | Ok _ =>
                match os_ReadFile w filePath with
                | Err e =>
                    Returns (("", Some ("failed to decode or read file " ++ filePath
                                        ++ ": decodeErr=" ++ decodeErr
                                        ++ ", readErr=" ++ e)), [])
                | Ok data =>
                    let known mimeType :=
                      Returns (("data:" ++ mimeType ++ ";base64,"
                                ++ base64_EncodeToString w data, None), []) in
                    if (ext =? ".jpg") || (ext =? ".jpeg") then known "image/jpeg"
                    else if ext =? ".png" then known "image/png"
                    else if ext =? ".gif" then known "image/gif"
                    else if ext =? ".bmp" then known "image/bmp"
                    else if ext =? ".webp" then known "image/webp"
                    else
                      Returns (("data:application/octet-stream;base64,"
                                ++ base64_EncodeToString w data, None),
                               ["Unsupported format '" ++ ext
                                ++ "' encountered during fallback for file " ++ filePath])
                end
            end
        | Returns (Ok (img, formatName)) =>
            let info := "Decoded format: " ++ formatName ++ " for file " ++ filePath in
            match png_Encode w img with
            | Err encodeErr =>
                Returns (("", Some ("failed to encode image " ++ filePath
                                    ++ " to PNG: " ++ encodeErr)), [info])
            | Ok buf =>
                Returns (("data:image/png;base64," ++ base64_EncodeToString w buf, None),
                         [info])
            end
        end
    end.

(** *** [ListSubfolders] *)

(** [Folder], a directory of the tree view. *)
Inductive Folder : Type :=
| mkFolder (Name Path : string) (Children : list Folder).

Definition Name (f : Folder) : string :=
  match f with mkFolder n _ _ => n end.
Definition Path (f : Folder) : string :=
  match f with mkFolder _ p _ => p end.
Definition Children (f : Folder) : list Folder :=
  match f with mkFolder _ _ c => c end.

(** The [less] function given to [sort.Slice]. *)
Definition children_less (a b : Folder) : bool :=
  Natsort.Compare (ToLower (Name a)) (ToLower (Name b)).

(** [ListSubfolders basePath], run on the node the file system has at
    [basePath].  The second component is what [runtime.LogError]
    received, in order. *)
Fixpoint ListSubfolders (basePath : string) (n : FsNode) {struct n}
  : Result Folder * list string :=
  match n with
  | FsEntry _ _ stat readdir =>
      match stat with
      | Err e => (Err ("failed to stat base path '" ++ basePath ++ "': " ++ e), [])
      | Ok false => (Err ("'" ++ basePath ++ "' is not a directory"), [])
      | Ok true =>
          match readdir with
          | Err e =>
              (Ok (mkFolder (Filepath.Base basePath) basePath []),
               ["Error reading directory " ++ basePath ++ ": " ++ e])
          | Ok entries =>
              let '(children, log) :=
                (fix each (entries : list FsNode) : list Folder * list string :=
                   match entries with
                   | [] => ([], [])
                   | entry :: rest =>
                       if fs_isDir entry then
                         if HasPrefix (fs_name entry) "." then each rest
                         else
                           let childPath := Filepath.Join basePath (fs_name entry) in
                           match ListSubfolders childPath entry with
                           | (Err err, lg) =>
                               let '(children, log) := each rest in
                               let msg := "Error processing subdirectory " ++ childPath
                                          ++ ": " ++ err in
                               (children, (lg ++ [msg] ++ log)%list)
                           | (Ok childNode, lg) =>
                               let '(children, log) := each rest in
                               (childNode :: children, (lg ++ log)%list)
                           end
                       else each rest
                   end) entries in
              (Ok (mkFolder (Filepath.Base basePath) basePath
                            (GoSort.Slice children_less children)),
               log)
          end
      end
  end.

(** The [for] loop of [ListSubfolders] on its own: the children
    collected and the lines logged. *)
Fixpoint subfolder_loop (basePath : string) (entries : list FsNode)
  : list Folder * list string :=
  match entries with
  | [] => ([], [])
  | entry :: rest =>
      if fs_isDir entry then
        if HasPrefix (fs_name entry) "." then subfolder_loop basePath rest
        else
          let childPath := Filepath.Join basePath (fs_name entry) in
          match ListSubfolders childPath entry with
          | (Err err, lg) =>
              let '(children, log) := subfolder_loop basePath rest in
              let msg := "Error processing subdirectory " ++ childPath
                         ++ ": " ++ err in
              (children, (lg ++ [msg] ++ log)%list)
          | (Ok childNode, lg) =>
              let '(children, log) := subfolder_loop basePath rest in
              (childNode :: children, (lg ++ log)%list)
          end
      else subfolder_loop basePath rest
  end.

(** *** Vocabulary of the specification *)

(** The nodes [ListSubfolders] obtains for the entries of a directory:
    one for each listed subdirectory that is not hidden and whose own
    call succeeds, in listing order. *)
Definition listed_subfolders (basePath : string) (entries : list FsNode)
  : list Folder :=
  flat_map
    (fun entry =>
       if fs_isDir entry && negb (HasPrefix (fs_name entry) ".") then
         match fst (ListSubfolders (Filepath.Join basePath (fs_name entry)) entry) with
         | Ok childNode => [childNode]
         | Err _ => []
         end
       else [])
    entries.

(** Case-insensitive natural order of two nodes by name: the natural
    order of the specification on the names in lower case. *)
Definition natural_before (a b : Folder) : Prop :=
  NaturalOrder.before (ToLower (Name a)) (ToLower (Name b)).

(** [b] may come after [a] among the children of a node: [b] does not
    come before [a] in case-insensitive natural order. *)
Definition natural_le (a b : Folder) : Prop := ~ natural_before b a.

(** Every node of the tree has its children in natural order. *)
Inductive naturally_ordered : Folder -> Prop :=
| ordered_node (name path : string) (children : list Folder) :
    Sorted natural_le children ->
    Forall naturally_ordered children ->
    naturally_ordered (mkFolder name path children).

(** Every entry below the node has a valid name. *)
Fixpoint valid_entries (n : FsNode) : bool :=
  match n with
  | FsEntry _ _ _ (Ok entries) =>
      (fix each (es : list FsNode) : bool :=
         match es with
         | [] => true
         | e :: rest =>
             Filepath.valid_name (fs_name e) && valid_entries e && each rest
         end) entries
  | FsEntry _ _ _ (Err _) => true
  end.

(** Every directory below the node can be read. *)
Fixpoint all_readable (n : FsNode) : bool :=
  match n with
  | FsEntry _ _ _ (Ok entries) =>
      (fix each (es : list FsNode) : bool :=
         match es with
         | [] => true
         | e :: rest => (negb (fs_isDir e) || all_readable e) && each rest
         end) entries
  | FsEntry _ _ _ (Err _) => false
  end.


(** The nodes below a node of the tree, at any depth, in pre-order. *)
Fixpoint descendants (f : Folder) : list Folder :=
  match f with
  | mkFolder _ _ children =>
      (fix each (cs : list Folder) : list Folder :=
         match cs with
         | [] => []
         | child :: rest => (child :: descendants child ++ each rest)%list
         end) children
  end.

(** Every node of the tree holds, for each child, the name of a visible
    directory entry and the path [filepath.Join] gives that name below
    the node's own path. *)
Inductive paths_joined : Folder -> Prop :=
| joined_node (name path : string) (children : list Folder) :
    Forall (fun c => Filepath.valid_name (Name c) = true
                     /\ HasPrefix (Name c) "." = false
                     /\ Path c = Filepath.Join path (Name c)) children ->
    Forall paths_joined children ->
    paths_joined (mkFolder name path children).

End Backend.

(** *** The earlier revision of [app.go]

    The sources also hold an earlier revision of this file.  It differs
    in three places: the allow-list has no [.raf], [ListImages] returns
    the paths in walk order without sorting them, and [ListSubfolders]
    orders the children by plain comparison of the lower-cased names. *)
Module Earlier.

Definition validExtensions (ext : string) : bool :=
  (ext =? ".jpg") || (ext =? ".jpeg") || (ext =? ".png") || (ext =? ".gif")
  || (ext =? ".bmp") || (ext =? ".webp").

Definition children_less {go : Strings} (a b : Folder) : bool :=
  String.ltb (ToLower (Name a)) (ToLower (Name b)).

End Earlier.

End App.


(** ** The front end: [ImageViewer.vue] *)
Module ImageViewer.
Import App.

(** *** JavaScript values *)

Definition len (l : list string) : Z := Z.of_nat (List.length l).

(** [Array.prototype.indexOf]: the first position, or [-1]. *)
Fixpoint indexOf (l : list string) (x : string) : Z :=
  match l with
  | [] => (-1)%Z
  | y :: r =>
      if y =? x then 0%Z
      else let i := indexOf r x in
           if (i =? -1)%Z then (-1)%Z else (i + 1)%Z
  end.

(** [Array.prototype.includes]. *)
Definition includes (l : list string) (x : string) : bool :=
  existsb (String.eqb x) l.

(** [l[i]]; [None] is [undefined]. *)
Definition at_index (l : list string) (i : Z) : option string :=
  if (i <? 0)%Z then None else nth_error l (Z.to_nat i).

(** A string used as a condition. *)
Definition truthy (s : string) : bool := negb (s =? "").

(** [Math.floor(Math.random() * n)] for a draw [u] of the generator. *)
Definition random_below (u n : nat) : nat := Nat.modulo u n.

(** *** The bindings to the backend

    What the backend answers at one moment, as a function of the
    argument of the call; [Err] is a rejected promise.  The backend reads
    the disk at every call: over a disk that changes, the viewer runs
    against one [Bindings] after another ([run_on] below). *)
Record Bindings : Type := {
  ListImages : string -> Result (list string);
  ReadImage : string -> Result string;
  ListSubfolders : string -> Result Folder
}.

(** *** The component state *)

Inductive SlideshowMode : Type := sequence | random_folder | random_all.

Definition is_sequence (m : SlideshowMode) : bool :=
  match m with sequence => true | _ => false end.

(** What a [ReadImage] call issued by [preloadNextImage] does to the
    preload variables when its promise settles. *)
Inductive Prefetch : Type :=
| Fetched (data : string) (index : Z) (folder : string)
| FetchFailed.

(** The [ref]s of the component, under their names.  [zoomLevel] and the
    style it feeds are left out.  Two more fields hold what the browser
    keeps for the component: [timers], the intervals that are still
    firing, and [prefetches], the preload reads still in flight.
    [slideshowDelay] is [None] when the field is not a number. *)
#[projections(primitive)]
Record State : Type := mkState {
  currentFolder : string;
  images : list string;
  currentIndex : Z;
  currentImageSrc : string;
  isLoading : bool;
  isTreeLoading : bool;
  slideshowActive : bool;
  slideshowInterval : option nat;
  slideshowDelay : option Z;
  slideshowMode : SlideshowMode;
  folderTreeRoot : option Folder;
  flatFolderList : list string;
  leafFolderList : list string;
  treeError : string;
  lastVisitedFolder : string;
  preloadedImageSrc : string;
  preloadedIndex : Z;
  preloadedFolder : string;
  timers : list nat;
  prefetches : list Prefetch
}.

Definition set_currentFolder (v : string) (s : State) : State :=
  mkState v (images s) (currentIndex s) (currentImageSrc s) (isLoading s)
  (isTreeLoading s) (slideshowActive s) (slideshowInterval s)
  (slideshowDelay s) (slideshowMode s) (folderTreeRoot s) (flatFolderList
  s) (leafFolderList s) (treeError s) (lastVisitedFolder s)
  (preloadedImageSrc s) (preloadedIndex s) (preloadedFolder s) (timers s)
  (prefetches s).
Definition set_images (v : list string) (s : State) : State :=
  mkState (currentFolder s) v (currentIndex s) (currentImageSrc s)
  (isLoading s) (isTreeLoading s) (slideshowActive s) (slideshowInterval
  s) (slideshowDelay s) (slideshowMode s) (folderTreeRoot s)
  (flatFolderList s) (leafFolderList s) (treeError s) (lastVisitedFolder
  s) (preloadedImageSrc s) (preloadedIndex s) (preloadedFolder s) (timers
  s) (prefetches s).
Definition set_currentIndex (v : Z) (s : State) : State :=
  mkState (currentFolder s) (images s) v (currentImageSrc s) (isLoading s)
  (isTreeLoading s) (slideshowActive s) (slideshowInterval s)
  (slideshowDelay s) (slideshowMode s) (folderTreeRoot s) (flatFolderList
  s) (leafFolderList s) (treeError s) (lastVisitedFolder s)
  (preloadedImageSrc s) (preloadedIndex s) (preloadedFolder s) (timers s)
  (prefetches s).
Definition set_currentImageSrc (v : string) (s : State) : State :=
  mkState (currentFolder s) (images s) (currentIndex s) v (isLoading s)
  (isTreeLoading s) (slideshowActive s) (slideshowInterval s)
  (slideshowDelay s) (slideshowMode s) (folderTreeRoot s) (flatFolderList
  s) (leafFolderList s) (treeError s) (lastVisitedFolder s)
  (preloadedImageSrc s) (preloadedIndex s) (preloadedFolder s) (timers s)
  (prefetches s).
Definition set_isLoading (v : bool) (s : State) : State :=
  mkState (currentFolder s) (images s) (currentIndex s) (currentImageSrc
  s) v (isTreeLoading s) (slideshowActive s) (slideshowInterval s)
  (slideshowDelay s) (slideshowMode s) (folderTreeRoot s) (flatFolderList
  s) (leafFolderList s) (treeError s) (lastVisitedFolder s)
  (preloadedImageSrc s) (preloadedIndex s) (preloadedFolder s) (timers s)
  (prefetches s).
Definition set_isTreeLoading (v : bool) (s : State) : State :=
  mkState (currentFolder s) (images s) (currentIndex s) (currentImageSrc
  s) (isLoading s) v (slideshowActive s) (slideshowInterval s)
  (slideshowDelay s) (slideshowMode s) (folderTreeRoot s) (flatFolderList
  s) (leafFolderList s) (treeError s) (lastVisitedFolder s)
  (preloadedImageSrc s) (preloadedIndex s) (preloadedFolder s) (timers s)
  (prefetches s).
Definition set_slideshowActive (v : bool) (s : State) : State :=
  mkState (currentFolder s) (images s) (currentIndex s) (currentImageSrc
  s) (isLoading s) (isTreeLoading s) v (slideshowInterval s)
  (slideshowDelay s) (slideshowMode s) (folderTreeRoot s) (flatFolderList
  s) (leafFolderList s) (treeError s) (lastVisitedFolder s)
  (preloadedImageSrc s) (preloadedIndex s) (preloadedFolder s) (timers s)
  (prefetches s).
Definition set_slideshowInterval (v : option nat) (s : State) : State :=
  mkState (currentFolder s) (images s) (currentIndex s) (currentImageSrc
  s) (isLoading s) (isTreeLoading s) (slideshowActive s) v (slideshowDelay
  s) (slideshowMode s) (folderTreeRoot s) (flatFolderList s)
  (leafFolderList s) (treeError s) (lastVisitedFolder s)
  (preloadedImageSrc s) (preloadedIndex s) (preloadedFolder s) (timers s)
  (prefetches s).
Definition set_slideshowDelay (v : option Z) (s : State) : State :=
  mkState (currentFolder s) (images s) (currentIndex s) (currentImageSrc
  s) (isLoading s) (isTreeLoading s) (slideshowActive s)
  (slideshowInterval s) v (slideshowMode s) (folderTreeRoot s)
  (flatFolderList s) (leafFolderList s) (treeError s) (lastVisitedFolder
  s) (preloadedImageSrc s) (preloadedIndex s) (preloadedFolder s) (timers
  s) (prefetches s).
Definition set_slideshowMode (v : SlideshowMode) (s : State) : State :=
  mkState (currentFolder s) (images s) (currentIndex s) (currentImageSrc
  s) (isLoading s) (isTreeLoading s) (slideshowActive s)
  (slideshowInterval s) (slideshowDelay s) v (folderTreeRoot s)
  (flatFolderList s) (leafFolderList s) (treeError s) (lastVisitedFolder
  s) (preloadedImageSrc s) (preloadedIndex s) (preloadedFolder s) (timers
  s) (prefetches s).
Definition set_folderTreeRoot (v : option Folder) (s : State) : State :=
  mkState (currentFolder s) (images s) (currentIndex s) (currentImageSrc
  s) (isLoading s) (isTreeLoading s) (slideshowActive s)
  (slideshowInterval s) (slideshowDelay s) (slideshowMode s) v
  (flatFolderList s) (leafFolderList s) (treeError s) (lastVisitedFolder
  s) (preloadedImageSrc s) (preloadedIndex s) (preloadedFolder s) (timers
  s) (prefetches s).
Definition set_flatFolderList (v : list string) (s : State) : State :=
  mkState (currentFolder s) (images s) (currentIndex s) (currentImageSrc
  s) (isLoading s) (isTreeLoading s) (slideshowActive s)
  (slideshowInterval s) (slideshowDelay s) (slideshowMode s)
  (folderTreeRoot s) v (leafFolderList s) (treeError s) (lastVisitedFolder
  s) (preloadedImageSrc s) (preloadedIndex s) (preloadedFolder s) (timers
  s) (prefetches s).
Definition set_leafFolderList (v : list string) (s : State) : State :=
  mkState (currentFolder s) (images s) (currentIndex s) (currentImageSrc
  s) (isLoading s) (isTreeLoading s) (slideshowActive s)
  (slideshowInterval s) (slideshowDelay s) (slideshowMode s)
  (folderTreeRoot s) (flatFolderList s) v (treeError s) (lastVisitedFolder
  s) (preloadedImageSrc s) (preloadedIndex s) (preloadedFolder s) (timers
  s) (prefetches s).
Definition set_treeError (v : string) (s : State) : State :=
  mkState (currentFolder s) (images s) (currentIndex s) (currentImageSrc
  s) (isLoading s) (isTreeLoading s) (slideshowActive s)
  (slideshowInterval s) (slideshowDelay s) (slideshowMode s)
  (folderTreeRoot s) (flatFolderList s) (leafFolderList s) v
  (lastVisitedFolder s) (preloadedImageSrc s) (preloadedIndex s)
  (preloadedFolder s) (timers s) (prefetches s).
Definition set_lastVisitedFolder (v : string) (s : State) : State :=
  mkState (currentFolder s) (images s) (currentIndex s) (currentImageSrc
  s) (isLoading s) (isTreeLoading s) (slideshowActive s)
  (slideshowInterval s) (slideshowDelay s) (slideshowMode s)
  (folderTreeRoot s) (flatFolderList s) (leafFolderList s) (treeError s) v
  (preloadedImageSrc s) (preloadedIndex s) (preloadedFolder s) (timers s)
  (prefetches s).
Definition set_preloadedImageSrc (v : string) (s : State) : State :=
  mkState (currentFolder s) (images s) (currentIndex s) (currentImageSrc
  s) (isLoading s) (isTreeLoading s) (slideshowActive s)
  (slideshowInterval s) (slideshowDelay s) (slideshowMode s)
  (folderTreeRoot s) (flatFolderList s) (leafFolderList s) (treeError s)
  (lastVisitedFolder s) v (preloadedIndex s) (preloadedFolder s) (timers
  s) (prefetches s).
Definition set_preloadedIndex (v : Z) (s : State) : State :=
  mkState (currentFolder s) (images s) (currentIndex s) (currentImageSrc
  s) (isLoading s) (isTreeLoading s) (slideshowActive s)
  (slideshowInterval s) (slideshowDelay s) (slideshowMode s)
  (folderTreeRoot s) (flatFolderList s) (leafFolderList s) (treeError s)
  (lastVisitedFolder s) (preloadedImageSrc s) v (preloadedFolder s)
  (timers s) (prefetches s).
Definition set_preloadedFolder (v : string) (s : State) : State :=
  mkState (currentFolder s) (images s) (currentIndex s) (currentImageSrc
  s) (isLoading s) (isTreeLoading s) (slideshowActive s)
  (slideshowInterval s) (slideshowDelay s) (slideshowMode s)
  (folderTreeRoot s) (flatFolderList s) (leafFolderList s) (treeError s)
  (lastVisitedFolder s) (preloadedImageSrc s) (preloadedIndex s) v (timers
  s) (prefetches s).
Definition set_timers (v : list nat) (s : State) : State :=
  mkState (currentFolder s) (images s) (currentIndex s) (currentImageSrc
  s) (isLoading s) (isTreeLoading s) (slideshowActive s)
  (slideshowInterval s) (slideshowDelay s) (slideshowMode s)
  (folderTreeRoot s) (flatFolderList s) (leafFolderList s) (treeError s)
  (lastVisitedFolder s) (preloadedImageSrc s) (preloadedIndex s)
  (preloadedFolder s) v (prefetches s).
Definition set_prefetches (v : list Prefetch) (s : State) : State :=
  mkState (currentFolder s) (images s) (currentIndex s) (currentImageSrc
  s) (isLoading s) (isTreeLoading s) (slideshowActive s)
  (slideshowInterval s) (slideshowDelay s) (slideshowMode s)
  (folderTreeRoot s) (flatFolderList s) (leafFolderList s) (treeError s)
  (lastVisitedFolder s) (preloadedImageSrc s) (preloadedIndex s)
  (preloadedFolder s) (timers s) v.

Arguments set_currentFolder v s /.
Arguments set_images v s /.
Arguments set_currentIndex v s /.
Arguments set_currentImageSrc v s /.
Arguments set_isLoading v s /.
Arguments set_isTreeLoading v s /.
Arguments set_slideshowActive v s /.
Arguments set_slideshowInterval v s /.
Arguments set_slideshowDelay v s /.
Arguments set_slideshowMode v s /.
Arguments set_folderTreeRoot v s /.
Arguments set_flatFolderList v s /.
Arguments set_leafFolderList v s /.
Arguments set_treeError v s /.
Arguments set_lastVisitedFolder v s /.
Arguments set_preloadedImageSrc v s /.
Arguments set_preloadedIndex v s /.
Arguments set_preloadedFolder v s /.
Arguments set_timers v s /.
Arguments set_prefetches v s /.

Definition initialState : State :=
  {| currentFolder := ""; images := []; currentIndex := (-1)%Z;
     currentImageSrc := ""; isLoading := false; isTreeLoading := false;
     slideshowActive := false; slideshowInterval := None;
     slideshowDelay := Some 3000%Z; slideshowMode := sequence;
     folderTreeRoot := None; flatFolderList := []; leafFolderList := [];
     treeError := ""; lastVisitedFolder := ""; preloadedImageSrc := "";
     preloadedIndex := (-1)%Z; preloadedFolder := ""; timers := [];
     prefetches := [] |}.

(** *** Traversal orders *)

Fixpoint flattenNode (node : Folder) : list string :=
  match node with
  | mkFolder _ path children =>
      path :: (fix each (cs : list Folder) : list string :=
                 match cs with
                 | [] => []
                 | child :: rest => (flattenNode child ++ each rest)%list
                 end) children
  end.

(** [flattenTree]: pre-order, the node before its children. *)
Definition flattenTree (node : option Folder) : list string :=
  match node with
  | None => []
  | Some n => flattenNode n
  end.

Fixpoint leafNode (node : Folder) : list string :=
  match node with
  | mkFolder _ path children =>
      match children with
      | [] => [path]
      | _ => (fix each (cs : list Folder) : list string :=
                match cs with
                | [] => []
                | child :: rest => (leafNode child ++ each rest)%list
                end) children
      end
  end.

(** [getLeafFolders]: the folders without children, in the same order. *)
Definition getLeafFolders (node : option Folder) : list string :=
  match node with
  | None => []
  | Some n => leafNode n
  end.

(** The loop shared by [hasNextLeafFolder], [preloadNextImage] and
    [nextImage]: from the position after the current folder in the flat
    list, the first entry that the leaf list includes. *)
Definition nextLeafFolder (s : State) : option string :=
  let currentFolderIndexInFlatList := indexOf (flatFolderList s) (currentFolder s) in
  if (currentFolderIndexInFlatList =? -1)%Z then None
  else find (includes (leafFolderList s))
            (skipn (Z.to_nat (currentFolderIndexInFlatList + 1)) (flatFolderList s)).

Definition hasNextLeafFolder (s : State) : bool :=
  let currentFolderIndexInFlatList := indexOf (flatFolderList s) (currentFolder s) in
  if (currentFolderIndexInFlatList =? -1)%Z || (len (flatFolderList s) =? 0)%Z
  then false
  else match nextLeafFolder s with Some _ => true | None => false end.

(** *** The file name shown above the image *)

(** [String.prototype.lastIndexOf] for a search string of one character:
    the last position, or [-1]. *)
Fixpoint lastIndexOf (s : string) (c : ascii) : Z :=
  match s with
  | EmptyString => (-1)%Z
  | String a rest =>
      let i := lastIndexOf rest c in
      if (i =? -1)%Z then (if Ascii.eqb a c then 0%Z else (-1)%Z)
      else (i + 1)%Z
  end.

(** [s.substring(start)] for a [start] that is not negative. *)
Fixpoint substring_from (start : nat) (s : string) : string :=
  match start, s with
  | O, _ => s
  | S n, String _ rest => substring_from n rest
  | S _, EmptyString => EmptyString
  end.

Definition backslash : ascii := Eval cbv in ascii_of_nat 92.

(** The computed property [currentFilename]: what follows the last
    separator of either kind.  Inside the bounds checked first the image
    list has an entry at the index. *)
Definition currentFilename (s : State) : string :=
  if (currentIndex s >=? 0)%Z && (len (images s) >? 0)%Z
     && (currentIndex s <? len (images s))%Z
  then
    match at_index (images s) (currentIndex s) with
    | Some fullPath =>
        substring_from
          (Z.to_nat (Z.max (lastIndexOf fullPath "/"%char)
                           (lastIndexOf fullPath backslash) + 1))
          fullPath
    | None => ""
    end
  else "".

(** *** Vocabulary for the traversal orders *)

(** [l1] is [l2] with some entries left out. *)
Inductive subsequence : list string -> list string -> Prop :=
| subsequence_nil : subsequence [] []
| subsequence_skip (x : string) (l1 l2 : list string) :
    subsequence l1 l2 -> subsequence l1 (x :: l2)
| subsequence_take (x : string) (l1 l2 : list string) :
    subsequence l1 l2 -> subsequence (x :: l1) (x :: l2).

(** *** Slideshow timer *)

Definition stopSlideshow (s : State) : State :=
  let s := match slideshowInterval s with
           | Some h =>
               set_slideshowInterval None
                 (set_timers (filter (fun t => negb (Nat.eqb t h)) (timers s)) s)
           | None => s
           end in
  set_slideshowActive false s.

(** *** Prefetch *)

Definition clearPreload (s : State) : State :=
  set_preloadedFolder "" (set_preloadedIndex (-1)%Z (set_preloadedImageSrc "" s)).

Section WithBindings.
Variable B : Bindings.

(** [preloadNextImage] up to its [ReadImage] call.  The call itself
    stays in flight; [settlePrefetch] is the rest of the function. *)
Definition preloadNextImage (s : State) : State :=
  if slideshowActive s && negb (is_sequence (slideshowMode s)) then clearPreload s
  else
    let s := clearPreload s in
    if (len (images s) <? 1)%Z && (len (flatFolderList s) <? 1)%Z then s
    else
      let nextIdx := (currentIndex s + 1)%Z in
      let nextFolder := currentFolder s in
      let target : option (option string * Z * string) :=
        if (len (images s) =? 0)%Z || (nextIdx >=? len (images s))%Z then
          match nextLeafFolder s with
          | None => None
          | Some nextFolder =>
              match ListImages B nextFolder with
              | Ok (first :: _) => Some (Some first, 0%Z, nextFolder)
              | Ok [] => None
              | Err _ => None
              end
          end
        else Some (at_index (images s) nextIdx, nextIdx, nextFolder) in
      match target with
      | None => s
      | Some (None, _, _) => s
      | Some (Some nextImagePath, nextIdx, nextFolder) =>
          if negb (truthy nextImagePath) then s
          else
            let outcome :=
              match ReadImage B nextImagePath with
              | Ok data => Fetched data nextIdx nextFolder
              | Err _ => FetchFailed
              end in
            set_prefetches (prefetches s ++ [outcome])%list s
      end.

(** The continuation of [preloadNextImage] after [await ReadImage]:
    the [k]-th read in flight settles. *)
Definition settlePrefetch (k : nat) (s : State) : State :=
  match nth_error (prefetches s) k with
  | None => s
  | Some outcome =>
      let s := set_prefetches
                 (firstn k (prefetches s) ++ skipn (S k) (prefetches s))%list s in
      match outcome with
      | Fetched data nextIdx nextFolder =>
          set_preloadedFolder nextFolder
            (set_preloadedIndex nextIdx (set_preloadedImageSrc data s))
      | FetchFailed => clearPreload s
      end
  end.

(** *** Display and folder loading *)

Definition displayCurrentImage (s : State) : State :=
  if (currentIndex s >=? 0)%Z && (currentIndex s <? len (images s))%Z then
    let s := set_isLoading true s in
    let s :=
      match at_index (images s) (currentIndex s) with
      | Some imagePath =>
          match ReadImage B imagePath with
          | Ok data => preloadNextImage (set_currentImageSrc data s)
          | Err _ => clearPreload (set_currentImageSrc "" s)
          end
      | None => s
      end in
    set_isLoading false s
  else
    let s := set_currentImageSrc "" s in
    if is_sequence (slideshowMode s) then preloadNextImage s else s.

Definition loadImagesForPath (folderPath : string) (s : State) : State :=
  if negb (truthy folderPath) then s
  else
    let s := set_isLoading true s in
    let s := stopSlideshow s in
    let s := set_currentFolder folderPath s in
    let s := clearPreload s in
    let s :=
      match ListImages B folderPath with
      | Ok imgs =>
          let s := set_images imgs s in
          let s := set_currentIndex (if (len imgs >? 0)%Z then 0%Z else (-1)%Z) s in
          displayCurrentImage s
      | Err _ =>
          set_currentImageSrc "" (set_currentIndex (-1)%Z (set_images [] s))
      end in
    set_isLoading false s.

Definition loadFolderTree (basePath : string) (s : State) : State :=
  if negb (truthy basePath) then s
  else
    let s := set_isTreeLoading true s in
    let s := set_treeError "" s in
    let s := set_folderTreeRoot None s in
    let s := set_flatFolderList [] s in
    let s := set_leafFolderList [] s in
    let s :=
      match ListSubfolders B basePath with
      | Ok tree =>
          let s := set_folderTreeRoot (Some tree) s in
          let s := set_flatFolderList (flattenTree (Some tree)) s in
          set_leafFolderList (getLeafFolders (Some tree)) s
      | Err err => set_treeError ("Failed to load folder tree: " ++ err) s
      end in
    set_isTreeLoading false s.

(** [selectFolder], given what the folder dialog answers: [Err] when
    it fails, [Ok ""] when it is cancelled. *)
Definition selectFolder (dialog : Result string) (s : State) : State :=
  let s := set_treeError "" s in
  let s := set_folderTreeRoot None s in
  let s := set_images [] s in
  let s := set_currentIndex (-1)%Z s in
  let s := set_currentImageSrc "" s in
  let s := set_currentFolder "" s in
  let s := set_flatFolderList [] s in
  let s := set_isLoading false s in
  let s := set_isTreeLoading false s in
  match dialog with
  | Ok selectedPath =>
      if truthy selectedPath
      then loadFolderTree selectedPath (loadImagesForPath selectedPath s)
      else s
  | Err _ => set_treeError "Failed to select folder." s
  end.

Definition handleFolderSelected (selectedPath : string) (s : State) : State :=
  if negb (truthy selectedPath) then s
  else if selectedPath =? currentFolder s then s
  else
    let s :=
      if truthy (currentFolder s) && negb (currentFolder s =? selectedPath)
      then set_lastVisitedFolder (currentFolder s) s
      else s in
    let s := loadImagesForPath selectedPath s in
    clearPreload s.

Definition handleFolderSelectedFromTree (path : string) (s : State) : State :=
  handleFolderSelected path s.

Definition goToLastVisitedFolder (s : State) : State :=
  if negb (truthy (lastVisitedFolder s)) || isTreeLoading s then s
  else handleFolderSelected (lastVisitedFolder s) s.

(** *** Sequential navigation *)

Definition nextImage (s : State) : State :=
  if (len (images s) =? 0)%Z && (len (flatFolderList s) =? 0)%Z then s
  else
    let targetIdx := (currentIndex s + 1)%Z in
    let targetFolder := currentFolder s in
    (* [None]: no subsequent leaf folder, the early return *)
    let target : option (Z * string * bool) :=
      if (len (images s) =? 0)%Z || (targetIdx >=? len (images s))%Z then
        match nextLeafFolder s with
        | Some potentialNextFolder => Some (0%Z, potentialNextFolder, true)
        | None => None
        end
      else Some (targetIdx, targetFolder, false) in
    match target with
    | None => stopSlideshow s
    | Some (targetIdx, targetFolder, isMovingFolder) =>
        if isMovingFolder && (targetFolder =? preloadedFolder s)
           && (targetIdx =? preloadedIndex s)%Z && truthy (preloadedImageSrc s)
        then
          let s := set_isLoading true s in
          let s := set_currentImageSrc (preloadedImageSrc s) s in
          let s := set_currentFolder targetFolder s in
          match ListImages B targetFolder with
          | Err _ => s (* the rejection ends [nextImage] here *)
          | Ok imgs =>
              let s := set_images imgs s in
              let s := set_currentIndex targetIdx s in
              let s := clearPreload s in
              let s := preloadNextImage s in
              set_isLoading false s
          end
        else if isMovingFolder then handleFolderSelected targetFolder s
        else if negb isMovingFolder && is_sequence (slideshowMode s)
                && (targetIdx =? preloadedIndex s)%Z
                && (targetFolder =? preloadedFolder s)
                && truthy (preloadedImageSrc s)
        then
          let s := set_isLoading true s in
          let s := set_currentImageSrc (preloadedImageSrc s) s in
          let s := set_currentIndex targetIdx s in
          let s := clearPreload s in
          let s := preloadNextImage s in
          set_isLoading false s
        else displayCurrentImage (set_currentIndex targetIdx s)
    end.

Definition prevImage (s : State) : State :=
  if (len (images s) =? 0)%Z then s
  else
    let s := clearPreload s in
    let targetIdx := (currentIndex s - 1)%Z in
    let targetIdx :=
      if (targetIdx <? 0)%Z then (len (images s) - 1)%Z else targetIdx in
    displayCurrentImage (set_currentIndex targetIdx s).

(** *** Random moves

    [rnd] holds the successive draws of [Math.random].  A [do ... while]
    loop that redraws takes the first draw it does not reject; the
    result is [None] when [rnd] has none, that is, while the loop is
    still drawing. *)
Fixpoint first_draw (n : nat) (reject : nat -> bool) (rnd : list nat)
  : option nat :=
  match rnd with
  | [] => None
  | u :: rest =>
      let r := random_below u n in
      if reject r then first_draw n reject rest else Some r
  end.

Definition displayRandomImageInFolder (rnd : list nat) (s : State)
  : option State :=
  if (len (images s) <? 1)%Z then Some s
  else
    let randomIndex :=
      if (len (images s) =? 1)%Z then Some 0%nat
      else first_draw (List.length (images s))
                      (fun r => (Z.of_nat r =? currentIndex s)%Z) rnd in
    match randomIndex with
    | None => None
    | Some randomIndex =>
        Some (displayCurrentImage (set_currentIndex (Z.of_nat randomIndex) s))
    end.

Definition displayRandomImageInAllFolders (u1 u2 : nat) (s : State) : State :=
  if (len (leafFolderList s) =? 0)%Z then s
  else
    let failed (s : State) :=
      set_currentIndex (-1)%Z (set_images [] (set_currentImageSrc "" s)) in
    let s := set_isLoading true s in
    let s :=
      match nth_error (leafFolderList s)
                      (random_below u1 (List.length (leafFolderList s))) with
      | None => s
      | Some randomFolderPath =>
          match ListImages B randomFolderPath with
          | Err _ => failed s
          | Ok randomFolderImages =>
              if (len randomFolderImages >? 0)%Z then
                let randomImageIndex :=
                  random_below u2 (List.length randomFolderImages) in
                match nth_error randomFolderImages randomImageIndex with
                | None => s
                | Some randomImagePath =>
                    let s := set_currentFolder randomFolderPath s in
                    let s := set_images randomFolderImages s in
                    let s := set_currentIndex (Z.of_nat randomImageIndex) s in
                    match ReadImage B randomImagePath with
                    | Ok data => set_currentImageSrc data s
                    | Err _ => failed s
                    end
                end
              else s
          end
      end in
    set_isLoading false s.

(** *** Slideshow *)

(** The [switch (slideshowMode.value)] of [startSlideshow] and of the
    interval callback. *)
Definition slideshowAction (rnd : list nat) (s : State) : option State :=
  match slideshowMode s with
  | sequence => Some (nextImage s)
  | random_folder => displayRandomImageInFolder rnd s
  | random_all =>
      Some (displayRandomImageInAllFolders (nth 0 rnd 0%nat) (nth 1 rnd 0%nat) s)
  end.

(** The validation of the delay at the head of [startSlideshow]. *)
Definition validateDelay (s : State) : State :=
  match slideshowDelay s with
  | None => set_slideshowDelay (Some 500%Z) s
  | Some d => if (d <? 500)%Z then set_slideshowDelay (Some 500%Z) s else s
  end.

(** [h] is the handle [window.setInterval] returns. *)
Definition startSlideshow (h : nat) (rnd : list nat) (s : State) : option State :=
  let s := validateDelay s in
  if slideshowActive s then Some s
  else if is_sequence (slideshowMode s) && (len (images s) <? 1)%Z
          && (len (flatFolderList s) <? 2)%Z then Some s
  else if match slideshowMode s with random_folder => true | _ => false end
          && (len (images s) <? 1)%Z then Some s
  else if match slideshowMode s with random_all => true | _ => false end
          && (len (leafFolderList s) <? 1)%Z then Some s
  else
    let s := if negb (is_sequence (slideshowMode s)) then clearPreload s else s in
    let s := set_slideshowActive true s in
    match slideshowAction rnd s with
    | None => None
    | Some s => Some (set_slideshowInterval (Some h) (set_timers (h :: timers s) s))
    end.

(** The callback of the interval with handle [h]; an interval that was
    cleared does not fire. *)
Definition intervalTick (h : nat) (rnd : list nat) (s : State) : option State :=
  if existsb (Nat.eqb h) (timers s) then slideshowAction rnd s else None.

Definition toggleSlideshow (h : nat) (rnd : list nat) (s : State) : option State :=
  if slideshowActive s then Some (stopSlideshow s) else startSlideshow h rnd s.

(** *** Folder jumps *)

Definition goToRandomFolder (rnd : list nat) (s : State) : option State :=
  if (len (leafFolderList s) =? 0)%Z || isTreeLoading s then Some s
  else
    let randomIndex :=
      if (len (leafFolderList s) >? 1)%Z then
        first_draw (List.length (leafFolderList s))
                   (fun r => match nth_error (leafFolderList s) r with
                             | Some randomFolder => randomFolder =? currentFolder s
                             | None => false
                             end) rnd
      else Some 0%nat in
    match randomIndex with
    | None => None
    | Some randomIndex =>
        match nth_error (leafFolderList s) randomIndex with
        | Some randomFolder =>
            if truthy randomFolder then Some (handleFolderSelected randomFolder s)
            else Some s
        | None => Some s
        end
    end.

Definition goToNextLeafFolder (s : State) : State :=
  if (len (leafFolderList s) <? 2)%Z || isTreeLoading s then s
  else
    let currentLeafIndex := indexOf (leafFolderList s) (currentFolder s) in
    if (currentLeafIndex =? -1)%Z then
      match at_index (leafFolderList s) 0%Z with
      | Some first => handleFolderSelected first s
      | None => s
      end
    else
      let nextLeafIndex := (currentLeafIndex + 1)%Z in
      if (nextLeafIndex <? len (leafFolderList s))%Z then
        match at_index (leafFolderList s) nextLeafIndex with
        | Some next => handleFolderSelected next s
        | None => s
        end
      else s.

Definition goToPrevLeafFolder (s : State) : State :=
  if (len (leafFolderList s) <? 2)%Z || isTreeLoading s then s
  else
    let currentLeafIndex := indexOf (leafFolderList s) (currentFolder s) in
    if (currentLeafIndex =? -1)%Z then
      match at_index (leafFolderList s) (len (leafFolderList s) - 1)%Z with
      | Some last => handleFolderSelected last s
      | None => s
      end
    else
      let prevLeafIndex := (currentLeafIndex - 1)%Z in
      if (prevLeafIndex >=? 0)%Z then
        match at_index (leafFolderList s) prevLeafIndex with
        | Some prev => handleFolderSelected prev s
        | None => s
        end
      else s.

(** *** Input handlers *)

Inductive Key : Type := ArrowRight | ArrowLeft | Space | OtherKey.

(** [handleKeydown]; the zoom keys change nothing of this state. *)
Definition handleKeydown (key : Key) (h : nat) (rnd : list nat) (s : State)
  : option State :=
  match key with
  | ArrowRight => Some (nextImage s)
  | ArrowLeft => Some (prevImage s)
  | Space => toggleSlideshow h rnd s
  | OtherKey => Some s
  end.

(** [handleWheel] without the control key. *)
Definition handleWheel (deltaY : Z) (s : State) : State :=
  if (deltaY <? 0)%Z then
    if negb (isLoading s) && (len (images s) >? 0)%Z then prevImage s else s
  else if (deltaY >? 0)%Z then
    let isLastImageInCurrentFolder :=
      (currentIndex s >=? len (images s) - 1)%Z in
    if negb (isLoading s)
       && (negb isLastImageInCurrentFolder || hasNextLeafFolder s)
    then nextImage s else s
  else s.

(** *** The component as a transition system

    What can happen to the component: the user's controls, the keyboard
    and the wheel, a tick of an interval that is still firing, and a
    preload read that settles.  Each event runs to completion before the
    next one: the awaits inside an operation are not interleaved with
    other events.  The only work left in flight across events is the read
    that [preloadNextImage] starts. *)

Inductive Event : Type :=
| Browse (dialog : Result string)
| TreeClick (path : string)
| ClickLastVisited
| ClickNext
| ClickPrevious
| ClickPrevFolder
| ClickNextFolder
| ClickRandomFolder (rnd : list nat)
| ClickSlideshow (h : nat) (rnd : list nat)
| ChooseMode (m : SlideshowMode)
| EnterDelay (d : option Z)
| Keydown (key : Key) (h : nat) (rnd : list nat)
| Wheel (deltaY : Z)
| Tick (h : nat) (rnd : list nat)
| PrefetchSettled (k : nat)
| Unmounted.

(** One event run to completion; [None] when the event cannot happen
    in this state or its random loop has no accepted draw in [rnd]. *)
Definition handle (e : Event) (s : State) : option State :=
  match e with
  | Browse dialog => Some (selectFolder dialog s)
  | TreeClick path => Some (handleFolderSelectedFromTree path s)
  | ClickLastVisited => Some (goToLastVisitedFolder s)
  | ClickNext => Some (nextImage s)
  | ClickPrevious => Some (prevImage s)
  | ClickPrevFolder => Some (goToPrevLeafFolder s)
  | ClickNextFolder => Some (goToNextLeafFolder s)
  | ClickRandomFolder rnd => goToRandomFolder rnd s
  | ClickSlideshow h rnd =>
      if existsb (Nat.eqb h) (timers s) then None else toggleSlideshow h rnd s
  | ChooseMode m =>
      if slideshowActive s || isLoading s then None
      else Some (set_slideshowMode m s)
  | EnterDelay d =>
      if slideshowActive s || isLoading s then None
      else Some (set_slideshowDelay d s)
  | Keydown key h rnd =>
      if existsb (Nat.eqb h) (timers s) then None else handleKeydown key h rnd s
  | Wheel deltaY => Some (handleWheel deltaY s)
  | Tick h rnd => intervalTick h rnd s
  | PrefetchSettled k =>
      if (k <? List.length (prefetches s))%nat then Some (settlePrefetch k s)
      else None
  | Unmounted => Some (stopSlideshow s)
  end.

Fixpoint run (es : list Event) (s : State) : option State :=
  match es with
  | [] => Some s
  | e :: rest =>
      match handle e s with
      | Some s' => run rest s'
      | None => None
      end
  end.

(** The states the component reaches when every event runs to
    completion before the next one and the backend answers as [B] from
    the first event to the last. *)
Definition reachable (s : State) : Prop :=
  exists es, run es initialState = Some s.

(** *** Vocabulary of the specification *)

(** The invariant of [Position]. *)
Definition position_invariant (s : State) : Prop :=
  (images s <> [] -> (0 <= currentIndex s < len (images s))%Z)
  /\ (currentIndex s = (-1)%Z <-> images s = []).

Definition preload_empty (s : State) : Prop :=
  preloadedImageSrc s = "" /\ preloadedIndex s = (-1)%Z /\ preloadedFolder s = "".
(** The folder has at least one image. *)
Definition listed_nonempty (folder : string) : Prop :=
  exists imgs, ListImages B folder = Ok imgs /\ imgs <> [].

(** A prefetch for index 0 is the first image of a folder that has
    images. *)
Definition prefetch_ok (p : Prefetch) : Prop :=
  match p with
  | Fetched _ index folder => index = 0%Z -> listed_nonempty folder
  | FetchFailed => True
  end.

(** What the operations maintain: the invariant of [Position], and that
    the preload slot and the reads in flight, where they are for index 0,
    are for a folder that has images. *)
Definition consistent (s : State) : Prop :=
  position_invariant s
  /\ (preloadedIndex s = 0%Z -> listed_nonempty (preloadedFolder s))
  /\ Forall prefetch_ok (prefetches s).

(** [data] is what [ReadImage] returns for the image at [index] of the
    listing of [folder]. *)
Definition payload_of (data : string) (index : Z) (folder : string) : Prop :=
  exists imgs path,
    ListImages B folder = Ok imgs
    /\ at_index imgs index = Some path
    /\ ReadImage B path = Ok data.

(** A read in flight that succeeds carries the payload of the image it
    was started for. *)
Definition prefetch_current (p : Prefetch) : Prop :=
  match p with
  | Fetched data index folder => payload_of data index folder
  | FetchFailed => True
  end.

(** What is on screen and in the preload slot belongs to the position it
    is kept for: the image list is the listing of the current folder, the
    image shown is the one at the current index, and the preload slot and
    the reads in flight hold the payload of the image they name. *)
Definition coherent (s : State) : Prop :=
  (images s <> [] -> ListImages B (currentFolder s) = Ok (images s))
  /\ (currentImageSrc s <> "" ->
      exists path, at_index (images s) (currentIndex s) = Some path
                   /\ ReadImage B path = Ok (currentImageSrc s))
  /\ (preloadedImageSrc s <> "" ->
      payload_of (preloadedImageSrc s) (preloadedIndex s) (preloadedFolder s))
  /\ Forall prefetch_current (prefetches s).

(** A slideshow that is active has its interval stored and firing, and
    a delay of at least the minimum. *)
Definition running (s : State) : Prop :=
  slideshowActive s = true ->
  (exists h, slideshowInterval s = Some h /\ In h (timers s))
  /\ (exists d, slideshowDelay s = Some d /\ (500 <= d)%Z).

(** The image of the first position of a folder, as [loadImagesForPath]
    gets it: what [ReadImage] returns for the first path of the listing,
    nothing when the read fails, the listing is empty or it fails. *)
Definition first_image (folder : string) : string :=
  match ListImages B folder with
  | Ok (first :: _) =>
      match ReadImage B first with
      | Ok data => data
      | Err _ => ""
      end
  | _ => ""
  end.

(** *** Sequential navigation as a tour

    The vocabulary for where a run of Next presses goes. *)

(** Where the viewer is: the current folder and the index in it. *)
Definition position (s : State) : string * Z := (currentFolder s, currentIndex s).

(** The positions of a folder: one for each image of its listing, or
    the position without an image when the listing is empty or fails. *)
Definition folder_positions (folder : string) : list (string * Z) :=
  match ListImages B folder with
  | Ok (_ :: rest) =>
      map (fun j => (folder, Z.of_nat j)) (seq 0 (S (List.length rest)))
  | _ => [(folder, (-1)%Z)]
  end.

(** The positions of the folders of a list, folder after folder. *)
Definition tour (folders : list string) : list (string * Z) :=
  flat_map folder_positions folders.

(** The events that call [nextImage] directly: the Next button and the
    right arrow key. *)
Definition presses_next (e : Event) : bool :=
  match e with
  | ClickNext | Keydown ArrowRight _ _ => true
  | _ => false
  end.

Definition settles_prefetch (e : Event) : bool :=
  match e with
  | PrefetchSettled _ => true
  | _ => false
  end.

End WithBindings.

(** *** A disk that changes

    In a run of [run] the backend answers as [B] throughout.  In a run
    of [run_on] every event comes with the backend as it answers while
    that event is handled, so that the disk may change from one event to
    the next. *)
Fixpoint run_on (steps : list (Bindings * Event)) (s : State) : option State :=
  match steps with
  | [] => Some s
  | (B, e) :: rest =>
      match handle B e s with
      | Some s' => run_on rest s'
      | None => None
      end
  end.

(** The disk does not change during the run: the backend answers as [B]
    at every step. *)
Definition steady (B : Bindings) (steps : list (Bindings * Event)) : Prop :=
  Forall (fun step => fst step = B) steps.

End ImageViewer.

(** ** The front end: [FolderTree.vue] *)
Module FolderTree.
Import App.

(** *** JavaScript strings *)

(** [s.startsWith(p)]. *)
Definition startsWith (s p : string) : bool := String.prefix p s.

(** [s.endsWith(p)]. *)
Fixpoint endsWith (s p : string) : bool :=
  (s =? p)
  || match s with
     | EmptyString => false
     | String _ rest => endsWith rest p
     end.

(** *** The component *)

(** The props; [None] is a prop that is not given, or [null]. *)
Record Props : Type := {
  folder : Folder;
  level : option nat;
  selectedPath : option string
}.

Definition indent (props : Props) : nat :=
  (match level props with Some l => l | None => 0 end * 15)%nat.

Definition toggleFolder (isOpen : bool) : bool := negb isOpen.

(** The computed property [isSelectedOrParentOfSelected]. *)
Definition isSelectedOrParentOfSelected (props : Props) : bool :=
  match selectedPath props with
  | None => false
  | Some selected =>
      if negb (ImageViewer.truthy selected) then false
      else if Path (folder props) =? selected then true
      else
        let separator :=
          if GoStrings.contains_char ImageViewer.backslash (Path (folder props))
          then String ImageViewer.backslash EmptyString else "/" in
        let pathWithSeparator :=
          if endsWith (Path (folder props)) separator then Path (folder props)
          else Path (folder props) ++ separator in
        startsWith selected pathWithSeparator
  end.

(** The watcher on [selectedPath], which also runs when the component
    is mounted: a folder that is the selection or above it is opened. *)
Definition watch_selectedPath (props : Props) (isOpen : bool) : bool :=
  if isSelectedOrParentOfSelected props then true else isOpen.

End FolderTree.

(** ** Concrete inputs used by the examples *)
Module Scenario.
Import App.
#[local] Existing Instance GoStrings.ascii_names.

(** A root directory whose entries cannot be read. *)
Definition unreadable_root : FsNode :=
  FsEntry "albums" true (Ok true) (Err "permission denied").

(** A root with one subdirectory that cannot be stat'ed, one that cannot
    be read, a hidden one and two ordinary ones. *)
Definition albums : FsNode :=
  dir "albums"
      [ dir ".cache" [];
        dir "img10" [file "b.jpg"];
        FsEntry "private" true (Err "permission denied") (Err "permission denied");
        FsEntry "locked" true (Ok true) (Err "permission denied");
        file "notes.txt";
        dir "img2" [dir "raw" []] ].

(** The folder of the specification's scenario, with a subfolder, a
    text file and upper-case extensions added. *)
Definition pictures : FsNode :=
  dir "pics"
      [ file "IMG_7.PNG";
        file "file1.jpg";
        file "file10.jpg";
        file "file2.jpg";
        file "notes.txt";
        file "raw.RAF";
        dir "sub" [file "deep.jpg"] ].

Definition three_files : FsNode :=
  dir "pics" [file "file1.jpg"; file "file10.jpg"; file "file2.jpg"].


(** A world in which the RAF extractor panics. *)
Definition panicking_world : World :=
  {| File := unit;
     Image := unit;
     raw_ReadRAF := fun _ => Panics "runtime error: index out of range";
     os_Open := fun _ => Err "no such file";
     image_Decode := fun _ => Returns (Err "unknown format");
     file_Seek := fun _ => Ok tt;
     os_ReadFile := fun _ => Err "no such file";
     png_Encode := fun _ => Err "unsupported";
     base64_EncodeToString := fun data => data;
     fmt_Errorf := fun msg => msg |}.

(** A world in which the RAF extractor finds a preview, and the general
    decoder does not know the format, so that the raw bytes are read. *)
Definition fallback_world : World :=
  {| File := unit;
     Image := unit;
     raw_ReadRAF := fun _ => Returns (Some {| Jpeg := "JFIF" |});
     os_Open := fun _ => Ok tt;
     image_Decode := fun _ => Returns (Err "image: unknown format");
     file_Seek := fun _ => Ok tt;
     os_ReadFile := fun _ => Ok "RIFF";
     png_Encode := fun _ => Err "unsupported";
     base64_EncodeToString := fun data => data;
     fmt_Errorf := fun msg => msg |}.


(** *** A library served to the viewer *)

(** The node a path names below [root], itself at [path]. *)
Fixpoint fs_find (path : string) (n : FsNode) (target : string) {struct n}
  : option FsNode :=
  if path =? target then Some n
  else
    match n with
    | FsEntry _ _ _ (Ok entries) =>
        (fix each (es : list FsNode) : option FsNode :=
           match es with
           | [] => None
           | e :: rest =>
               match fs_find (Filepath.Join path (fs_name e)) e target with
               | Some found => Some found
               | None => each rest
               end
           end) entries
    | FsEntry _ _ _ (Err _) => None
    end.

(** The bindings of a backend that runs on the file system [root]
    mounted at [rootPath].  Reading an image yields a payload that
    names the file. *)
Definition serve (rootPath : string) (root : FsNode) : ImageViewer.Bindings :=
  {| ImageViewer.ListImages := fun p =>
       match fs_find rootPath root p with
       | Some n => ListImages p n
       | None => Err "no such file or directory"
       end;
     ImageViewer.ReadImage := fun p =>
       match fs_find rootPath root p with
       | Some _ => Ok ("data:image/png;base64," ++ p)
       | None => Err ("failed to open file " ++ p)
       end;
     ImageViewer.ListSubfolders := fun p =>
       match fs_find rootPath root p with
       | Some n => fst (ListSubfolders p n)
       | None => Err ("failed to stat base path '" ++ p ++ "'")
       end |}.

(** The scenario of the specification: [/root/2024-01] holds [a.jpg]
    and [b.jpg], the next leaf folder [/root/2024-02] holds [c.jpg]. *)
Definition library : ImageViewer.Bindings :=
  serve "/root"
        (dir "root" [ dir "2024-01" [file "a.jpg"; file "b.jpg"];
                      dir "2024-02" [file "c.jpg"] ]).

(** The state after a sequence of events, from the initial state. *)
Definition after (B : ImageViewer.Bindings) (es : list ImageViewer.Event)
  : ImageViewer.State :=
  match ImageViewer.run B es ImageViewer.initialState with
  | Some s => s
  | None => ImageViewer.initialState
  end.

(** In [/root/2024-01] at [b.jpg], its last image. *)
Definition at_b : ImageViewer.State :=
  after library
        [ ImageViewer.Browse (Ok "/root");
          ImageViewer.TreeClick "/root/2024-01";
          ImageViewer.ClickNext ].

(** In [/root/2024-02] at [c.jpg], the last image of the last leaf
    folder, with a sequence slideshow running. *)
Definition at_c_playing : ImageViewer.State :=
  after library
        [ ImageViewer.Browse (Ok "/root");
          ImageViewer.TreeClick "/root/2024-01";
          ImageViewer.PrefetchSettled 0;
          ImageViewer.ClickSlideshow 1 [];
          ImageViewer.PrefetchSettled 0;
          ImageViewer.Tick 1 [] ].

(** The same walk with the slideshow started in [/root/2024-01] and the
    prefetch of [c.jpg] still in flight when the timer fires at
    [b.jpg]. *)
Definition at_b_playing : ImageViewer.State :=
  after library
        [ ImageViewer.Browse (Ok "/root");
          ImageViewer.TreeClick "/root/2024-01";
          ImageViewer.ClickSlideshow 1 [] ].

(** The folder tree of [library]. *)
Definition library_tree : Folder :=
  mkFolder "root" "/root"
           [ mkFolder "2024-01" "/root/2024-01" [];
             mkFolder "2024-02" "/root/2024-02" [] ].

(** In [/root/2024-01] at [a.jpg], its first image, with the read of
    [b.jpg] in flight, and the same once that read has settled. *)
Definition at_a : ImageViewer.State :=
  after library
        [ ImageViewer.Browse (Ok "/root");
          ImageViewer.TreeClick "/root/2024-01" ].

Definition at_a_preloaded : ImageViewer.State :=
  after library
        [ ImageViewer.Browse (Ok "/root");
          ImageViewer.TreeClick "/root/2024-01";
          ImageViewer.PrefetchSettled 0 ].

(** In [/root/2024-02], the last leaf folder. *)
Definition at_c : ImageViewer.State :=
  after library
        [ ImageViewer.Browse (Ok "/root");
          ImageViewer.TreeClick "/root/2024-02" ].

(** A library whose second leaf folder has no images. *)
Definition sparse_library : ImageViewer.Bindings :=
  serve "/lib"
        (dir "lib" [ dir "a" [file "x.jpg"; file "y.jpg"];
                     dir "b" [];
                     dir "c" [file "z.jpg"] ]).

(** In [/lib/a] at [y.jpg], its last image; the next leaf folder
    [/lib/b] has no images. *)
Definition at_y : ImageViewer.State :=
  after sparse_library
        [ ImageViewer.Browse (Ok "/lib");
          ImageViewer.TreeClick "/lib/a";
          ImageViewer.ClickNext ].

(** In [/root/2024-01] at [b.jpg] with every read settled: the preload
    slot holds [c.jpg], the first image of the next leaf folder. *)
Definition at_b_preloaded : ImageViewer.State :=
  after library
        [ ImageViewer.Browse (Ok "/root");
          ImageViewer.TreeClick "/root/2024-01";
          ImageViewer.PrefetchSettled 0;
          ImageViewer.ClickNext;
          ImageViewer.PrefetchSettled 0 ].

(** The library once [c.jpg] has been deleted from the disk. *)
Definition library_without_c : ImageViewer.Bindings :=
  serve "/root"
        (dir "root" [ dir "2024-01" [file "a.jpg"; file "b.jpg"];
                      dir "2024-02" [] ]).

(** A sequence slideshow running in [/lib/a] at [y.jpg], its last image,
    with every prefetch settled. *)
Definition at_y_playing : ImageViewer.State :=
  after sparse_library
        [ ImageViewer.Browse (Ok "/lib");
          ImageViewer.TreeClick "/lib/a";
          ImageViewer.PrefetchSettled 0;
          ImageViewer.ClickSlideshow 1 [] ].

(** The folder tree of [sparse_library]. *)
Definition sparse_tree : Folder :=
  mkFolder "lib" "/lib"
           [ mkFolder "a" "/lib/a" [];
             mkFolder "b" "/lib/b" [];
             mkFolder "c" "/lib/c" [] ].

(** In [/lib/a] at [x.jpg], the first image of the first leaf folder. *)
Definition at_x : ImageViewer.State :=
  after sparse_library
        [ ImageViewer.Browse (Ok "/lib");
          ImageViewer.TreeClick "/lib/a" ].

End Scenario.


(** * Properties *)

(** ** [sort.Slice] and [sort.Strings] *)
Section SliceFacts.
Variable A : Type.
Variable less : A -> A -> bool.
Hypothesis less_asym : forall x y, less x y = true -> less y x = false.

(** [b] may follow [a]: [b] is not less than [a]. *)
Let follows (a b : A) : Prop := less b a = false.
Let precedes_rev (b a : A) : Prop := less b a = false.

Lemma sift_perm (x : A) (acc : list A) :
  Permutation (GoSort.sift less x acc) (x :: acc).
Proof.
  induction acc as [|y r IH]; simpl; [reflexivity|].
  destruct (less x y); [|reflexivity].
  rewrite IH. apply perm_swap.
Qed.

Lemma fold_sift_perm (l acc : list A) :
  Permutation (fold_left (fun acc x => GoSort.sift less x acc) l acc) (l ++ acc).
Proof.
  revert acc; induction l as [|x l IH]; intros acc; simpl; [reflexivity|].
  rewrite IH, sift_perm. symmetry. apply Permutation_middle.
Qed.

Lemma Slice_perm (l : list A) : Permutation (GoSort.Slice less l) l.
Proof.
  unfold GoSort.Slice. rewrite <- Permutation_rev, fold_sift_perm.
  now rewrite app_nil_r.
Qed.

Lemma sift_hd (x y : A) (r : list A) :
  less y x = false -> HdRel precedes_rev y r ->
  HdRel precedes_rev y (GoSort.sift less x r).
Proof.
  intros Hyx Hr. destruct r as [|z r]; simpl.
  - constructor. exact Hyx.
  - destruct (less x z); constructor.
    + inversion Hr; assumption.
    + exact Hyx.
Qed.

Lemma sift_sorted (x : A) (acc : list A) :
  Sorted precedes_rev acc -> Sorted precedes_rev (GoSort.sift less x acc).
Proof.
  induction acc as [|y r IH]; intros Hs; simpl.
  - repeat constructor.
  - inversion Hs as [|? ? Hr Hhd]; subst.
    destruct (less x y) eqn:Hxy.
    + constructor; [auto|]. apply sift_hd; auto.
    + constructor; [assumption|]. constructor. exact Hxy.
Qed.

Lemma fold_sift_sorted (l acc : list A) :
  Sorted precedes_rev acc ->
  Sorted precedes_rev (fold_left (fun acc x => GoSort.sift less x acc) l acc).
Proof.
  revert acc; induction l as [|x l IH]; intros acc Hs; simpl; [assumption|].
  apply IH, sift_sorted, Hs.
Qed.

Lemma Sorted_snoc (R : A -> A -> Prop) (l : list A) (x : A) :
  Sorted R l -> (forall y, last l x = y -> l <> [] -> R y x) -> Sorted R (l ++ [x]).
Proof.
  induction l as [|a l IH]; intros Hs Hlast; simpl.
  - repeat constructor.
  - inversion Hs as [|? ? Hl Hhd]; subst.
    constructor.
    + apply IH; [assumption|].
      intros y Hy Hne. apply Hlast; [|discriminate].
      destruct l; [contradiction|exact Hy].
    + destruct l as [|b l]; simpl.
      * constructor. apply Hlast; [reflexivity|discriminate].
      * inversion Hhd; subst. constructor. assumption.
Qed.

Lemma Sorted_rev (R : A -> A -> Prop) (l : list A) :
  Sorted R l -> Sorted (fun a b => R b a) (rev l).
Proof.
  induction l as [|a l IH]; intros Hs; simpl; [constructor|].
  inversion Hs as [|? ? Hl Hhd]; subst.
  apply Sorted_snoc; [auto|].
  intros y Hy Hne.
  destruct l as [|b l]; [contradiction Hne; reflexivity|].
  inversion Hhd; subst.
  simpl in *. rewrite last_last. assumption.
Qed.

Lemma Slice_sorted (l : list A) : Sorted follows (GoSort.Slice less l).
Proof.
  unfold GoSort.Slice.
  apply (Sorted_rev (R := precedes_rev)).
  apply fold_sift_sorted. constructor.
Qed.
End SliceFacts.

(** ** [path/filepath] on clean paths *)
Section FilepathFacts.
Import GoStrings Filepath.

Local Arguments Ascii.eqb : simpl never.
Local Arguments String.eqb : simpl never.

Local Abbreviation plain := (fun c : string => valid_name c = true).
Local Abbreviation slash_free := (fun c : string => contains_char "/"%char c = false).

Lemma split_sep_nonempty (s : string) : split_sep s <> [].
Proof.
  destruct s as [|c s]; simpl; [discriminate|].
  destruct (Ascii.eqb c "/"); [discriminate|].
  destruct (split_sep s); discriminate.
Qed.

Lemma split_sep_app (a b : string) :
  split_sep (a ++ "/" ++ b) = (split_sep a ++ split_sep b)%list.
Proof.
  induction a as [|c a IH]; simpl; [reflexivity|].
  destruct (Ascii.eqb c "/"); simpl.
  - now rewrite <- IH.
  - simpl in IH. rewrite IH.
    pose proof (split_sep_nonempty a) as Hne.
    destruct (split_sep a); [contradiction|reflexivity].
Qed.

Lemma split_sep_slash_free (s : string) :
  contains_char "/"%char s = false -> split_sep s = [s].
Proof.
  induction s as [|c s IH]; simpl; [reflexivity|].
  rewrite (Ascii.eqb_sym c). destruct (Ascii.eqb "/" c); simpl; intros H;
    [discriminate|].
  now rewrite (IH H).
Qed.

Lemma split_sep_elems (s : string) : Forall slash_free (split_sep s).
Proof.
  induction s as [|c s IH]; simpl; [repeat constructor|].
  destruct (Ascii.eqb c "/") eqn:Hc.
  - constructor; [reflexivity|exact IH].
  - destruct (split_sep s) as [|x xs]; [repeat constructor; simpl|].
    + now rewrite Ascii.eqb_sym, Hc.
    + inversion IH; subst. constructor; [|assumption].
      simpl. now rewrite Ascii.eqb_sym, Hc.
Qed.

Lemma split_join (cs : list string) :
  cs <> [] -> Forall slash_free cs -> split_sep (join_sep cs) = cs.
Proof.
  induction cs as [|c cs IH]; intros Hne Hall; [contradiction|].
  inversion Hall as [|? ? Hc Hcs]; subst.
  destruct cs as [|c' cs].
  - simpl. now apply split_sep_slash_free.
  - change (join_sep (c :: c' :: cs)) with (c ++ "/" ++ join_sep (c' :: cs)).
    rewrite split_sep_app, (split_sep_slash_free _ Hc), IH; [reflexivity|discriminate|assumption].
Qed.

Lemma valid_name_inv (c : string) :
  valid_name c = true ->
  c <> "" /\ c <> "." /\ c <> ".." /\ contains_char "/"%char c = false.
Proof.
  unfold valid_name. rewrite !andb_true_iff, !negb_true_iff, !String.eqb_neq.
  tauto.
Qed.

Lemma valid_name_intro (c : string) :
  c <> "" -> c <> "." -> c <> ".." -> contains_char "/"%char c = false ->
  valid_name c = true.
Proof.
  intros. unfold valid_name.
  rewrite !andb_true_iff, !negb_true_iff, !String.eqb_neq. tauto.
Qed.

Lemma clean_elems_plain (rooted : bool) (c : string) (stack cs : list string) :
  valid_name c = true ->
  clean_elems rooted stack (c :: cs) = clean_elems rooted (c :: stack) cs.
Proof.
  intros Hc. apply valid_name_inv in Hc. destruct Hc as (H1 & H2 & H3 & _).
  apply String.eqb_neq in H1, H2, H3. simpl. now rewrite H1, H2, H3.
Qed.

Lemma clean_elems_snoc (rooted : bool) (n : string) (cs stack : list string) :
  valid_name n = true ->
  clean_elems rooted stack (cs ++ [n]) = (clean_elems rooted stack cs ++ [n])%list.
Proof.
  intros Hn. revert stack.
  induction cs as [|c cs IH]; intros stack.
  - simpl app. rewrite clean_elems_plain by assumption. reflexivity.
  - simpl.
    destruct ((c =? "") || (c =? ".")); [apply IH|].
    destruct (c =? ".."); [|apply IH].
    destruct stack as [|top stack'].
    + destruct rooted; apply IH.
    + destruct (top =? ".."); apply IH.
Qed.


Lemma clean_elems_names (rooted : bool) (names stack : list string) :
  Forall plain names ->
  clean_elems rooted stack names = (rev stack ++ names)%list.
Proof.
  intros Hall. revert stack.
  induction Hall as [|c names Hc _ IH]; intros stack.
  - simpl. now rewrite app_nil_r.
  - rewrite clean_elems_plain by assumption. rewrite IH. simpl.
    now rewrite <- app_assoc.
Qed.

Lemma rev_repeat (x : string) (k : nat) : rev (repeat x k) = repeat x k.
Proof.
  induction k as [|k IH]; [reflexivity|].
  simpl. rewrite IH. clear IH.
  induction k as [|k IH]; [reflexivity|]. simpl. now rewrite IH.
Qed.

Lemma clean_elems_dots (k j : nat) (names : list string) :
  Forall plain names ->
  clean_elems false (repeat ".." j) (repeat ".." k ++ names)
  = (repeat ".." (j + k) ++ names)%list.
Proof.
  intros Hall. revert j. induction k as [|k IH]; intros j.
  - simpl app. rewrite clean_elems_names by assumption.
    now rewrite rev_repeat, Nat.add_0_r.
  - change (repeat ".." (S k) ++ names)%list
      with (".." :: (repeat ".." k ++ names))%list.
    destruct j as [|j].
    + change (clean_elems false (repeat ".." 0) (".." :: repeat ".." k ++ names))
        with (clean_elems false (repeat ".." 1) (repeat ".." k ++ names)).
      rewrite (IH 1%nat). reflexivity.
    + change (clean_elems false (repeat ".." (S j)) (".." :: repeat ".." k ++ names))
        with (clean_elems false (repeat ".." (S (S j))) (repeat ".." k ++ names)).
      rewrite (IH (S (S j))). f_equal. f_equal. lia.
Qed.

Lemma clean_elems_normal (rooted : bool) (cs : list string) :
  normal_elems rooted cs -> clean_elems rooted [] cs = cs.
Proof.
  intros (k & names & -> & Hall & Hk).
  destruct rooted.
  - rewrite (Hk eq_refl). simpl. now apply clean_elems_names.
  - now apply (clean_elems_dots k 0).
Qed.

(** The stack of [Clean] holds valid names above [..] elements. *)
Lemma clean_elems_output (rooted : bool) (cs : list string) :
  Forall slash_free cs ->
  forall (names : list string) (k : nat),
    Forall plain names -> (rooted = true -> k = 0%nat) ->
    normal_elems rooted (clean_elems rooted (names ++ repeat ".." k) cs).
Proof.
  induction 1 as [|c cs Hc _ IH]; intros names k Hnames Hk.
  - simpl. exists k, (rev names). split; [|split; [|exact Hk]].
    + now rewrite rev_app_distr, rev_repeat.
    + apply Forall_rev. exact Hnames.
  - simpl.
    destruct (c =? "") eqn:E1; [apply IH; assumption|].
    destruct (c =? ".") eqn:E2; [apply IH; assumption|]. simpl.
    destruct (c =? "..") eqn:E3.
    + apply String.eqb_eq in E3. subst c.
      destruct names as [|top names'].
      * destruct k as [|k]; simpl.
        -- destruct rooted.
           ++ apply (IH [] 0%nat); auto.
           ++ apply (IH [] 1%nat); [constructor|discriminate].
        -- apply (IH [] (S (S k))); [constructor|].
           intros Hr. specialize (Hk Hr). discriminate.
      * inversion Hnames as [|? ? Htop Hrest]; subst.
        apply valid_name_inv in Htop. destruct Htop as (_ & _ & Hdd & _).
        apply String.eqb_neq in Hdd. simpl. rewrite Hdd.
        apply IH; assumption.
    + apply (IH (c :: names) k); [|exact Hk].
      constructor; [|exact Hnames].
      apply String.eqb_neq in E1, E2, E3. now apply valid_name_intro.
Qed.

Lemma normal_elems_slash_free (rooted : bool) (cs : list string) :
  normal_elems rooted cs -> Forall slash_free cs.
Proof.
  intros (k & names & -> & Hall & _). apply Forall_app. split.
  - clear. induction k; simpl; constructor; auto.
  - eapply Forall_impl; [|exact Hall].
    intros c Hc. now apply valid_name_inv in Hc.
Qed.

Lemma normal_elems_snoc (rooted : bool) (cs : list string) (n : string) :
  normal_elems rooted cs -> valid_name n = true -> normal_elems rooted (cs ++ [n]).
Proof.
  intros (k & names & -> & Hall & Hk) Hn.
  exists k, (names ++ [n])%list. split; [now rewrite app_assoc|].
  split; [|exact Hk]. apply Forall_app. split; [assumption|]. now constructor.
Qed.

Lemma normal_elems_head (rooted : bool) (c : string) (cs : list string) :
  normal_elems rooted (c :: cs) ->
  exists a rest, c = String a rest /\ a <> "/"%char /\ c <> ".".
Proof.
  intros (k & names & Heq & Hall & _).
  destruct k as [|k]; simpl in Heq.
  - destruct names as [|n names]; [discriminate|].
    injection Heq as <- _. inversion Hall as [|? ? Hn _]; subst.
    apply valid_name_inv in Hn. destruct Hn as (H1 & H2 & _ & H4).
    destruct c as [|a rest]; [contradiction H1; reflexivity|].
    exists a, rest. split; [reflexivity|]. split; [|assumption].
    simpl in H4. apply orb_false_iff in H4. destruct H4 as [H4 _].
    intros ->. discriminate.
  - injection Heq as -> _. exists "."%char, ".". repeat split; discriminate.
Qed.

Lemma prefix_slash (x : string) : String.prefix "/" (String "/" x) = true.
Proof. destruct x; reflexivity. Qed.

Lemma prefix_head (a : ascii) (x y : string) :
  String.prefix "/" (String a x) = String.prefix "/" (String a y).
Proof.
  cbn [String.prefix]. destruct (ascii_dec "/" a); [|reflexivity].
  destruct x, y; reflexivity.
Qed.

Lemma render_nonempty (rooted : bool) (cs : list string) :
  normal_elems rooted cs ->
  exists a rest, render rooted cs = String a rest
                 /\ String.prefix "/" (render rooted cs) = rooted.
Proof.
  intros Hn. destruct rooted; simpl.
  - exists "/"%char, (join_sep cs). split; [reflexivity|apply prefix_slash].
  - destruct cs as [|c cs].
    + exists "."%char, "". split; reflexivity.
    + destruct (normal_elems_head Hn) as (a & rest & -> & Ha & _).
      assert (Hp : forall x, String.prefix "/" (String a x) = false).
      { intros x. cbn [String.prefix].
        destruct (ascii_dec "/" a) as [E|E]; [|reflexivity].
        subst a. contradiction Ha. reflexivity. }
      destruct cs as [|c' cs]; eexists a, _; (split; [reflexivity|]); apply Hp.
Qed.

Lemma split_render (rooted : bool) (cs : list string) :
  normal_elems rooted cs -> cs <> [] ->
  split_sep (render rooted cs) = if rooted then "" :: cs else cs.
Proof.
  intros Hn Hne. pose proof (normal_elems_slash_free Hn) as Hsf.
  destruct rooted; simpl.
  - change (split_sep (String "/" (join_sep cs))) with ("" :: split_sep (join_sep cs)).
    now rewrite split_join.
  - destruct cs as [|c cs]; [contradiction|]. now apply split_join.
Qed.

Lemma clean_split_render (rooted : bool) (cs : list string) :
  normal_elems rooted cs ->
  clean_elems rooted [] (split_sep (render rooted cs)) = cs.
Proof.
  intros Hn. destruct cs as [|c cs].
  - destruct rooted; reflexivity.
  - rewrite split_render by (assumption || discriminate).
    destruct rooted; [|now apply clean_elems_normal].
    change (clean_elems true [] ("" :: c :: cs)) with (clean_elems true [] (c :: cs)).
    now apply clean_elems_normal.
Qed.

Lemma render_inj (rooted : bool) (cs1 cs2 : list string) :
  normal_elems rooted cs1 -> normal_elems rooted cs2 ->
  render rooted cs1 = render rooted cs2 -> cs1 = cs2.
Proof.
  intros H1 H2 Heq.
  rewrite <- (clean_split_render H1), <- (clean_split_render H2).
  now rewrite Heq.
Qed.

Lemma Clean_render (rooted : bool) (cs : list string) :
  normal_elems rooted cs -> Clean (render rooted cs) = render rooted cs.
Proof.
  intros Hn. unfold Clean.
  destruct (render_nonempty Hn) as (_ & _ & _ & ->).
  now rewrite clean_split_render.
Qed.

(** A clean path is the rendering of its elements. *)
Lemma Clean_fixed_repr (d : string) :
  Clean d = d ->
  exists cs, normal_elems (String.prefix "/" d) cs
             /\ d = render (String.prefix "/" d) cs.
Proof.
  intros Hd. exists (clean_elems (String.prefix "/" d) [] (split_sep d)). split.
  - apply (@clean_elems_output _ _ (split_sep_elems d) [] 0%nat); [constructor|reflexivity].
  - symmetry. exact Hd.
Qed.

Lemma Join_render (rooted : bool) (cs : list string) (n : string) :
  normal_elems rooted cs -> valid_name n = true ->
  Join (render rooted cs) n = render rooted (cs ++ [n]).
Proof.
  intros Hn Hv. unfold Join.
  destruct (render_nonempty Hn) as (a & rest & Hr & Hp).
  assert (Hne : (render rooted cs =? "") = false)
    by (rewrite Hr; reflexivity).
  rewrite Hne. simpl negb. cbv iota. unfold Clean.
  assert (Hp' : String.prefix "/" (render rooted cs ++ "/" ++ n) = rooted).
  { transitivity (String.prefix "/" (render rooted cs)); [|exact Hp].
    rewrite Hr. apply prefix_head. }
  rewrite Hp', split_sep_app.
  rewrite (@split_sep_slash_free n) by (now apply valid_name_inv in Hv).
  rewrite clean_elems_snoc by assumption.
  now rewrite clean_split_render.
Qed.


End FilepathFacts.

(** ** Induction over the file system *)
Section FsNodeInduction.
Import App.

Lemma FsNode_forall_ind (P : FsNode -> Prop) :
  (forall name isDir stat e, P (FsEntry name isDir stat (Err e))) ->
  (forall name isDir stat entries,
      Forall P entries -> P (FsEntry name isDir stat (Ok entries))) ->
  forall n, P n.
Proof.
  intros Herr Hok. fix IH 1. intros [name isDir stat [entries|e]].
  - apply Hok.
    exact ((fix each (es : list FsNode) : Forall P es :=
              match es with
              | [] => Forall_nil P
              | e :: rest => Forall_cons e (IH e) (each rest)
              end) entries).
  - apply Herr.
Qed.
End FsNodeInduction.

(** ** [ListImages] *)
Section ListImagesFacts.
Import App GoStrings Filepath.
Context {go : Strings}.

Variable dirPath : string.
Hypothesis dirPath_clean : Clean dirPath = dirPath.

Let visit := ListImages_visit dirPath.

Lemma walkDir_unfold (S : Type) (fn : S -> string -> option DirEntry -> option string -> S * option string)
      (path : string) (d : DirEntry) (n : FsNode) (st : S) :
  walkDir fn path d n st
  = match fn st path (Some d) None with
    | (st1, Some err) => (st1, Some err)
    | (st1, None) =>
        if negb (entry_IsDir d) then (st1, None)
        else match fs_readdir n with
             | Err e =>
                 match fn st1 path (Some d) (Some e) with
                 | (st2, Some err) => (st2, Some err)
                 | (st2, None) => (st2, None)
                 end
             | Ok dirs => walkDir_entries fn path dirs st1
             end
    end.
Proof.
  destruct n as [name isDir stat [dirs|e]]; cbn [walkDir fs_readdir];
    destruct (fn st path (Some d) None) as [st1 [err|]]; try reflexivity;
    destruct (negb (entry_IsDir d)); try reflexivity.
  match goal with
  | |- ?each dirs st1 = _ =>
      assert (Heach : forall ds st, each ds st = walkDir_entries fn path ds st)
  end.
  { induction ds as [|d1 rest IH]; intros st0; [reflexivity|].
    cbn [walkDir_entries].
    destruct (walkDir _ _ _ d1 st0) as [st' [err|]]; [reflexivity|apply IH]. }
  apply Heach.
Qed.

Lemma valid_entries_cons (name : string) (isDir : bool) (stat : Result bool)
      (e : FsNode) (rest : list FsNode) :
  valid_entries (FsEntry name isDir stat (Ok (e :: rest))) = true ->
  valid_name (fs_name e) = true /\ valid_entries e = true
  /\ valid_entries (FsEntry name isDir stat (Ok rest)) = true.
Proof.
  cbn [valid_entries]. rewrite !andb_true_iff. tauto.
Qed.


Section Below.
Variable cs : list string.
Hypothesis cs_normal : normal_elems (String.prefix "/" dirPath) cs.
Hypothesis cs_repr : dirPath = render (String.prefix "/" dirPath) cs.

Let rooted := String.prefix "/" dirPath.








End Below.

Lemma visit_no_error (st : list string) (path : string) (d : option DirEntry) :
  snd (visit st path d None) = None.
Proof.
  unfold visit, ListImages_visit. destruct d as [d|]; [|reflexivity].
  destruct (negb (entry_IsDir d) && (Dir path =? dirPath)); [|reflexivity].
  destruct (validExtensions _); reflexivity.
Qed.

Let walks (n : FsNode) : Prop :=
  forall (path : string) (d : DirEntry) (st : list string),
    (entry_IsDir d = true -> all_readable n = true) ->
    snd (walkDir visit path d n st) = None.

Lemma walkDir_entries_readable (entries : list FsNode) :
  Forall walks entries ->
  forall (path : string) (st : list string)
         (name : string) (isDir : bool) (stat : Result bool),
    all_readable (FsEntry name isDir stat (Ok entries)) = true ->
    snd (walkDir_entries visit path entries st) = None.
Proof.
  induction 1 as [|e rest He _ IH]; intros path st name isDir stat Hread;
    [reflexivity|].
  cbn [all_readable] in Hread. apply andb_true_iff in Hread.
  destruct Hread as [He' Hrest].
  cbn [walkDir_entries].
  pose proof (He (Join path (fs_name e))
                 {| entry_Name := fs_name e; entry_IsDir := fs_isDir e |} st) as Hstep.
  destruct (walkDir visit (Join path (fs_name e)) _ e st) as [st' [err|]].
  - simpl in Hstep. enough (Some err = None) by discriminate.
    apply Hstep. cbn [entry_IsDir]. intros Hd. rewrite Hd in He'. exact He'.
  - apply (IH path st' name isDir stat). exact Hrest.
Qed.

Lemma walkDir_readable (n : FsNode) : walks n.
Proof.
  induction n as [name isDir stat e|name isDir stat entries IH]
    using FsNode_forall_ind; intros path d st Hread; rewrite walkDir_unfold;
    pose proof (visit_no_error st path (Some d)) as Hv;
    destruct (visit st path (Some d) None) as [st1 [err|]];
    try discriminate Hv;
    (destruct (entry_IsDir d); [|reflexivity]); cbn [negb fs_readdir].
  - specialize (Hread eq_refl). discriminate.
  - eapply walkDir_entries_readable; [exact IH|]. apply Hread. reflexivity.
Qed.

(** *** When the walk fails *)

Let fails (n : FsNode) : Prop :=
  forall (path : string) (d : DirEntry) (st : list string),
    entry_IsDir d = true -> all_readable n = false ->
    exists e, snd (walkDir visit path d n st) = Some e.

Lemma walkDir_entries_unreadable (entries : list FsNode) :
  Forall fails entries ->
  forall (path : string) (st : list string)
         (name : string) (isDir : bool) (stat : Result bool),
    all_readable (FsEntry name isDir stat (Ok entries)) = false ->
    exists e, snd (walkDir_entries visit path entries st) = Some e.
Proof.
  induction 1 as [|e rest He _ IH]; intros path st name isDir stat Hread;
    [discriminate|].
  cbn [all_readable] in Hread. cbn [walkDir_entries].
  destruct (walkDir visit (Join path (fs_name e))
                    {| entry_Name := fs_name e; entry_IsDir := fs_isDir e |} e st)
    as [st' [err|]] eqn:Hw; [exists err; reflexivity|].
  apply andb_false_iff in Hread. destruct Hread as [Hread|Hread].
  - apply orb_false_iff in Hread. destruct Hread as [Hdir Hread].
    apply negb_false_iff in Hdir.
    destruct (He (Join path (fs_name e))
                 {| entry_Name := fs_name e; entry_IsDir := fs_isDir e |} st
                 Hdir Hread) as [err Herr].
    rewrite Hw in Herr. discriminate.
  - apply (IH path st' name isDir stat). exact Hread.
Qed.

Lemma walkDir_unreadable (n : FsNode) : fails n.
Proof.
  induction n as [name isDir stat e|name isDir stat entries IH]
    using FsNode_forall_ind; intros path d st Hd Hread; rewrite walkDir_unfold;
    pose proof (visit_no_error st path (Some d)) as Hv;
    destruct (visit st path (Some d) None) as [st1 [err|]];
    try discriminate Hv; rewrite Hd; cbn [negb fs_readdir].
  - exists e. reflexivity.
  - eapply walkDir_entries_unreadable; eassumption.
Qed.

Lemma ltb_asym (x y : string) : String.ltb x y = true -> String.ltb y x = false.
Proof.
  unfold String.ltb. rewrite (String.compare_antisym y x).
  destruct (String.compare x y); simpl; congruence.
Qed.

Lemma not_ltb_leb (x y : string) : String.ltb y x = false -> String.leb x y = true.
Proof.
  unfold String.ltb, String.leb. rewrite (String.compare_antisym y x).
  destruct (String.compare x y); simpl; congruence.
Qed.

Lemma Sorted_weaken (A : Type) (R R' : A -> A -> Prop) (l : list A) :
  (forall a b, R a b -> R' a b) -> Sorted R l -> Sorted R' l.
Proof.
  intros Himp. induction 1 as [|a l _ IH Hhd]; constructor; [assumption|].
  destruct Hhd; constructor; auto.
Qed.

Lemma Strings_sorted (l : list string) :
  Sorted (fun a b => String.leb a b = true) (GoSort.Strings l).
Proof.
  eapply Sorted_weaken; [|apply (@Slice_sorted _ String.ltb ltb_asym)].
  intros a b. apply not_ltb_leb.
Qed.

End ListImagesFacts.

Section ListImagesExamples.
Import App.
Existing Instance GoStrings.ascii_names.



(** The scenario of the specification: plain lexicographic order, not
    natural order. *)
Lemma ListImages_lexicographic :
  ListImages "/pics" Scenario.three_files
  = Ok ["/pics/file1.jpg"; "/pics/file10.jpg"; "/pics/file2.jpg"].
Proof. reflexivity. Qed.

(** Upper-case extensions and [.raf] are accepted; the text file and the
    image inside the subfolder are not returned. *)
Lemma ListImages_pictures :
  ListImages "/pics" Scenario.pictures
  = Ok ["/pics/IMG_7.PNG"; "/pics/file1.jpg"; "/pics/file10.jpg";
        "/pics/file2.jpg"; "/pics/raw.RAF"].
Proof. reflexivity. Qed.

(** The walk visits the whole subtree: a subdirectory that cannot be
    read makes [ListImages] fail for the directory above it. *)
Lemma ListImages_unreadable_below :
  ListImages "/albums" Scenario.albums = Err "permission denied".
Proof. reflexivity. Qed.

(** A directory path that is not clean matches none of its files. *)
Lemma ListImages_trailing_separator :
  ListImages "/pics/" Scenario.three_files = Ok [].
Proof. reflexivity. Qed.

(** The allow-list of the earlier revision has no [.raf]. *)
Lemma Earlier_no_raf :
  validExtensions ".raf" = true /\ Earlier.validExtensions ".raf" = false.
Proof. split; reflexivity. Qed.
End ListImagesExamples.

(** ** [ListImages] on any path and any file system *)
Section ListImagesAnywhere.
Import App GoStrings Filepath.
Context {go : Strings}.

Variable dirPath : string.

Let visit := ListImages_visit dirPath.

(** What the callback admits to the slice. *)
Let admitted (p : string) : Prop :=
  Dir p = dirPath /\ validExtensions (ToLower (Ext p)) = true.

Lemma visit_admits (st : list string) (path : string) (d : option DirEntry)
      (err : option string) :
  Forall admitted st -> Forall admitted (fst (visit st path d err)).
Proof.
  intros Hst. unfold visit, ListImages_visit.
  destruct err as [e|]; [exact Hst|].
  destruct d as [d|]; [|exact Hst].
  destruct (negb (entry_IsDir d) && (Dir path =? dirPath)) eqn:E; [|exact Hst].
  destruct (validExtensions (ToLower (Ext path))) eqn:Ev; [|exact Hst].
  cbn [fst]. apply Forall_app. split; [exact Hst|].
  constructor; [|constructor].
  apply andb_true_iff in E. destruct E as [_ E]. apply String.eqb_eq in E.
  split; assumption.
Qed.

Lemma walkDir_entries_admits (entries : list FsNode) :
  Forall (fun n => forall path d st,
              Forall admitted st ->
              Forall admitted (fst (walkDir visit path d n st))) entries ->
  forall path st,
    Forall admitted st ->
    Forall admitted (fst (walkDir_entries visit path entries st)).
Proof.
  induction 1 as [|e rest He _ IH]; intros path st Hst; [exact Hst|].
  cbn [walkDir_entries].
  pose proof (He (Join path (fs_name e))
                 {| entry_Name := fs_name e; entry_IsDir := fs_isDir e |} st Hst)
    as Hstep.
  destruct (walkDir visit (Join path (fs_name e)) _ e st) as [st' [err|]];
    [exact Hstep|].
  apply IH. exact Hstep.
Qed.

Lemma walkDir_admits (n : FsNode) (path : string) (d : DirEntry) (st : list string) :
  Forall admitted st -> Forall admitted (fst (walkDir visit path d n st)).
Proof.
  revert path d st.
  induction n as [name isDir stat e|name isDir stat entries IH]
    using FsNode_forall_ind; intros path d st Hst; rewrite walkDir_unfold;
    pose proof (@visit_admits st path (Some d) None Hst) as H1;
    destruct (visit st path (Some d) None) as [st1 [err|]]; try exact H1;
    (destruct (negb (entry_IsDir d)); [exact H1|]); cbn [fs_readdir].
  - pose proof (@visit_admits st1 path (Some d) (Some e) H1) as H2.
    destruct (visit st1 path (Some d) (Some e)) as [st2 [err|]]; exact H2.
  - apply walkDir_entries_admits; assumption.
Qed.

Lemma Forall_Permutation (A : Type) (P : A -> Prop) (l l' : list A) :
  Permutation l l' -> Forall P l -> Forall P l'.
Proof. intros Hp H. eapply Permutation_Forall; eassumption. Qed.

(** X1.  Whatever the file system holds and whatever path is asked for, a
    list that [ListImages] returns holds only paths whose directory, as
    [filepath.Dir] gives it, is the path asked for and whose lower-cased
    extension is on the allow-list, and it is in increasing byte-wise
    order. *)
Theorem ListImages_only_direct_images (n : FsNode) (l : list string) :
  ListImages dirPath n = Ok l ->
  Forall (fun p => Dir p = dirPath
                   /\ validExtensions (ToLower (Ext p)) = true) l
  /\ Sorted (fun a b => String.leb a b = true) l.
Proof.
  unfold ListImages, WalkDir. fold visit. intros Hl.
  assert (Hwalk : forall st err,
             (match fs_stat n with
              | Ok isDir =>
                  walkDir visit dirPath
                          {| entry_Name := Base dirPath; entry_IsDir := isDir |} n []
              | Err e => visit [] dirPath None (Some e)
              end) = (st, err) -> Forall admitted st).
  { intros st err Hw. destruct (fs_stat n) as [isDir|e].
    - pose proof (@walkDir_admits n dirPath
                    {| entry_Name := Base dirPath; entry_IsDir := isDir |} []
                    (Forall_nil _)) as H.
      rewrite Hw in H. exact H.
    - pose proof (@visit_admits [] dirPath None (Some e) (Forall_nil _)) as H.
      rewrite Hw in H. exact H. }
  destruct (match fs_stat n with
            | Ok isDir => _
            | Err e => _
            end) as [st [err|]] eqn:Hw; [discriminate|].
  injection Hl as <-. split.
  - eapply Forall_Permutation; [symmetry; apply Slice_perm|].
    exact (Hwalk st None eq_refl).
  - apply Strings_sorted.
Qed.

(** [filepath.Clean] gives a path it leaves alone. *)
Lemma Clean_idempotent (p : string) : Clean (Clean p) = Clean p.
Proof.
  unfold Clean at 2 3.
  apply Clean_render.
  apply (@clean_elems_output _ _ (split_sep_elems p) [] 0%nat);
    [constructor|reflexivity].
Qed.

Lemma Dir_clean (p : string) : Clean (Dir p) = Dir p.
Proof.
  unfold Dir. destruct (removelast (split_sep p)); apply Clean_idempotent.
Qed.

(** X2.  A path that is not in the form [filepath.Clean] gives, such as one
    with a separator at its end, matches the directory of no file:
    [ListImages] then returns no image, whatever the directory holds. *)
Theorem ListImages_unclean_path_lists_nothing (n : FsNode) (l : list string) :
  Clean dirPath <> dirPath ->
  ListImages dirPath n = Ok l ->
  l = [].
Proof.
  intros Hunclean Hl.
  assert (Hall : Forall admitted l).
  { unfold ListImages, WalkDir in Hl. fold visit in Hl.
    destruct (fs_stat n) as [isDir|e].
    - pose proof (@walkDir_admits n dirPath
                    {| entry_Name := Base dirPath; entry_IsDir := isDir |} []
                    (Forall_nil _)) as H.
      destruct (walkDir visit dirPath _ n []) as [st [err|]]; [discriminate|].
      injection Hl as <-.
      eapply Forall_Permutation; [symmetry; apply Slice_perm|exact H].
    - discriminate. }
  destruct l as [|p l]; [reflexivity|].
  inversion Hall as [|? ? Hp _]; subst. destruct Hp as [Hdir _].
  contradiction Hunclean. rewrite <- Hdir. apply Dir_clean.
Qed.

(** X3.  [filepath.WalkDir] descends into every subdirectory before the
    callback ever compares directories, and the callback hands every
    error back.  So for a directory that can be stat'ed, [ListImages]
    returns a list exactly when the directory and every directory below
    it, at any depth, can be read. *)
Theorem ListImages_succeeds_iff_all_readable (n : FsNode) :
  fs_stat n = Ok true ->
  (exists l, ListImages dirPath n = Ok l) <-> all_readable n = true.
Proof.
  intros Hstat. unfold ListImages, WalkDir. rewrite Hstat. fold visit.
  split.
  - intros [l Hl].
    destruct (all_readable n) eqn:Hread; [reflexivity|exfalso].
    destruct (@walkDir_unreadable _ dirPath n dirPath
                {| entry_Name := Base dirPath; entry_IsDir := true |} []
                eq_refl Hread) as [e He].
    fold visit in He.
    destruct (walkDir visit dirPath _ n []) as [st [err|]]; discriminate.
  - intros Hread.
    pose proof (@walkDir_readable _ dirPath n dirPath
                  {| entry_Name := Base dirPath; entry_IsDir := true |} []
                  (fun _ => Hread)) as Hnone.
    fold visit in Hnone.
    destruct (walkDir visit dirPath _ n []) as [st [err|]]; [discriminate|].
    eexists. reflexivity.
Qed.
End ListImagesAnywhere.


(** ** [ReadImage] *)
Section ReadImageFacts.
Import App GoStrings.
Context {go : Strings}.

(** C9.  For a path with extension [.raf] in any letter case, when
    [raw.ReadRAF] panics, [ReadImage] returns normally: the payload is
    empty, the error is set to the decode failure, and the failure is
    logged.  The panic does not leave the call. *)
Theorem ReadImage_raf_panic_contained (w : World) (filePath r : string) :
  ToLower (Filepath.Ext filePath) = ".raf" ->
  raw_ReadRAF w filePath = Panics r ->
  let errMsg := "panic occurred while decoding RAF file " ++ filePath ++ ": " ++ r in
  ReadImage w filePath = Returns (("", Some (fmt_Errorf w errMsg)), [errMsg]).
Proof.
  intros Hext Hpanic. unfold ReadImage.
  rewrite Hext, Hpanic. reflexivity.
Qed.


(** Outside the RAF branch no recovery is installed: a panic of the
    general decoder leaves [ReadImage]. *)
Lemma ReadImage_decode_panic_propagates (w : World) (filePath r : string) (f : File w) :
  ToLower (Filepath.Ext filePath) <> ".raf" ->
  os_Open w filePath = Ok f ->
  image_Decode w f = Panics r ->
  ReadImage w filePath = Panics r.
Proof.
  intros Hext Hopen Hdec. unfold ReadImage.
  apply String.eqb_neq in Hext. rewrite Hext, Hopen, Hdec. reflexivity.
Qed.
End ReadImageFacts.

Section ReadImageExamples.
Import App GoStrings.
Existing Instance GoStrings.ascii_names.

Lemma ReadImage_raf_panic_contained_witness :
  ReadImage Scenario.panicking_world "/pics/DSCF0001.RAF"
  = Returns (("", Some "panic occurred while decoding RAF file /pics/DSCF0001.RAF: runtime error: index out of range"),
             ["panic occurred while decoding RAF file /pics/DSCF0001.RAF: runtime error: index out of range"]).
Proof.
  apply (@ReadImage_raf_panic_contained _ Scenario.panicking_world
           "/pics/DSCF0001.RAF" "runtime error: index out of range");
    reflexivity.
Defined.

End ReadImageExamples.

(** ** [ReadImage]: the shape of its results *)
Section ReadImageResults.
Import App GoStrings.
Context {go : Strings}.

Local Arguments String.eqb : simpl never.

(** X4.  Whenever [ReadImage] returns, it returns either an error with an
    empty payload, or no error and a data URI: [data:], one of six MIME
    types, [;base64,] and the encoding of some bytes. *)
Theorem ReadImage_payload_or_error
        (w : World) (filePath enc : string) (err : option string)
        (log : list string) :
  ReadImage w filePath = Returns ((enc, err), log) ->
  match err with
  | Some _ => enc = ""
  | None =>
      exists mime data,
        enc = "data:" ++ mime ++ ";base64," ++ base64_EncodeToString w data
        /\ In mime ["image/jpeg"; "image/png"; "image/gif"; "image/bmp";
                    "image/webp"; "application/octet-stream"]
  end.
Proof.
  intros Hres.
  assert (Hshape :
            match ReadImage w filePath with
            | Returns ((enc, err), _) =>
                match err with
                | Some _ => enc = ""
                | None =>
                    exists mime data,
                      enc = "data:" ++ mime ++ ";base64,"
                            ++ base64_EncodeToString w data
                      /\ In mime ["image/jpeg"; "image/png"; "image/gif";
                                  "image/bmp"; "image/webp";
                                  "application/octet-stream"]
                end
            | Panics _ => True
            end).
  { assert (Huri : forall mime data,
               In mime ["image/jpeg"; "image/png"; "image/gif"; "image/bmp";
                        "image/webp"; "application/octet-stream"] ->
               exists mime' data',
                 "data:" ++ mime ++ ";base64," ++ base64_EncodeToString w data
                 = "data:" ++ mime' ++ ";base64," ++ base64_EncodeToString w data'
                 /\ In mime' ["image/jpeg"; "image/png"; "image/gif";
                              "image/bmp"; "image/webp";
                              "application/octet-stream"]).
    { intros mime data Hin. exists mime, data. split; [reflexivity|exact Hin]. }
    unfold ReadImage, with_recover.
    destruct (ToLower (Filepath.Ext filePath) =? ".raf").
    - destruct (raw_ReadRAF w filePath) as [[raf|]|r]; try reflexivity.
      destruct (String.length (Jpeg raf) =? 0)%nat; [reflexivity|].
      apply (Huri "image/jpeg"). simpl. tauto.
    - destruct (os_Open w filePath) as [file|e]; [|reflexivity].
      destruct (image_Decode w file) as [[[img formatName]|decodeErr]|r];
        [| |exact I].
      + destruct (png_Encode w img) as [buf|encodeErr]; [|reflexivity].
        apply (Huri "image/png"). simpl. tauto.
      + destruct (file_Seek w file) as [u|seekErr]; [|reflexivity].
        destruct (os_ReadFile w filePath) as [data|e]; [|reflexivity].
        cbv zeta beta.
        repeat match goal with
               | |- context [if ?c then _ else _] => destruct c
               end.
        * apply (Huri "image/jpeg"). simpl. tauto.
        * apply (Huri "image/png"). simpl. tauto.
        * apply (Huri "image/gif"). simpl. tauto.
        * apply (Huri "image/bmp"). simpl. tauto.
        * apply (Huri "image/webp"). simpl. tauto.
        * apply (Huri "application/octet-stream"). simpl. tauto. }
  rewrite Hres in Hshape. exact Hshape.
Qed.

(** X5.  On a path with the extension [.raf], in any letter case, [ReadImage]
    always returns: it succeeds exactly when [raw.ReadRAF] returns a RAF
    with a preview that is not empty, the payload then being that preview
    as a JPEG data URI, and it reports an error in every other case. *)
Theorem ReadImage_raf_always_returns (w : World) (filePath : string) :
  ToLower (Filepath.Ext filePath) = ".raf" ->
  exists enc err log,
    ReadImage w filePath = Returns ((enc, err), log)
    /\ (err = None <->
        exists raf, raw_ReadRAF w filePath = Returns (Some raf) /\ Jpeg raf <> "")
    /\ (forall raf, raw_ReadRAF w filePath = Returns (Some raf) ->
                    Jpeg raf <> "" ->
                    enc = "data:image/jpeg;base64,"
                          ++ base64_EncodeToString w (Jpeg raf)).
Proof.
  intros Hext. unfold ReadImage, with_recover. rewrite Hext.
  change (".raf" =? ".raf") with true. cbv iota.
  destruct (raw_ReadRAF w filePath) as [[raf|]|r].
  - destruct (Jpeg raf) as [|c rest] eqn:Hj; cbn [String.length Nat.eqb].
    + do 3 eexists. split; [reflexivity|]. split.
      * split; [discriminate|].
        intros (raf' & H & Hne). injection H as <-. contradiction.
      * intros raf' H Hne. injection H as <-. contradiction.
    + do 3 eexists. split; [reflexivity|]. split.
      * split; [|reflexivity]. intros _. exists raf. split; [reflexivity|].
        rewrite Hj. discriminate.
      * intros raf' H _. injection H as <-. now rewrite Hj.
  - do 3 eexists. split; [reflexivity|]. split.
    + split; [discriminate|]. intros (raf & H & _). discriminate.
    + intros raf H. discriminate.
  - do 3 eexists. split; [reflexivity|]. split.
    + split; [discriminate|]. intros (raf & H & _). discriminate.
    + intros raf H. discriminate.
Qed.
End ReadImageResults.

(** ** The natural order of the specification and [natsort.Compare] *)
Section NaturalOrderFacts.
Import NaturalOrder.

Local Arguments String.eqb : simpl never.

Lemma only_digit (r : string) : only digit r = Natsort.all_digits r.
Proof. induction r as [|c r IH]; [reflexivity|]. cbn. now rewrite IH. Qed.

Lemma value_decimal (acc : N) (r : string) :
  value_from acc r = Natsort.decimal_value acc r.
Proof. revert acc. induction r as [|c r IH]; intros acc; [reflexivity|apply IH]. Qed.

Lemma numeric_all_digits (r : string) :
  r <> "" -> (numeric r <-> Natsort.all_digits r = true).
Proof.
  intros Hne. unfold numeric. rewrite only_digit. tauto.
Qed.

Lemma numeric_head (c : ascii) (r : string) :
  numeric (String c r) -> digit c = true.
Proof. intros [_ H]. cbn in H. now apply andb_true_iff in H. Qed.

Lemma textual_head (c : ascii) (r : string) :
  textual (String c r) -> digit c = false.
Proof.
  intros [_ H]. cbn in H. apply andb_true_iff in H.
  now apply negb_true_iff.
Qed.

Lemma numeric_cons (c : ascii) (r : string) :
  digit c = true -> (r = "" \/ numeric r) -> numeric (String c r).
Proof.
  intros Hc Hr. split; [discriminate|]. cbn. rewrite Hc.
  destruct Hr as [->|[_ H]]; [reflexivity|exact H].
Qed.

Lemma textual_cons (c : ascii) (r : string) :
  digit c = false -> (r = "" \/ textual r) -> textual (String c r).
Proof.
  intros Hc Hr. split; [discriminate|]. cbn. rewrite Hc.
  destruct Hr as [->|[_ H]]; [reflexivity|exact H].
Qed.

Lemma numeric_tail (c : ascii) (r : string) :
  numeric (String c r) -> r = "" \/ numeric r.
Proof.
  intros [_ H]. cbn in H. apply andb_true_iff in H. destruct H as [_ H].
  destruct r; [now left|right]. split; [discriminate|exact H].
Qed.

Lemma textual_tail (c : ascii) (r : string) :
  textual (String c r) -> r = "" \/ textual r.
Proof.
  intros [_ H]. cbn in H. apply andb_true_iff in H. destruct H as [_ H].
  destruct r; [now left|right]. split; [discriminate|exact H].
Qed.

Lemma not_both (r : string) : numeric r -> textual r -> False.
Proof.
  destruct r as [|c r]; intros Hn Ht; [now destruct Hn|].
  apply numeric_head in Hn. apply textual_head in Ht. congruence.
Qed.

(** *** The runs are the chunks *)

Lemma chunkify_cons (c : ascii) (s : string) :
  Natsort.chunkify (String c s)
  = match Natsort.chunkify s with
    | String d ch :: chs =>
        if Bool.eqb (Natsort.is_digit c) (Natsort.is_digit d)
        then String c (String d ch) :: chs
        else String c EmptyString :: String d ch :: chs
    | chs => String c EmptyString :: chs
    end.
Proof. reflexivity. Qed.

(** A block of bytes of one kind put before a string that starts with
    a byte of the other kind is a chunk of its own. *)
Lemma chunkify_block (r : string) (d : ascii) (ch : string) (s : string)
      (chs : list string) :
  r <> "" ->
  only (fun c => Bool.eqb (Natsort.is_digit c) (negb (Natsort.is_digit d))) r = true ->
  Natsort.chunkify s = String d ch :: chs ->
  Natsort.chunkify (r ++ s) = r :: String d ch :: chs.
Proof.
  intros Hne Hkind Hs. induction r as [|c r IH]; [contradiction Hne; reflexivity|].
  cbn in Hkind. apply andb_true_iff in Hkind. destruct Hkind as [Hc Hr].
  apply Bool.eqb_prop in Hc.
  destruct r as [|c' r'].
  - change ((String c "" ++ s)%string) with (String c s).
    rewrite chunkify_cons, Hs, Hc. now destruct (Natsort.is_digit d).
  - specialize (IH ltac:(discriminate) Hr).
    change ((String c (String c' r') ++ s)%string)
      with (String c (String c' r' ++ s)%string).
    rewrite chunkify_cons, IH.
    cbn in Hr. apply andb_true_iff in Hr. destruct Hr as [Hc' _].
    apply Bool.eqb_prop in Hc'. rewrite Hc, Hc'.
    now destruct (Natsort.is_digit d).
Qed.

Lemma chunkify_last (r : string) (k : bool) :
  r <> "" ->
  only (fun c => Bool.eqb (Natsort.is_digit c) k) r = true ->
  Natsort.chunkify r = [r].
Proof.
  intros Hne Hkind. induction r as [|c r IH]; [contradiction Hne; reflexivity|].
  cbn in Hkind. apply andb_true_iff in Hkind. destruct Hkind as [Hc Hr].
  apply Bool.eqb_prop in Hc.
  destruct r as [|c' r']; [reflexivity|].
  specialize (IH ltac:(discriminate) Hr).
  rewrite chunkify_cons, IH.
  cbn in Hr. apply andb_true_iff in Hr. destruct Hr as [Hc' _].
  apply Bool.eqb_prop in Hc'. rewrite Hc, Hc'.
  now destruct k.
Qed.

Lemma only_ext (p q : ascii -> bool) (r : string) :
  (forall c, p c = q c) -> only p r = only q r.
Proof.
  intros H. induction r as [|c r IH]; [reflexivity|]. cbn. now rewrite H, IH.
Qed.

Lemma numeric_kind (r : string) (k : bool) :
  numeric r -> k = true ->
  only (fun c => Bool.eqb (Natsort.is_digit c) k) r = true.
Proof.
  intros [_ H] ->. etransitivity; [|exact H]. apply only_ext. intros c.
  change (digit c) with (Natsort.is_digit c). now destruct (Natsort.is_digit c).
Qed.

Lemma textual_kind (r : string) (k : bool) :
  textual r -> k = false ->
  only (fun c => Bool.eqb (Natsort.is_digit c) k) r = true.
Proof.
  intros [_ H] ->. etransitivity; [|exact H]. apply only_ext. intros c.
  change (digit c) with (Natsort.is_digit c). now destruct (Natsort.is_digit c).
Qed.

Lemma runs_head (s r : string) (rs : list string) :
  runs s (r :: rs) -> numeric r \/ textual r.
Proof. inversion 1; subst; tauto. Qed.

Theorem runs_chunkify (s : string) (rs : list string) :
  runs s rs -> Natsort.chunkify s = rs.
Proof.
  induction 1 as [|r Hr|r r' s rs Hn Ht Hs IH|r r' s rs Ht Hn Hs IH].
  - reflexivity.
  - destruct Hr as [Hr|Hr].
    + apply (@chunkify_last r true); [apply Hr|now apply numeric_kind].
    + apply (@chunkify_last r false); [apply Hr|now apply textual_kind].
  - destruct r' as [|d ch]; [now destruct Ht|].
    apply chunkify_block; [apply Hn| |exact IH].
    apply numeric_kind; [exact Hn|].
    apply textual_head in Ht. unfold digit in Ht. unfold Natsort.is_digit.
    now rewrite Ht.
  - destruct r' as [|d ch]; [now destruct Hn|].
    apply chunkify_block; [apply Ht| |exact IH].
    apply textual_kind; [exact Ht|].
    apply numeric_head in Hn. unfold digit in Hn. unfold Natsort.is_digit.
    now rewrite Hn.
Qed.

Lemma runs_cons_same (c : ascii) (s r : string) (rs : list string) :
  runs s (r :: rs) ->
  (numeric r -> digit c = true) -> (textual r -> digit c = false) ->
  runs (String c s) (String c r :: rs).
Proof.
  intros H Hn Ht.
  inversion H as [|r0 Hr|r0 r' s0 rs0 Hn0 Ht0 Hs0|r0 r' s0 rs0 Ht0 Hn0 Hs0]; subst.
  - apply runs_one. destruct Hr as [Hr|Hr].
    + left. apply numeric_cons; [now apply Hn|now right].
    + right. apply textual_cons; [now apply Ht|now right].
  - change (String c (r ++ s0)%string) with ((String c r ++ s0)%string).
    apply runs_numeric; [|assumption|assumption].
    apply numeric_cons; [now apply Hn|now right].
  - change (String c (r ++ s0)%string) with ((String c r ++ s0)%string).
    apply runs_textual; [|assumption|assumption].
    apply textual_cons; [now apply Ht|now right].
Qed.

Lemma runs_cons_other (c : ascii) (s r : string) (rs : list string) :
  runs s (r :: rs) ->
  (numeric r -> digit c = false) -> (textual r -> digit c = true) ->
  runs (String c s) (String c "" :: r :: rs).
Proof.
  intros H Hn Ht.
  change (String c s) with ((String c "" ++ s)%string).
  destruct (runs_head H) as [Hr|Hr].
  - apply runs_textual; [|assumption|assumption].
    apply textual_cons; [now apply Hn|now left].
  - apply runs_numeric; [|assumption|assumption].
    apply numeric_cons; [now apply Ht|now left].
Qed.

Lemma runs_nil (s : string) : runs s [] -> s = "".
Proof. now inversion 1. Qed.

Theorem chunkify_runs (s : string) : runs s (Natsort.chunkify s).
Proof.
  induction s as [|c s IH]; [constructor|].
  rewrite chunkify_cons.
  destruct (Natsort.chunkify s) as [|[|d ch] chs] eqn:E.
  - apply runs_nil in IH. subst s. apply runs_one.
    destruct (digit c) eqn:Hc.
    + left. apply numeric_cons; [exact Hc|now left].
    + right. apply textual_cons; [exact Hc|now left].
  - destruct (runs_head IH) as [[C _]|[C _]]; contradiction C; reflexivity.
  - assert (Hd : Natsort.is_digit d = digit d) by reflexivity.
    assert (Hc : Natsort.is_digit c = digit c) by reflexivity.
    rewrite Hc, Hd.
    destruct (Bool.eqb (digit c) (digit d)) eqn:Ek.
    + apply Bool.eqb_prop in Ek. apply runs_cons_same; [exact IH| |].
      * intros Hn. apply numeric_head in Hn. congruence.
      * intros Ht. apply textual_head in Ht. congruence.
    + apply Bool.eqb_false_iff in Ek. apply runs_cons_other; [exact IH| |].
      * intros Hn. apply numeric_head in Hn. destruct (digit c); congruence.
      * intros Ht. apply textual_head in Ht. destruct (digit c); congruence.
Qed.

Lemma runs_nonempty (s : string) (rs : list string) :
  runs s rs -> Forall (fun r => r <> "") rs.
Proof.
  induction 1 as [|r Hr|r r' s rs Hn Ht Hs IH|r r' s rs Ht Hn Hs IH].
  - constructor.
  - constructor; [|constructor]. destruct Hr as [Hr|Hr]; apply Hr.
  - constructor; [apply Hn|exact IH].
  - constructor; [apply Ht|exact IH].
Qed.

(** *** The order on runs is the comparison of chunks *)

Lemma compare_same (x : string) : String.compare x x = Eq.
Proof.
  pose proof (String.compare_antisym x x) as H.
  destruct (String.compare x x); [reflexivity|discriminate|discriminate].
Qed.

Lemma both_numeric (x y : string) :
  x <> "" -> y <> "" ->
  (numeric x /\ numeric y
   <-> Natsort.all_digits x && Natsort.all_digits y = true).
Proof.
  intros Hx Hy. rewrite andb_true_iff.
  rewrite (numeric_all_digits Hx), (numeric_all_digits Hy). tauto.
Qed.

Lemma compare_chunk_value (x y : string) :
  numeric x -> numeric y ->
  Natsort.compare_chunk x y = N.compare (value x) (value y).
Proof.
  intros Hx Hy. unfold Natsort.compare_chunk, value.
  rewrite (proj1 (both_numeric (proj1 Hx) (proj1 Hy)) (conj Hx Hy)).
  now rewrite <- !value_decimal.
Qed.

Lemma compare_chunk_bytes (x y : string) :
  x <> "" -> y <> "" -> ~ (numeric x /\ numeric y) ->
  Natsort.compare_chunk x y = String.compare x y.
Proof.
  intros Hx Hy Hn. unfold Natsort.compare_chunk.
  destruct (Natsort.all_digits x && Natsort.all_digits y) eqn:E; [|reflexivity].
  exfalso. apply Hn. now apply both_numeric.
Qed.

Lemma numeric_dec (x y : string) :
  x <> "" -> y <> "" -> (numeric x /\ numeric y) \/ ~ (numeric x /\ numeric y).
Proof.
  intros Hx Hy.
  destruct (Natsort.all_digits x && Natsort.all_digits y) eqn:E.
  - left. now apply both_numeric.
  - right. intros H. apply both_numeric in H; [congruence|assumption|assumption].
Qed.

Theorem runs_before_compare (xs ys : list string) :
  Forall (fun r => r <> "") xs -> Forall (fun r => r <> "") ys ->
  (runs_before xs ys <-> Natsort.compare_chunks xs ys = Lt).
Proof.
  intros Hxs Hys. split.
  - intros H. induction H as [y ys|x y xs ys Hx Hy Hv|x y xs ys Hn Hb
                             |x y xs ys Hsame Hrest IH].
    + reflexivity.
    + cbn. rewrite (compare_chunk_value Hx Hy).
      apply N.compare_lt_iff in Hv. now rewrite Hv.
    + inversion Hxs; inversion Hys; subst. cbn.
      rewrite compare_chunk_bytes by assumption.
      unfold String.ltb in Hb. now destruct (String.compare x y).
    + inversion Hxs; inversion Hys; subst. cbn.
      assert (E : Natsort.compare_chunk x y = Eq).
      { destruct Hsame as [(Hx & Hy & Hv)|[Hn ->]].
        - rewrite (compare_chunk_value Hx Hy), Hv. apply N.compare_refl.
        - rewrite compare_chunk_bytes by assumption. apply compare_same. }
      rewrite E. now apply IH.
  - revert ys Hys. induction xs as [|x xs IH]; intros [|y ys] Hys H;
      cbn in H; try discriminate.
    + constructor.
    + inversion Hxs as [|? ? Hx Hxs']; inversion Hys as [|? ? Hy Hys']; subst.
      destruct (numeric_dec Hx Hy) as [[Nx Ny]|Hn].
      * rewrite (compare_chunk_value Nx Ny) in H.
        destruct (N.compare (value x) (value y)) eqn:E; try discriminate.
        -- apply before_later; [|now apply IH].
           left. apply N.compare_eq_iff in E. tauto.
        -- apply before_value; [assumption|assumption|].
           now apply N.compare_lt_iff.
      * rewrite (compare_chunk_bytes Hx Hy Hn) in H.
        destruct (String.compare x y) eqn:E; try discriminate.
        -- apply before_later; [|now apply IH].
           right. split; [exact Hn|]. now apply String.compare_eq_iff.
        -- apply before_bytes; [exact Hn|]. unfold String.ltb. now rewrite E.
Qed.

(** [natsort.Compare], as modelled, is the natural order of the
    specification. *)
Theorem before_Compare (a b : string) :
  before a b <-> Natsort.Compare a b = true.
Proof.
  unfold Natsort.Compare. split.
  - intros (ra & rb & Ha & Hb & Hlt).
    rewrite (runs_chunkify Ha), (runs_chunkify Hb).
    apply runs_before_compare in Hlt;
      [now rewrite Hlt|eapply runs_nonempty; eassumption
       |eapply runs_nonempty; eassumption].
  - intros H. exists (Natsort.chunkify a), (Natsort.chunkify b).
    split; [apply chunkify_runs|]. split; [apply chunkify_runs|].
    apply runs_before_compare;
      [eapply runs_nonempty; apply chunkify_runs
      |eapply runs_nonempty; apply chunkify_runs|].
    now destruct (Natsort.compare_chunks _ _).
Qed.

End NaturalOrderFacts.

(** ** [ListSubfolders] *)
Section ListSubfoldersFacts.
Import App GoStrings.
Context {go : Strings}.

Lemma ListSubfolders_readable (basePath name : string) (isDir : bool)
      (entries : list FsNode) :
  ListSubfolders basePath (FsEntry name isDir (Ok true) (Ok entries))
  = let '(children, log) := subfolder_loop basePath entries in
    (Ok (mkFolder (Filepath.Base basePath) basePath
                  (GoSort.Slice children_less children)), log).
Proof.
  cbn [ListSubfolders].
  match goal with
  | |- (let '(_, _) := ?each entries in _) = _ =>
      assert (Heach : forall es, each es = subfolder_loop basePath es)
  end.
  { induction es as [|entry rest IH]; [reflexivity|].
    cbn [subfolder_loop]. rewrite <- IH. reflexivity. }
  rewrite Heach. reflexivity.
Qed.

Lemma subfolder_loop_children (basePath : string) (entries : list FsNode) :
  fst (subfolder_loop basePath entries) = listed_subfolders basePath entries.
Proof.
  induction entries as [|entry rest IH]; simpl; [reflexivity|].
  destruct (fs_isDir entry); simpl; [|exact IH].
  destruct (HasPrefix (fs_name entry) "."); simpl; [exact IH|].
  destruct (ListSubfolders (Filepath.Join basePath (fs_name entry)) entry)
    as [[childNode|err] lg]; simpl;
    destruct (subfolder_loop basePath rest) as [children log]; simpl in *;
    now rewrite IH.
Qed.

Lemma subfolder_loop_log (basePath : string) (entries : list FsNode)
      (entry : FsNode) (err : string) :
  In entry entries ->
  fs_isDir entry = true ->
  HasPrefix (fs_name entry) "." = false ->
  fst (ListSubfolders (Filepath.Join basePath (fs_name entry)) entry) = Err err ->
  In ("Error processing subdirectory " ++ Filepath.Join basePath (fs_name entry)
      ++ ": " ++ err)
     (snd (subfolder_loop basePath entries)).
Proof.
  intros Hin Hdir Hvis Herr.
  induction entries as [|e rest IH]; simpl; [contradiction|].
  destruct Hin as [->|Hin].
  - rewrite Hdir, Hvis.
    destruct (ListSubfolders (Filepath.Join basePath (fs_name entry)) entry)
      as [[childNode|err'] lg]; simpl in Herr; [discriminate|].
    injection Herr as ->.
    destruct (subfolder_loop basePath rest) as [children log]; simpl.
    apply in_or_app. right. left. reflexivity.
  - specialize (IH Hin).
    destruct (fs_isDir e); [|exact IH].
    destruct (HasPrefix (fs_name e) "."); [exact IH|].
    destruct (ListSubfolders (Filepath.Join basePath (fs_name e)) e)
      as [[childNode|err'] lg];
      destruct (subfolder_loop basePath rest) as [children log]; simpl in *.
    + apply in_or_app. now right.
    + apply in_or_app. right. now right.
Qed.

(** C4, as the code has it.  [ListSubfolders] fails exactly when the
    root cannot be stat'ed or is not a directory.  When the entries of a
    directory cannot be read, the root included, the failure is only
    logged and the directory is returned as a node without children.
    When they can be read, the children are the nodes of the listed
    subdirectories whose own call succeeds; a subdirectory whose call
    fails is left out, its failure logged, and its siblings are kept. *)
Theorem ListSubfolders_failure_policy (basePath : string) (n : FsNode) :
  (fs_stat n <> Ok true ->
   exists err, ListSubfolders basePath n = (Err err, []))
  /\ (forall e, fs_stat n = Ok true -> fs_readdir n = Err e ->
      ListSubfolders basePath n
      = (Ok (mkFolder (Filepath.Base basePath) basePath []),
         ["Error reading directory " ++ basePath ++ ": " ++ e]))
  /\ (forall entries, fs_stat n = Ok true -> fs_readdir n = Ok entries ->
      exists children log,
        ListSubfolders basePath n
        = (Ok (mkFolder (Filepath.Base basePath) basePath children), log)
        /\ Permutation children (listed_subfolders basePath entries)
        /\ forall entry err,
            In entry entries ->
            fs_isDir entry = true ->
            HasPrefix (fs_name entry) "." = false ->
            fst (ListSubfolders (Filepath.Join basePath (fs_name entry)) entry)
            = Err err ->
            In ("Error processing subdirectory "
                ++ Filepath.Join basePath (fs_name entry) ++ ": " ++ err) log).
Proof.
  destruct n as [name isDir stat readdir]; simpl fs_stat; simpl fs_readdir.
  split; [|split].
  - intros Hstat. destruct stat as [[|]|e]; simpl.
    + contradiction Hstat; reflexivity.
    + eexists; reflexivity.
    + eexists; reflexivity.
  - intros e -> ->. reflexivity.
  - intros entries -> ->. rewrite ListSubfolders_readable.
    pose proof (subfolder_loop_children basePath entries) as Hc.
    pose proof (subfolder_loop_log basePath entries) as Hl.
    destruct (subfolder_loop basePath entries) as [children log]; simpl in *.
    exists (GoSort.Slice children_less children), log.
    split; [reflexivity|]. split.
    + rewrite <- Hc. apply Slice_perm.
    + exact Hl.
Qed.




(** *** Natural order of the children *)

Lemma compare_chunk_antisym (x y : string) :
  Natsort.compare_chunk x y = CompOpp (Natsort.compare_chunk y x).
Proof.
  unfold Natsort.compare_chunk. rewrite (andb_comm (Natsort.all_digits y)).
  destruct (Natsort.all_digits x && Natsort.all_digits y).
  - apply N.compare_antisym.
  - apply String.compare_antisym.
Qed.

Lemma compare_chunks_antisym (a b : list string) :
  Natsort.compare_chunks a b = CompOpp (Natsort.compare_chunks b a).
Proof.
  revert b; induction a as [|x a IH]; intros [|y b]; simpl; try reflexivity.
  rewrite (compare_chunk_antisym x y).
  destruct (Natsort.compare_chunk y x); simpl; auto.
Qed.

Lemma Compare_asym (a b : string) :
  Natsort.Compare a b = true -> Natsort.Compare b a = false.
Proof.
  unfold Natsort.Compare.
  rewrite (compare_chunks_antisym (Natsort.chunkify b) (Natsort.chunkify a)).
  destruct (Natsort.compare_chunks (Natsort.chunkify a) (Natsort.chunkify b));
    simpl; congruence.
Qed.

Lemma children_less_asym (a b : Folder) :
  children_less a b = true -> children_less b a = false.
Proof. apply Compare_asym. Qed.

Lemma listed_subfolders_forall (P : Folder -> Prop) (basePath : string)
      (entries : list FsNode) :
  Forall (fun e => forall bp root log,
              ListSubfolders bp e = (Ok root, log) -> P root) entries ->
  Forall P (listed_subfolders basePath entries).
Proof.
  induction 1 as [|e rest He _ IH]; simpl; [constructor|].
  apply Forall_app. split; [|exact IH].
  destruct (fs_isDir e && negb (HasPrefix (fs_name e) ".")); [|constructor].
  destruct (ListSubfolders (Filepath.Join basePath (fs_name e)) e)
    as [[childNode|err] lg] eqn:Hc; simpl; constructor; [|constructor].
  eapply He, Hc.
Qed.

(** C5.  In every tree [ListSubfolders] returns, the children of every
    node are sorted by case-insensitive natural order of name: no child
    comes, in the natural order of the specification applied to the
    names in lower case, before the child that precedes it.  Numeric runs
    compare by value: a sibling whose name reads "img2" in lower case
    comes before one whose name reads "img10", and the two come out as
    [img2, img10] whichever way the directory listing has them. *)
Theorem ListSubfolders_children_natural_order
        (basePath : string) (n : FsNode) (root : Folder) (log : list string) :
  ListSubfolders basePath n = (Ok root, log) ->
  naturally_ordered root
  /\ forall a b, ToLower (Name a) = "img2" -> ToLower (Name b) = "img10" ->
                 natural_before a b
                 /\ GoSort.Slice children_less [a; b] = [a; b]
                 /\ GoSort.Slice children_less [b; a] = [a; b].
Proof.
  intros Hres. split.
  - revert basePath root log Hres.
    induction n as [name isDir stat e|name isDir stat entries IH]
      using FsNode_forall_ind; intros basePath root log Hres.
    + destruct stat as [[|]|e']; simpl in Hres; try discriminate.
      injection Hres as <- _. constructor; constructor.
    + destruct stat as [[|]|e']; try (simpl in Hres; discriminate).
      rewrite ListSubfolders_readable in Hres.
      pose proof (subfolder_loop_children basePath entries) as Hc.
      destruct (subfolder_loop basePath entries) as [children lg]; simpl in Hc.
      injection Hres as <- _. constructor.
      * eapply Sorted_weaken;
          [|apply (@Slice_sorted _ children_less children_less_asym)].
        intros a b Hab Hbefore. apply before_Compare in Hbefore.
        unfold children_less in Hab. congruence.
      * eapply Permutation_Forall; [symmetry; apply Slice_perm|].
        rewrite Hc. apply listed_subfolders_forall. exact IH.
  - intros a b Ha Hb.
    assert (Hbefore : natural_before a b).
    { unfold natural_before. rewrite Ha, Hb.
      exists ["img"; "2"], ["img"; "10"].
      assert (Htext : NaturalOrder.textual "img") by (split; [discriminate|reflexivity]).
      assert (H2 : NaturalOrder.numeric "2") by (split; [discriminate|reflexivity]).
      assert (H10 : NaturalOrder.numeric "10") by (split; [discriminate|reflexivity]).
      split; [|split].
      - apply (@NaturalOrder.runs_textual "img" "2" "2" []);
          [assumption|assumption|]. apply NaturalOrder.runs_one. now left.
      - apply (@NaturalOrder.runs_textual "img" "10" "10" []);
          [assumption|assumption|]. apply NaturalOrder.runs_one. now left.
      - apply NaturalOrder.before_later.
        + right. split; [|reflexivity]. intros [C _].
          exact (not_both C Htext).
        + apply NaturalOrder.before_value; [assumption|assumption|reflexivity]. }
    assert (Hab : children_less a b = true).
    { apply before_Compare. exact Hbefore. }
    pose proof (children_less_asym _ _ Hab) as Hba.
    split; [exact Hbefore|].
    unfold GoSort.Slice. cbn [fold_left GoSort.sift]. rewrite Hab, Hba.
    split; reflexivity.
Qed.
End ListSubfoldersFacts.

Section ListSubfoldersExamples.
Import App GoStrings.
Existing Instance GoStrings.ascii_names.

Lemma ListSubfolders_failure_policy_witness :
  (exists err, ListSubfolders "/albums/private"
                 (FsEntry "private" true (Err "permission denied")
                          (Err "permission denied")) = (Err err, []))
  /\ ListSubfolders "/albums" Scenario.unreadable_root
     = (Ok (mkFolder "albums" "/albums" []),
        ["Error reading directory /albums: permission denied"])
  /\ exists children log,
      ListSubfolders "/albums" Scenario.albums
      = (Ok (mkFolder "albums" "/albums" children), log)
      /\ Permutation children
           (listed_subfolders "/albums"
              (match fs_readdir Scenario.albums with Ok es => es | Err _ => [] end)).
Proof.
  split; [|split].
  - apply (proj1 (ListSubfolders_failure_policy "/albums/private" _)).
    simpl. discriminate.
  - apply (proj1 (proj2 (ListSubfolders_failure_policy "/albums" Scenario.unreadable_root)));
      reflexivity.
  - destruct (proj2 (proj2 (ListSubfolders_failure_policy "/albums" Scenario.albums))
                _ eq_refl eq_refl) as (children & log & H1 & H2 & _).
    exists children, log. split; assumption.
Defined.

(** C4, as the claim states it, fails: the entries of this root cannot
    be read, and [ListSubfolders] returns a node and no error. *)
Lemma ListSubfolders_unreadable_root_not_fatal :
  fs_readdir Scenario.unreadable_root = Err "permission denied"
  /\ ListSubfolders "/albums" Scenario.unreadable_root
     = (Ok (mkFolder "albums" "/albums" []),
        ["Error reading directory /albums: permission denied"])
  /\ ~ (exists err, fst (ListSubfolders "/albums" Scenario.unreadable_root) = Err err).
Proof.
  split; [reflexivity|]. split; [reflexivity|].
  intros [err H]. discriminate H.
Qed.

(** A subdirectory that cannot be read is not left out either: it stays
    in the tree as a node without children. *)
Lemma ListSubfolders_unreadable_subdirectory_kept :
  fst (ListSubfolders "/albums" Scenario.albums)
  = Ok (mkFolder "albums" "/albums"
          [ mkFolder "img2" "/albums/img2" [mkFolder "raw" "/albums/img2/raw" []];
            mkFolder "img10" "/albums/img10" [];
            mkFolder "locked" "/albums/locked" [] ]).
Proof. reflexivity. Qed.

Lemma ListSubfolders_children_natural_order_witness :
  naturally_ordered
    (mkFolder "albums" "/albums"
       [ mkFolder "img2" "/albums/img2" [mkFolder "raw" "/albums/img2/raw" []];
         mkFolder "img10" "/albums/img10" [];
         mkFolder "locked" "/albums/locked" [] ]).
Proof.
  refine (proj1 (@ListSubfolders_children_natural_order _
                   "/albums" Scenario.albums _ _ _)).
  reflexivity.
Defined.

(** The earlier revision compares the lower-cased names byte by byte,
    which puts "img10" before "img2". *)
Lemma Earlier_children_order :
  GoSort.Slice Earlier.children_less
    [mkFolder "img2" "/albums/img2" []; mkFolder "img10" "/albums/img10" []]
  = [mkFolder "img10" "/albums/img10" []; mkFolder "img2" "/albums/img2" []].
Proof. reflexivity. Qed.

End ListSubfoldersExamples.

(** ** The paths and names in the tree of [ListSubfolders] *)
Section FolderInduction.
Import App.

Lemma Folder_forall_ind (P : Folder -> Prop) :
  (forall name path children,
      Forall P children -> P (mkFolder name path children)) ->
  forall f, P f.
Proof.
  intros Hnode. fix IH 1. intros [name path children].
  apply Hnode.
  exact ((fix each (cs : list Folder) : Forall P cs :=
            match cs with
            | [] => Forall_nil P
            | c :: rest => Forall_cons c (IH c) (each rest)
            end) children).
Qed.

Lemma descendants_unfold (name path : string) (children : list Folder) :
  descendants (mkFolder name path children)
  = flat_map (fun c => c :: descendants c) children.
Proof.
  cbn [descendants].
  induction children as [|c rest IH]; [reflexivity|].
  cbn [flat_map app]. now rewrite <- IH.
Qed.
End FolderInduction.

Section TreePaths.
Import App GoStrings Filepath.
Context {go : Strings}.

Local Arguments Ascii.eqb : simpl never.
Local Arguments String.eqb : simpl never.

Lemma last_nonempty_snoc (cs : list string) (n : string) (acc : option string) :
  n <> "" -> last_nonempty (cs ++ [n]) acc = Some n.
Proof.
  intros Hn. revert acc. induction cs as [|c cs IH]; intros acc; cbn [app last_nonempty].
  - apply String.eqb_neq in Hn. now rewrite Hn.
  - apply IH.
Qed.

Lemma Base_render (rooted : bool) (cs : list string) (n : string) :
  normal_elems rooted cs -> valid_name n = true ->
  Base (render rooted (cs ++ [n])) = n.
Proof.
  intros Hcs Hn.
  pose proof (@normal_elems_snoc _ _ n Hcs Hn) as Hnorm.
  destruct (render_nonempty Hnorm) as (a & rest & Hr & _).
  unfold Base.
  assert (E : (render rooted (cs ++ [n]) =? "") = false)
    by (rewrite Hr; reflexivity).
  rewrite E, split_render by (assumption || now destruct cs).
  apply valid_name_inv in Hn. destruct Hn as (Hne & _).
  destruct rooted.
  - change ("" :: cs ++ [n])%list with (("" :: cs) ++ [n])%list.
    now rewrite last_nonempty_snoc.
  - now rewrite last_nonempty_snoc.
Qed.

(** Joining a valid name to any path gives the rendering of clean
    elements that end in the name. *)
Lemma Join_repr (b n : string) :
  valid_name n = true ->
  exists rooted cs,
    normal_elems rooted cs /\ Join b n = render rooted (cs ++ [n]).
Proof.
  intros Hn. pose proof (valid_name_inv _ Hn) as (Hne & _ & _ & Hsf).
  unfold Join. destruct (b =? "") eqn:Hb; cbn [negb].
  - apply String.eqb_neq in Hne. rewrite Hne. cbn [negb].
    exists (String.prefix "/" n), [].
    split.
    + exists 0%nat, []. repeat split; auto.
    + unfold Clean. rewrite split_sep_slash_free by assumption.
      now rewrite clean_elems_plain by assumption.
  - exists (String.prefix "/" (b ++ "/" ++ n)),
           (clean_elems (String.prefix "/" (b ++ "/" ++ n)) [] (split_sep b)).
    split.
    + apply (@clean_elems_output _ _ (split_sep_elems b) [] 0%nat);
        [constructor|reflexivity].
    + unfold Clean. rewrite split_sep_app.
      rewrite (@split_sep_slash_free n) by assumption.
      now rewrite clean_elems_snoc by assumption.
Qed.

(** The name [filepath.Base] reads off a joined path is the name that
    was joined. *)
Lemma Base_Join (b n : string) : valid_name n = true -> Base (Join b n) = n.
Proof.
  intros Hn. destruct (@Join_repr b n Hn) as (rooted & cs & Hcs & ->).
  now apply Base_render.
Qed.

Lemma ListSubfolders_root (basePath : string) (n : FsNode) (root : Folder)
      (log : list string) :
  ListSubfolders basePath n = (Ok root, log) ->
  Name root = Base basePath /\ Path root = basePath.
Proof.
  destruct n as [name isDir [[|]|e] [entries|e']]; try (simpl; discriminate).
  - rewrite ListSubfolders_readable.
    destruct (subfolder_loop basePath entries) as [children lg].
    intros H. injection H as <- _. split; reflexivity.
  - simpl. intros H. injection H as <- _. split; reflexivity.
Qed.

Lemma valid_entries_each (name : string) (isDir : bool) (stat : Result bool)
      (entries : list FsNode) :
  valid_entries (FsEntry name isDir stat (Ok entries)) = true ->
  Forall (fun e => valid_name (fs_name e) = true /\ valid_entries e = true) entries.
Proof.
  induction entries as [|e rest IH]; intros H; [constructor|].
  apply valid_entries_cons in H. destruct H as (H1 & H2 & H3).
  constructor; [split; assumption|apply IH; assumption].
Qed.

Lemma listed_subfolders_joined (basePath : string) (entries : list FsNode) :
  Forall (fun e => valid_name (fs_name e) = true /\ valid_entries e = true) entries ->
  Forall (fun e => forall bp root log,
              valid_entries e = true ->
              ListSubfolders bp e = (Ok root, log) -> paths_joined root) entries ->
  Forall (fun c => valid_name (Name c) = true
                   /\ HasPrefix (Name c) "." = false
                   /\ Path c = Join basePath (Name c))
         (listed_subfolders basePath entries)
  /\ Forall paths_joined (listed_subfolders basePath entries).
Proof.
  induction 1 as [|e rest [Hname Hve] _ IH]; intros Hrec;
    [split; constructor|].
  inversion Hrec as [|? ? He Hrest]; subst.
  destruct (IH Hrest) as [IH1 IH2]. clear IH.
  cbn [listed_subfolders flat_map].
  fold (listed_subfolders basePath rest).
  destruct (fs_isDir e && negb (HasPrefix (fs_name e) ".")) eqn:Hvis;
    [|split; assumption].
  destruct (ListSubfolders (Join basePath (fs_name e)) e) as [[child|err] lg] eqn:Hc;
    cbn [fst app]; [|split; assumption].
  destruct (@ListSubfolders_root _ _ _ _ Hc) as [Hn Hp].
  rewrite Base_Join in Hn by assumption.
  apply andb_true_iff in Hvis. destruct Hvis as [_ Hvis].
  apply negb_true_iff in Hvis.
  split; constructor; try assumption.
  - rewrite Hn. repeat split; assumption.
  - eapply He; eassumption.
Qed.

Lemma ListSubfolders_joined (n : FsNode) :
  forall (basePath : string) (root : Folder) (log : list string),
    valid_entries n = true ->
    ListSubfolders basePath n = (Ok root, log) ->
    paths_joined root.
Proof.
  induction n as [name isDir stat e|name isDir stat entries IH]
    using FsNode_forall_ind; intros basePath root log Hvalid Hres.
  - destruct stat as [[|]|e']; simpl in Hres; try discriminate.
    injection Hres as <- _. constructor; constructor.
  - destruct stat as [[|]|e']; try (simpl in Hres; discriminate).
    rewrite ListSubfolders_readable in Hres.
    pose proof (subfolder_loop_children basePath entries) as Hc.
    destruct (subfolder_loop basePath entries) as [children lg]; simpl in Hc.
    injection Hres as <- _.
    destruct (@listed_subfolders_joined basePath entries
                (@valid_entries_each _ _ _ _ Hvalid) IH) as [H1 H2].
    rewrite <- Hc in H1, H2.
    constructor; (eapply Permutation_Forall; [symmetry; apply Slice_perm|]);
      assumption.
Qed.

Lemma paths_joined_descendants (f : Folder) :
  paths_joined f ->
  Forall (fun c => valid_name (Name c) = true /\ HasPrefix (Name c) "." = false)
         (descendants f)
  /\ Forall (fun g => Forall (fun c => Path c = Join (Path g) (Name c)) (Children g))
            (f :: descendants f).
Proof.
  induction f as [name path children IH] using Folder_forall_ind.
  intros Hj. inversion Hj as [? ? ? Hch Hsub]; subst.
  rewrite descendants_unfold.
  assert (Hhere : Forall (fun c => Path c = Join path (Name c)) children).
  { eapply Forall_impl; [|exact Hch]. intros c (_ & _ & H). exact H. }
  assert (Hbelow :
            Forall (fun c => valid_name (Name c) = true /\ HasPrefix (Name c) "." = false)
                   (flat_map (fun c => c :: descendants c) children)
            /\ Forall (fun g => Forall (fun c => Path c = Join (Path g) (Name c))
                                       (Children g))
                      (flat_map (fun c => c :: descendants c) children)).
  { clear Hj Hhere.
    induction children as [|c rest IHrest]; [split; constructor|].
    inversion IH as [|? ? IHc IHr]; subst.
    inversion Hch as [|? ? (Hv & Hh & _) Hch']; subst.
    inversion Hsub as [|? ? Hjc Hsub']; subst.
    destruct (IHc Hjc) as [A1 A2].
    destruct (IHrest IHr Hch' Hsub') as [B1 B2].
    cbn [flat_map]. split.
    - constructor; [split; assumption|]. apply Forall_app. split; assumption.
    - inversion A2 as [|? ? A2h A2t]; subst.
      constructor; [exact A2h|]. apply Forall_app. split; assumption. }
  destruct Hbelow as [B1 B2]. split; [exact B1|].
  constructor; [exact Hhere|exact B2].
Qed.

(** X6.  No hidden directory gets into the tree, at any depth: in a tree
    [ListSubfolders] returns for a file system with valid entry names,
    no node below the root has a name that starts with a dot.  (The root
    is the directory that was asked for, whatever its name.) *)
Theorem ListSubfolders_hides_dot_directories
        (basePath : string) (n : FsNode) (root : Folder) (log : list string) :
  valid_entries n = true ->
  ListSubfolders basePath n = (Ok root, log) ->
  Forall (fun c => HasPrefix (Name c) "." = false) (descendants root).
Proof.
  intros Hvalid Hres.
  pose proof (@ListSubfolders_joined _ _ _ _ Hvalid Hres) as Hj.
  apply paths_joined_descendants in Hj. destruct Hj as [Hj _].
  eapply Forall_impl; [|exact Hj]. intros c [_ H]. exact H.
Qed.

(** X7.  The paths of the tree follow its shape: the root has the path that
    was asked for, as given, and its last element as name; every other
    node has the path [filepath.Join] gives for its name below the path
    of its parent. *)
Theorem ListSubfolders_paths_follow_tree
        (basePath : string) (n : FsNode) (root : Folder) (log : list string) :
  valid_entries n = true ->
  ListSubfolders basePath n = (Ok root, log) ->
  Path root = basePath
  /\ Name root = Base basePath
  /\ Forall (fun g => Forall (fun c => Path c = Join (Path g) (Name c)) (Children g))
            (root :: descendants root).
Proof.
  intros Hvalid Hres.
  destruct (@ListSubfolders_root _ _ _ _ Hres) as [Hn Hp].
  pose proof (@ListSubfolders_joined _ _ _ _ Hvalid Hres) as Hj.
  apply paths_joined_descendants in Hj. destruct Hj as [_ Hj].
  repeat split; assumption.
Qed.
End TreePaths.

(** ** The navigation state machine *)
Section ViewerFacts.
Import App ImageViewer.

Variable B : Bindings.

Local Arguments preloadNextImage : simpl never.
Local Arguments displayCurrentImage : simpl never.
Local Arguments loadImagesForPath : simpl never.
Local Arguments handleFolderSelected : simpl never.
Local Arguments stopSlideshow : simpl never.
Local Arguments nextLeafFolder : simpl never.
Local Arguments nextImage : simpl never.
Local Arguments validateDelay : simpl never.
Local Arguments prevImage : simpl never.
Local Arguments String.eqb : simpl never.

(** Case analysis on the conditions an operation branches on. *)
Ltac branch :=
  repeat match goal with
         | |- context [if ?c then _ else _] => destruct c eqn:?
         | |- context [match ?x with _ => _ end] => destruct x eqn:?
         end.

(** *** What each step leaves alone *)

Lemma stopSlideshow_position (s : State) :
  currentFolder (stopSlideshow s) = currentFolder s
  /\ images (stopSlideshow s) = images s
  /\ currentIndex (stopSlideshow s) = currentIndex s.
Proof. unfold stopSlideshow. destruct (slideshowInterval s); repeat split. Qed.

Lemma stopSlideshow_stops (s : State) :
  slideshowActive (stopSlideshow s) = false
  /\ slideshowInterval (stopSlideshow s) = None.
Proof. unfold stopSlideshow. destruct (slideshowInterval s) eqn:E; split; auto. Qed.

Lemma preloadNextImage_position (s : State) :
  currentFolder (preloadNextImage B s) = currentFolder s
  /\ images (preloadNextImage B s) = images s
  /\ currentIndex (preloadNextImage B s) = currentIndex s.
Proof. unfold preloadNextImage. branch; repeat split. Qed.

Lemma preloadNextImage_slideshow (s : State) :
  slideshowActive (preloadNextImage B s) = slideshowActive s
  /\ slideshowInterval (preloadNextImage B s) = slideshowInterval s
  /\ timers (preloadNextImage B s) = timers s
  /\ slideshowMode (preloadNextImage B s) = slideshowMode s.
Proof. unfold preloadNextImage. branch; repeat split. Qed.

Lemma preloadNextImage_history (s : State) :
  lastVisitedFolder (preloadNextImage B s) = lastVisitedFolder s
  /\ isTreeLoading (preloadNextImage B s) = isTreeLoading s
  /\ flatFolderList (preloadNextImage B s) = flatFolderList s
  /\ leafFolderList (preloadNextImage B s) = leafFolderList s.
Proof. unfold preloadNextImage. branch; repeat split. Qed.

Lemma preloadNextImage_empty (s : State) : preload_empty (preloadNextImage B s).
Proof. unfold preloadNextImage, preload_empty. branch; repeat split. Qed.

Lemma displayCurrentImage_position (s : State) :
  currentFolder (displayCurrentImage B s) = currentFolder s
  /\ images (displayCurrentImage B s) = images s
  /\ currentIndex (displayCurrentImage B s) = currentIndex s.
Proof.
  unfold displayCurrentImage.
  branch; cbn; rewrite ?(proj1 (preloadNextImage_position _)),
            ?(proj1 (proj2 (preloadNextImage_position _))),
            ?(proj2 (proj2 (preloadNextImage_position _))); repeat split.
Qed.

Lemma displayCurrentImage_history (s : State) :
  lastVisitedFolder (displayCurrentImage B s) = lastVisitedFolder s
  /\ isTreeLoading (displayCurrentImage B s) = isTreeLoading s
  /\ flatFolderList (displayCurrentImage B s) = flatFolderList s
  /\ leafFolderList (displayCurrentImage B s) = leafFolderList s.
Proof.
  unfold displayCurrentImage.
  branch; cbn; destruct (preloadNextImage_history (set_currentImageSrc "" s));
    repeat match goal with
           | |- context [preloadNextImage B ?t] =>
               destruct (preloadNextImage_history t) as (-> & -> & -> & ->)
           end; repeat split.
Qed.

Lemma displayCurrentImage_slideshow (s : State) :
  slideshowActive (displayCurrentImage B s) = slideshowActive s
  /\ slideshowInterval (displayCurrentImage B s) = slideshowInterval s
  /\ timers (displayCurrentImage B s) = timers s
  /\ slideshowMode (displayCurrentImage B s) = slideshowMode s.
Proof.
  unfold displayCurrentImage.
  branch; cbn;
    repeat match goal with
           | |- context [preloadNextImage B ?t] =>
               destruct (preloadNextImage_slideshow t) as (-> & -> & -> & ->)
           end; repeat split.
Qed.

Lemma displayCurrentImage_empty (s : State) :
  preload_empty s -> preload_empty (displayCurrentImage B s).
Proof.
  intros He. unfold displayCurrentImage.
  branch; try apply preloadNextImage_empty;
    try (unfold preload_empty in *; cbn; exact He);
    unfold preload_empty; cbn; auto.
Qed.

(** *** C7: [prevImage] *)

(** C7.  For a non-empty image list, [prevImage] moves to the index
    before the current one, or from index 0 to the last index; the
    folder and the image list stay the same.  The preload slot is
    cleared first: the slot is empty afterwards, and what [prevImage]
    does is what it does from the state with the slot already
    cleared. *)
Theorem prevImage_within_folder (s : State) :
  images s <> [] ->
  currentFolder (prevImage B s) = currentFolder s
  /\ images (prevImage B s) = images s
  /\ currentIndex (prevImage B s)
     = (if (0 <? currentIndex s)%Z then currentIndex s - 1
        else len (images s) - 1)%Z
  /\ preload_empty (prevImage B s)
  /\ prevImage B s = prevImage B (clearPreload s).
Proof.
  intros Hne.
  assert (Hlen : (len (images s) =? 0)%Z = false).
  { apply Z.eqb_neq. unfold len. destruct (images s); [contradiction|].
    simpl List.length. lia. }
  unfold prevImage. cbn [images clearPreload set_preloadedFolder set_preloadedIndex
                          set_preloadedImageSrc currentIndex].
  rewrite Hlen.
  match goal with
  | |- context [displayCurrentImage B ?t] =>
      destruct (displayCurrentImage_position t) as (-> & -> & ->);
      pose proof (@displayCurrentImage_empty t) as Hempty
  end.
  cbn. repeat split.
  - destruct (0 <? currentIndex s)%Z eqn:E1;
      destruct (currentIndex s - 1 <? 0)%Z eqn:E2; try reflexivity; lia.
  - apply Hempty. repeat split.
  - apply Hempty. repeat split.
  - apply Hempty. repeat split.
Qed.

(** *** Loading a folder *)

Lemma truthy_true (p : string) : p <> "" -> truthy p = true.
Proof. intros H. unfold truthy. apply String.eqb_neq in H. now rewrite H. Qed.

Lemma loadImagesForPath_history (p : string) (s : State) :
  lastVisitedFolder (loadImagesForPath B p s) = lastVisitedFolder s
  /\ isTreeLoading (loadImagesForPath B p s) = isTreeLoading s
  /\ flatFolderList (loadImagesForPath B p s) = flatFolderList s
  /\ leafFolderList (loadImagesForPath B p s) = leafFolderList s.
Proof.
  unfold loadImagesForPath, stopSlideshow.
  branch; cbn;
    repeat match goal with
           | |- context [displayCurrentImage B ?t] =>
               destruct (displayCurrentImage_history t) as (-> & -> & -> & ->)
           end; repeat split.
Qed.

Lemma loadImagesForPath_loaded (p : string) (s : State) :
  p <> "" ->
  currentFolder (loadImagesForPath B p s) = p
  /\ slideshowActive (loadImagesForPath B p s) = false
  /\ slideshowInterval (loadImagesForPath B p s) = None
  /\ match ListImages B p with
     | Ok imgs =>
         images (loadImagesForPath B p s) = imgs
         /\ currentIndex (loadImagesForPath B p s)
            = (if (len imgs >? 0)%Z then 0 else -1)%Z
     | Err _ =>
         images (loadImagesForPath B p s) = []
         /\ currentIndex (loadImagesForPath B p s) = (-1)%Z
     end.
Proof.
  intros Hp. unfold loadImagesForPath. rewrite (truthy_true Hp). cbn [negb].
  destruct (ListImages B p) as [imgs|err]; cbn.
  - match goal with
    | |- context [displayCurrentImage B ?t] =>
        destruct (displayCurrentImage_position t) as (-> & -> & ->);
        destruct (displayCurrentImage_slideshow t) as (-> & -> & _ & _)
    end.
    unfold stopSlideshow. destruct (slideshowInterval s); cbn; repeat split.
  - unfold stopSlideshow. destruct (slideshowInterval s); cbn; repeat split.
Qed.

Lemma handleFolderSelected_moves (p : string) (s : State) :
  p <> "" -> p <> currentFolder s ->
  let s' := handleFolderSelected B p s in
  currentFolder s' = p
  /\ lastVisitedFolder s'
     = (if truthy (currentFolder s) then currentFolder s else lastVisitedFolder s)
  /\ isTreeLoading s' = isTreeLoading s
  /\ flatFolderList s' = flatFolderList s
  /\ leafFolderList s' = leafFolderList s
  /\ slideshowActive s' = false
  /\ slideshowInterval s' = None
  /\ preload_empty s'
  /\ match ListImages B p with
     | Ok imgs => images s' = imgs
                  /\ currentIndex s' = (if (len imgs >? 0)%Z then 0 else -1)%Z
     | Err _ => images s' = [] /\ currentIndex s' = (-1)%Z
     end.
Proof.
  intros Hp Hneq. unfold handleFolderSelected.
  rewrite (truthy_true Hp). cbn [negb].
  assert (E : (p =? currentFolder s) = false) by now apply String.eqb_neq.
  rewrite E. rewrite (String.eqb_sym (currentFolder s) p), E. cbn [negb].
  rewrite andb_true_r.
  set (s0 := if truthy (currentFolder s)
             then set_lastVisitedFolder (currentFolder s) s else s).
  destruct (loadImagesForPath_history p s0) as (H1 & H2 & H3 & H4).
  destruct (@loadImagesForPath_loaded p s0 Hp) as (H5 & H6 & H7 & H8).
  cbn. rewrite H1, H2, H3, H4, H5, H6, H7.
  repeat split; try (subst s0; destruct (truthy (currentFolder s)); reflexivity).
  destruct (ListImages B p); exact H8.
Qed.

(** *** C8: [goToLastVisitedFolder] *)

(** C8.  With no last-visited folder stored, [goToLastVisitedFolder]
    changes nothing.  With last-visited folder [b] stored and the
    current folder [a] set and different from [b], two calls in a row end
    in folder [a] with [b] stored again.  Unless a tree load is in
    progress, in which case both calls do nothing, the first call moves
    to [b] and stores [a], and the second moves back; where the listings
    succeed, the image lists are those of [b] and then of [a], at their
    first image. *)
Theorem goToLastVisitedFolder_swap (s : State) :
  (lastVisitedFolder s = "" -> goToLastVisitedFolder B s = s)
  /\ (lastVisitedFolder s <> "" ->
      currentFolder s <> "" ->
      currentFolder s <> lastVisitedFolder s ->
      let s1 := goToLastVisitedFolder B s in
      let s2 := goToLastVisitedFolder B s1 in
      currentFolder s2 = currentFolder s
      /\ lastVisitedFolder s2 = lastVisitedFolder s
      /\ (isTreeLoading s = false ->
          currentFolder s1 = lastVisitedFolder s
          /\ lastVisitedFolder s1 = currentFolder s
          /\ (forall imgsB, ListImages B (lastVisitedFolder s) = Ok imgsB ->
                            images s1 = imgsB)
          /\ (forall imgsA, ListImages B (currentFolder s) = Ok imgsA ->
                            images s2 = imgsA
                            /\ currentIndex s2
                               = (if (len imgsA >? 0)%Z then 0 else -1)%Z))).
Proof.
  split.
  - intros H. unfold goToLastVisitedFolder. rewrite H. reflexivity.
  - intros Hb Ha Hab s1 s2.
    destruct (isTreeLoading s) eqn:Htree.
    + assert (Hs1 : s1 = s).
      { subst s1. unfold goToLastVisitedFolder. rewrite Htree.
        now rewrite orb_true_r. }
      assert (Hs2 : s2 = s).
      { subst s2. rewrite Hs1. unfold goToLastVisitedFolder. rewrite Htree.
        now rewrite orb_true_r. }
      rewrite Hs2. repeat split; discriminate.
    + assert (Hs1 : s1 = handleFolderSelected B (lastVisitedFolder s) s).
      { subst s1. unfold goToLastVisitedFolder.
        now rewrite (truthy_true Hb), Htree. }
      destruct (@handleFolderSelected_moves (lastVisitedFolder s) s Hb
                  (fun H => Hab (eq_sym H)))
        as (F1 & L1 & T1 & _ & _ & _ & _ & _ & I1).
      rewrite <- Hs1 in F1, L1, T1, I1.
      rewrite (truthy_true Ha) in L1.
      assert (Hs2 : s2 = handleFolderSelected B (currentFolder s) s1).
      { subst s2. unfold goToLastVisitedFolder.
        rewrite L1, (truthy_true Ha), T1, Htree. reflexivity. }
      assert (Hneq : currentFolder s <> currentFolder s1) by now rewrite F1.
      destruct (@handleFolderSelected_moves (currentFolder s) s1 Ha Hneq)
        as (F2 & L2 & _ & _ & _ & _ & _ & _ & I2).
      rewrite <- Hs2 in F2, L2, I2.
      rewrite F1, (truthy_true Hb) in L2.
      split; [exact F2|]. split; [exact L2|]. intros _.
      split; [exact F1|]. split; [exact L1|]. split.
      * intros imgsB HlB. rewrite HlB in I1. apply I1.
      * intros imgsA HlA. rewrite HlA in I2. exact I2.
Qed.

(** The swap needs a current folder.  After a cancelled folder dialog the
    current folder is empty while the last-visited folder is kept: two
    calls then end in the last-visited folder. *)
Lemma goToLastVisitedFolder_without_current_folder (s : State) :
  currentFolder s = "" ->
  lastVisitedFolder s <> "" ->
  isTreeLoading s = false ->
  let s2 := goToLastVisitedFolder B (goToLastVisitedFolder B s) in
  currentFolder s2 = lastVisitedFolder s
  /\ lastVisitedFolder s2 = lastVisitedFolder s.
Proof.
  intros Ha Hb Htree.
  assert (Hs1 : goToLastVisitedFolder B s
                = handleFolderSelected B (lastVisitedFolder s) s).
  { unfold goToLastVisitedFolder. now rewrite (truthy_true Hb), Htree. }
  destruct (@handleFolderSelected_moves (lastVisitedFolder s) s Hb)
    as (F1 & L1 & T1 & _); [now rewrite Ha|].
  rewrite <- Hs1 in F1, L1, T1.
  assert (L1' : lastVisitedFolder (goToLastVisitedFolder B s) = lastVisitedFolder s)
    by (rewrite L1, Ha; reflexivity).
  clear L1. rename L1' into L1.
  assert (Hs2 : goToLastVisitedFolder B (goToLastVisitedFolder B s)
                = goToLastVisitedFolder B s).
  { unfold goToLastVisitedFolder at 1. rewrite L1, (truthy_true Hb), T1, Htree.
    cbn [negb orb]. unfold handleFolderSelected.
    rewrite (truthy_true Hb), F1, String.eqb_refl. reflexivity. }
  cbv zeta. rewrite Hs2. split; assumption.
Qed.

(** *** The next leaf folder *)

Lemma len_nonneg (l : list string) : (0 <= len l)%Z.
Proof. unfold len. lia. Qed.

Lemma len_app (l1 l2 : list string) : len (l1 ++ l2) = (len l1 + len l2)%Z.
Proof. unfold len. rewrite length_app. lia. Qed.

Lemma len_zero (l : list string) : len l = 0%Z <-> l = [].
Proof.
  unfold len. destruct l; simpl; split; intros H;
    try reflexivity; try discriminate; lia.
Qed.

Lemma includes_In (l : list string) (x : string) : includes l x = true <-> In x l.
Proof.
  unfold includes. rewrite existsb_exists. split.
  - intros (y & Hy & E). apply String.eqb_eq in E. now subst.
  - intros H. exists x. split; [assumption|apply String.eqb_refl].
Qed.

Lemma indexOf_first (pre post : list string) (x : string) :
  ~ In x pre -> indexOf (pre ++ x :: post) x = len pre.
Proof.
  induction pre as [|a pre IH]; intros Hnot; cbn [indexOf app].
  - now rewrite String.eqb_refl.
  - assert (E : (a =? x) = false).
    { apply String.eqb_neq. intros ->. apply Hnot. now left. }
    rewrite E, IH by (intros H; apply Hnot; now right).
    pose proof (len_nonneg pre).
    destruct (len pre =? -1)%Z eqn:E'; [lia|].
    unfold len. cbn [List.length]. lia.
Qed.

Lemma indexOf_missing (l : list string) (x : string) :
  indexOf l x = (-1)%Z -> ~ In x l.
Proof.
  induction l as [|a l IH]; cbn [indexOf]; intros H; [tauto|].
  destruct (a =? x) eqn:E; [discriminate|].
  destruct (indexOf l x =? -1)%Z eqn:E'.
  - apply String.eqb_neq in E. intros [->|Hin]; [now apply E|].
    apply IH; [lia|assumption].
  - assert (-1 <= indexOf l x)%Z.
    { clear. induction l as [|b l IHl]; cbn [indexOf]; [lia|].
      destruct (b =? x); [lia|]. destruct (indexOf l x =? -1)%Z; lia. }
    lia.
Qed.

Lemma indexOf_found (l : list string) (x : string) :
  indexOf l x <> (-1)%Z -> In x l.
Proof.
  induction l as [|a l IH]; cbn [indexOf]; intros H; [contradiction H; reflexivity|].
  destruct (a =? x) eqn:E.
  - apply String.eqb_eq in E. now left.
  - right. apply IH. destruct (indexOf l x =? -1)%Z eqn:E'; [contradiction H; reflexivity|].
    now apply Z.eqb_neq.
Qed.

Lemma first_occurrence (l : list string) (x : string) :
  In x l -> exists pre post, l = (pre ++ x :: post)%list /\ ~ In x pre.
Proof.
  induction l as [|a l IH]; intros Hin; [contradiction|].
  destruct (String.eqb_spec a x) as [->|Hne].
  - exists [], l. split; [reflexivity|tauto].
  - destruct Hin as [->|Hin]; [contradiction Hne; reflexivity|].
    destruct (IH Hin) as (pre & post & -> & Hnot).
    exists (a :: pre), post. split; [reflexivity|].
    intros [H|H]; [now apply Hne|now apply Hnot].
Qed.

Lemma skipn_after (pre post : list string) (x : string) :
  skipn (Z.to_nat (len pre + 1)) (pre ++ x :: post) = post.
Proof.
  unfold len. replace (Z.to_nat (Z.of_nat (List.length pre) + 1)) with (S (List.length pre)) by lia.
  induction pre as [|a pre IH]; [reflexivity|exact IH].
Qed.

Lemma find_first (f : string -> bool) (mid post : list string) (x : string) :
  (forall y, In y mid -> f y = false) -> f x = true ->
  find f (mid ++ x :: post) = Some x.
Proof.
  induction mid as [|a mid IH]; intros Hmid Hx; cbn [find app].
  - now rewrite Hx.
  - rewrite (Hmid a) by now left. apply IH; [|assumption].
    intros y Hy. apply Hmid. now right.
Qed.


(** The folder [nextImage] crosses to is the first entry of the leaf
    list that comes after the first occurrence of the current folder in
    the flat list. *)
Lemma nextLeafFolder_found (s : State) (pre mid post : list string) (target : string) :
  flatFolderList s = (pre ++ currentFolder s :: mid ++ target :: post)%list ->
  ~ In (currentFolder s) pre ->
  (forall x, In x mid -> ~ In x (leafFolderList s)) ->
  In target (leafFolderList s) ->
  nextLeafFolder s = Some target.
Proof.
  intros Hflat Hpre Hmid Htarget. unfold nextLeafFolder.
  rewrite Hflat, (@indexOf_first pre _ _ Hpre), skipn_after.
  pose proof (len_nonneg pre).
  destruct (len pre =? -1)%Z eqn:E; [lia|].
  apply find_first.
  - intros y Hy. destruct (includes (leafFolderList s) y) eqn:Ey; [|reflexivity].
    apply includes_In in Ey. now apply Hmid in Hy.
  - now apply includes_In.
Qed.


(** *** C1 and C2: [nextImage] at the end of a folder *)

Lemma nextImage_at_end (s : State) :
  images s <> [] \/ flatFolderList s <> [] ->
  (len (images s) <= currentIndex s + 1)%Z ->
  nextImage B s
  = match nextLeafFolder s with
    | None => stopSlideshow s
    | Some targetFolder =>
        if (targetFolder =? preloadedFolder s) && (0 =? preloadedIndex s)%Z
           && truthy (preloadedImageSrc s)
        then
          let s1 := set_currentFolder targetFolder
                      (set_currentImageSrc (preloadedImageSrc s)
                         (set_isLoading true s)) in
          match ListImages B targetFolder with
          | Err _ => s1
          | Ok imgs =>
              set_isLoading false
                (preloadNextImage B
                   (clearPreload (set_currentIndex 0%Z (set_images imgs s1))))
          end
        else handleFolderSelected B targetFolder s
    end.
Proof.
  intros Hsome Hend.
  assert (E1 : (len (images s) =? 0)%Z && (len (flatFolderList s) =? 0)%Z = false).
  { apply andb_false_iff.
    destruct Hsome as [H|H]; [left|right]; apply Z.eqb_neq;
      intros E; apply len_zero in E; contradiction. }
  assert (E2 : (len (images s) =? 0)%Z || (currentIndex s + 1 >=? len (images s))%Z = true).
  { apply orb_true_iff. right. apply Z.geb_le. lia. }
  unfold nextImage. rewrite E1, E2.
  destruct (nextLeafFolder s) as [targetFolder|]; [|reflexivity].
  cbn [andb].
  destruct ((targetFolder =? preloadedFolder s) && (0 =? preloadedIndex s)%Z
            && truthy (preloadedImageSrc s)); reflexivity.
Qed.

(** *** What ends up on screen *)

Lemma preloadNextImage_shown (s : State) :
  currentImageSrc (preloadNextImage B s) = currentImageSrc s.
Proof.
  unfold preloadNextImage.
  repeat match goal with
         | |- context [if ?c then _ else _] => destruct c eqn:?
         | |- context [match ?x with _ => _ end] => destruct x eqn:?
         end; reflexivity.
Qed.

Lemma loadImagesForPath_shown (p : string) (s : State) :
  p <> "" -> currentImageSrc (loadImagesForPath B p s) = first_image B p.
Proof.
  intros Hp. unfold loadImagesForPath, first_image.
  rewrite (@truthy_true p Hp). cbn [negb].
  destruct (ListImages B p) as [[|first rest]|err]; cbn.
  - unfold displayCurrentImage. cbn.
    destruct (is_sequence _); [apply preloadNextImage_shown|reflexivity].
  - unfold displayCurrentImage. cbn.
    destruct (ReadImage B first) as [data|e]; cbn;
      [apply preloadNextImage_shown|reflexivity].
  - reflexivity.
Qed.

Lemma handleFolderSelected_shown (p : string) (s : State) :
  p <> "" -> p <> currentFolder s ->
  currentImageSrc (handleFolderSelected B p s) = first_image B p.
Proof.
  intros Hp Hneq. unfold handleFolderSelected.
  rewrite (@truthy_true p Hp). cbn [negb].
  assert (E : (p =? currentFolder s) = false) by now apply String.eqb_neq.
  rewrite E. cbn [clearPreload set_preloadedFolder set_preloadedIndex
                  set_preloadedImageSrc currentImageSrc].
  now apply loadImagesForPath_shown.
Qed.

(** C1.  At the last image of a folder (or in a folder without images),
    when the flat list has, after the first occurrence of the current
    folder, a first entry [target] that is in the leaf list, [nextImage]
    switches to [target].
    - When the listing of [target] has images, the position is index 0
      and the image on screen is the first image: the one held in the
      preload slot when the slot is filled for that position (which is
      what [ReadImage] returns for the first path when the slot holds
      what the backend serves for the position it names), otherwise what
      [ReadImage] returns for the first path, nothing when that read
      fails.
    - When the listing of [target] has no image or fails, and no preload
      is held for it, the position is index [-1] with no image on
      screen. *)
Theorem nextImage_crosses_to_next_leaf
        (s : State) (pre mid post : list string) (target : string) :
  flatFolderList s = (pre ++ currentFolder s :: mid ++ target :: post)%list ->
  ~ In (currentFolder s) pre ->
  (forall x, In x mid -> ~ In x (leafFolderList s)) ->
  In target (leafFolderList s) ->
  target <> "" ->
  target <> currentFolder s ->
  (len (images s) <= currentIndex s + 1)%Z ->
  let s' := nextImage B s in
  let preloaded := (target =? preloadedFolder s) && (0 =? preloadedIndex s)%Z
                   && truthy (preloadedImageSrc s) in
  currentFolder s' = target
  /\ (forall first rest,
        ListImages B target = Ok (first :: rest) ->
        images s' = first :: rest
        /\ currentIndex s' = 0%Z
        /\ at_index (images s') (currentIndex s') = Some first
        /\ currentImageSrc s'
           = (if preloaded then preloadedImageSrc s
              else match ReadImage B first with
                   | Ok data => data
                   | Err _ => ""
                   end)
        /\ (payload_of B (preloadedImageSrc s) (preloadedIndex s)
                       (preloadedFolder s) ->
            preloaded = true -> ReadImage B first = Ok (currentImageSrc s')))
  /\ (preloaded = false ->
      (forall first rest, ListImages B target <> Ok (first :: rest)) ->
      images s' = [] /\ currentIndex s' = (-1)%Z /\ currentImageSrc s' = "").
Proof.
  intros Hflat Hpre Hmid Hleaf Hne Hcur Hend s' preloaded. subst s' preloaded.
  rewrite nextImage_at_end;
    [|right; rewrite Hflat; now destruct pre|assumption].
  rewrite (@nextLeafFolder_found s pre mid post target Hflat Hpre Hmid Hleaf).
  destruct ((target =? preloadedFolder s) && (0 =? preloadedIndex s)%Z
            && truthy (preloadedImageSrc s)) eqn:Epre.
  - cbv zeta. split; [|split].
    + destruct (ListImages B target) as [imgs|e]; [|reflexivity]. cbn.
      now rewrite (proj1 (preloadNextImage_position _)).
    + intros first rest Hlist. rewrite Hlist. cbn.
      match goal with
      | |- context [preloadNextImage B ?t] =>
          pose proof (preloadNextImage_shown t) as D;
          destruct (preloadNextImage_position t) as (_ & I & J)
      end.
      split; [exact I|]. split; [exact J|]. split; [|split; [exact D|]].
      * etransitivity;
          [|exact (eq_refl : at_index (first :: rest) 0%Z = Some first)].
        f_equal; [exact I|exact J].
      * intros (imgs & path & Hl & Hat & Hr) _.
        apply andb_true_iff in Epre. destruct Epre as [Epre _].
        apply andb_true_iff in Epre. destruct Epre as [Ef Ei].
        apply String.eqb_eq in Ef. apply Z.eqb_eq in Ei.
        rewrite <- Ef, Hlist in Hl. injection Hl as <-.
        rewrite <- Ei in Hat. injection Hat as <-.
        etransitivity; [exact Hr|]. f_equal. symmetry. exact D.
    + discriminate.
  - destruct (@handleFolderSelected_moves target s Hne Hcur)
      as (F & _ & _ & _ & _ & _ & _ & _ & I).
    pose proof (@handleFolderSelected_shown target s Hne Hcur) as D.
    cbv zeta in F, I. unfold first_image in D.
    split; [exact F|]. split.
    + intros first rest Hlist. rewrite Hlist in I, D.
      destruct I as [I J]. rewrite I, J, D. repeat split. discriminate.
    + intros _ Hnone.
      destruct (ListImages B target) as [[|first rest]|e].
      * destruct I as [I J]. rewrite I, J, D. repeat split.
      * exfalso. exact (Hnone first rest eq_refl).
      * destruct I as [I J]. rewrite I, J, D. repeat split.
Qed.





(** *** C10: a sequence slideshow at a folder boundary *)

(** With the image of the next folder in the preload slot, crossing
    leaves the slideshow as it is. *)
Lemma nextImage_crossing_with_preload (s : State) (target : string)
      (imgs : list string) :
  images s <> [] \/ flatFolderList s <> [] ->
  (len (images s) <= currentIndex s + 1)%Z ->
  nextLeafFolder s = Some target ->
  preloadedFolder s = target ->
  preloadedIndex s = 0%Z ->
  preloadedImageSrc s <> "" ->
  ListImages B target = Ok imgs ->
  slideshowActive (nextImage B s) = slideshowActive s
  /\ slideshowInterval (nextImage B s) = slideshowInterval s
  /\ timers (nextImage B s) = timers s.
Proof.
  intros Hsome Hend Hnext Hf Hi Hsrc Hlist.
  rewrite nextImage_at_end, Hnext by assumption.
  rewrite Hf, Hi, String.eqb_refl, (truthy_true Hsrc). cbn [andb Z.eqb].
  cbv zeta. rewrite <- Hf, Hf, Hlist. cbn.
  match goal with
  | |- context [preloadNextImage B ?t] =>
      destruct (preloadNextImage_slideshow t) as (-> & -> & -> & _)
  end.
  repeat split.
Qed.

(** Without it, crossing goes through [handleFolderSelected] and
    [loadImagesForPath], which stops the slideshow. *)
Lemma nextImage_crossing_without_preload (s : State) (target : string) :
  images s <> [] \/ flatFolderList s <> [] ->
  (len (images s) <= currentIndex s + 1)%Z ->
  nextLeafFolder s = Some target ->
  target <> "" ->
  target <> currentFolder s ->
  (target =? preloadedFolder s) && (0 =? preloadedIndex s)%Z
  && truthy (preloadedImageSrc s) = false ->
  currentFolder (nextImage B s) = target
  /\ slideshowActive (nextImage B s) = false
  /\ slideshowInterval (nextImage B s) = None.
Proof.
  intros Hsome Hend Hnext Hne Hcur Hslot.
  rewrite nextImage_at_end, Hnext, Hslot by assumption.
  destruct (@handleFolderSelected_moves target s Hne Hcur)
    as (F & _ & _ & _ & _ & A & T & _).
  repeat split; assumption.
Qed.

(** *** C3: the invariant of [Position] *)

Ltac bools :=
  repeat match goal with
         | H : _ && _ = true |- _ => apply andb_true_iff in H; destruct H
         | H : _ || _ = false |- _ => apply orb_false_iff in H; destruct H
         | H : (_ =? _)%Z = true |- _ => apply Z.eqb_eq in H
         | H : (_ =? _)%Z = false |- _ => apply Z.eqb_neq in H
         | H : (_ <? _)%Z = true |- _ => apply Z.ltb_lt in H
         | H : (_ <? _)%Z = false |- _ => apply Z.ltb_ge in H
         | H : (_ >=? _)%Z = true |- _ => apply Z.geb_le in H
         | H : (_ >=? _)%Z = false |- _ => rewrite Z.geb_leb in H; apply Z.leb_gt in H
         | H : (_ >? _)%Z = true |- _ => apply Z.gtb_lt in H
         | H : (_ >? _)%Z = false |- _ => rewrite Z.gtb_ltb in H; apply Z.ltb_ge in H
         | H : (_ =? _)%string = true |- _ => apply String.eqb_eq in H
         | H : negb _ = true |- _ => apply negb_true_iff in H
         | H : negb _ = false |- _ => apply negb_false_iff in H
         end.

Lemma position_ok_intro (imgs : list string) (idx : Z) :
  (imgs = [] /\ idx = (-1)%Z) \/ (0 <= idx < len imgs)%Z ->
  (imgs <> [] -> (0 <= idx < len imgs)%Z) /\ (idx = (-1)%Z <-> imgs = []).
Proof.
  intros [[-> ->]|H].
  - split; [intros C; contradiction C; reflexivity|tauto].
  - split; [auto|]. split; intros E.
    + lia.
    + subst imgs. unfold len in H. simpl in H. lia.
Qed.

Lemma position_ok_cases (s : State) :
  position_invariant s ->
  (images s = [] /\ currentIndex s = (-1)%Z)
  \/ (0 <= currentIndex s < len (images s))%Z.
Proof.
  intros [H1 H2]. destruct (images s) as [|i l] eqn:E.
  - left. split; [reflexivity|]. now apply H2.
  - right. apply H1. discriminate.
Qed.

(** A step that leaves the image list, the index, the preload target and
    the reads in flight as they are keeps the state consistent. *)
Lemma consistent_frame (s s' : State) :
  images s' = images s ->
  currentIndex s' = currentIndex s ->
  preloadedIndex s' = preloadedIndex s ->
  preloadedFolder s' = preloadedFolder s ->
  prefetches s' = prefetches s ->
  consistent B s -> consistent B s'.
Proof.
  unfold consistent, position_invariant.
  intros -> -> -> -> ->. tauto.
Qed.

(** A step that leaves the position and the reads in flight as they are
    and empties the preload slot keeps the state consistent. *)
Lemma consistent_cleared (s s' : State) :
  images s' = images s ->
  currentIndex s' = currentIndex s ->
  preloadedIndex s' = (-1)%Z ->
  prefetches s' = prefetches s ->
  consistent B s -> consistent B s'.
Proof.
  unfold consistent, position_invariant.
  intros -> -> -> -> (H1 & _ & H3).
  split; [assumption|]. split; [|assumption]. discriminate.
Qed.

Lemma consistent_stopSlideshow (s : State) :
  consistent B s -> consistent B (stopSlideshow s).
Proof.
  apply consistent_frame; unfold stopSlideshow;
    destruct (slideshowInterval s); reflexivity.
Qed.

Lemma consistent_clearPreload (s : State) :
  consistent B s -> consistent B (clearPreload s).
Proof. apply consistent_cleared; reflexivity. Qed.

Lemma consistent_preloadNextImage (s : State) :
  consistent B s -> consistent B (preloadNextImage B s).
Proof.
  intros Hs. pose proof Hs as (Hpos & _ & Hpf).
  apply position_ok_cases in Hpos.
  unfold preloadNextImage.
  destruct (slideshowActive s && negb (is_sequence (slideshowMode s)));
    [now apply consistent_clearPreload|].
  cbn [images flatFolderList currentIndex currentFolder clearPreload
       set_preloadedFolder set_preloadedIndex set_preloadedImageSrc].
  destruct ((len (images s) <? 1)%Z && (len (flatFolderList s) <? 1)%Z);
    [now apply consistent_clearPreload|].
  match goal with
  | |- consistent B match ?target with _ => _ end =>
      assert (Htarget : forall path idx folder,
                 target = Some (Some path, idx, folder) ->
                 idx = 0%Z -> listed_nonempty B folder);
      [|destruct target as [[[[path|] idx] folder]|] eqn:Et;
        try now apply consistent_clearPreload]
  end.
  - intros path idx folder.
    destruct ((len (images s) =? 0)%Z || (currentIndex s + 1 >=? len (images s))%Z) eqn:E.
    + unfold nextLeafFolder. cbn.
      fold (nextLeafFolder s).
      destruct (nextLeafFolder s) as [nf|]; [|discriminate].
      destruct (ListImages B nf) as [[|first rest]|] eqn:El; try discriminate.
      intros Heq _. injection Heq as _ _ <-.
      exists (first :: rest). split; [assumption|discriminate].
    + bools. intros Heq Hidx. injection Heq as _ <- _.
      destruct Hpos as [[Hempty _]|Hrange]; [|lia].
      apply len_zero in Hempty. contradiction.
  - destruct (negb (truthy path)); [now apply consistent_clearPreload|].
    destruct Hs as (Hp & _ & _).
    split; [exact Hp|]. split; [discriminate|].
    cbn. apply Forall_app. split; [assumption|].
    constructor; [|constructor].
    destruct (ReadImage B path); [|exact I].
    cbn. eapply Htarget. reflexivity.
Qed.

Lemma Forall_without (A : Type) (P : A -> Prop) (l : list A) (k : nat) :
  Forall P l -> Forall P (firstn k l ++ skipn (S k) l).
Proof.
  intros H. revert k. induction H as [|a l Ha Hl IH]; intros k.
  - destruct k; constructor.
  - destruct k as [|k]; [exact Hl|].
    cbn [firstn skipn app]. constructor; [exact Ha|apply IH].
Qed.

Lemma consistent_settlePrefetch (k : nat) (s : State) :
  consistent B s -> consistent B (settlePrefetch k s).
Proof.
  intros Hs. pose proof Hs as (Hpos & Hslot & Hpf). unfold settlePrefetch.
  destruct (nth_error (prefetches s) k) as [outcome|] eqn:E; [|exact Hs].
  assert (Hok : prefetch_ok B outcome).
  { apply nth_error_In in E. rewrite Forall_forall in Hpf. now apply Hpf. }
  pose proof (Forall_without k Hpf) as Hrest.
  destruct outcome as [data idx folder|].
  - split; [exact Hpos|]. split; [exact Hok|exact Hrest].
  - split; [exact Hpos|]. split; [discriminate|exact Hrest].
Qed.

Lemma consistent_displayCurrentImage (s : State) :
  consistent B s -> consistent B (displayCurrentImage B s).
Proof.
  intros Hs. unfold displayCurrentImage.
  destruct ((currentIndex s >=? 0)%Z && (currentIndex s <? len (images s))%Z).
  - cbn [images currentIndex set_isLoading].
    destruct (at_index (images s) (currentIndex s)) as [imagePath|].
    + destruct (ReadImage B imagePath) as [data|err].
      * eapply consistent_frame;
          [..|apply consistent_preloadNextImage;
              eapply (@consistent_frame s); [..|exact Hs]]; reflexivity.
      * eapply consistent_cleared; [..|exact Hs]; reflexivity.
    + eapply consistent_frame; [..|exact Hs]; reflexivity.
  - cbn [slideshowMode set_currentImageSrc].
    destruct (is_sequence (slideshowMode s)).
    + apply consistent_preloadNextImage.
      eapply consistent_frame; [..|exact Hs]; reflexivity.
    + eapply consistent_frame; [..|exact Hs]; reflexivity.
Qed.

(** Replacing the position by a valid one and emptying the preload slot
    gives a consistent state. *)
Lemma consistent_reposition (s s' : State) :
  (images s' = [] /\ currentIndex s' = (-1)%Z)
  \/ (0 <= currentIndex s' < len (images s'))%Z ->
  preloadedIndex s' = (-1)%Z ->
  prefetches s' = prefetches s ->
  consistent B s -> consistent B s'.
Proof.
  intros Hpos Hidx Hpf (_ & _ & H).
  split; [now apply position_ok_intro|].
  split; [rewrite Hidx; discriminate|now rewrite Hpf].
Qed.

Lemma first_index_ok (imgs : list string) :
  (imgs = [] /\ (if (len imgs >? 0)%Z then 0 else -1)%Z = (-1)%Z)
  \/ (0 <= (if (len imgs >? 0)%Z then 0 else -1) < len imgs)%Z.
Proof.
  destruct imgs as [|i l]; [left; split; reflexivity|right].
  assert (H : (len (i :: l) >? 0)%Z = true).
  { apply Z.gtb_lt. unfold len. simpl List.length. lia. }
  rewrite H. unfold len. simpl List.length. lia.
Qed.

Lemma consistent_loadImagesForPath (p : string) (s : State) :
  consistent B s -> consistent B (loadImagesForPath B p s).
Proof.
  intros Hs. unfold loadImagesForPath.
  destruct (negb (truthy p)); [exact Hs|].
  destruct (ListImages B p) as [imgs|err].
  - eapply consistent_frame; [..|apply consistent_displayCurrentImage]; try reflexivity.
    eapply (@consistent_reposition (stopSlideshow (set_isLoading true s)));
      [apply first_index_ok|reflexivity|reflexivity|].
    apply consistent_stopSlideshow.
    eapply consistent_frame; [..|exact Hs]; reflexivity.
  - eapply (@consistent_reposition (stopSlideshow (set_isLoading true s)));
      [left; split; reflexivity|reflexivity|reflexivity|].
    apply consistent_stopSlideshow.
    eapply consistent_frame; [..|exact Hs]; reflexivity.
Qed.

Lemma consistent_loadFolderTree (p : string) (s : State) :
  consistent B s -> consistent B (loadFolderTree B p s).
Proof.
  intros Hs. unfold loadFolderTree.
  destruct (negb (truthy p)); [exact Hs|].
  destruct (ListSubfolders B p);
    (eapply consistent_frame; [..|exact Hs]; reflexivity).
Qed.

Lemma consistent_selectFolder (dialog : Result string) (s : State) :
  consistent B s -> consistent B (selectFolder B dialog s).
Proof.
  intros Hs. unfold selectFolder.
  match goal with
  | |- consistent B match dialog with
                    | Ok selectedPath => if _ then _ (_ selectedPath ?s0) else _
                    | Err _ => _
                    end =>
      assert (H0 : consistent B s0)
  end.
  { destruct Hs as (_ & Hslot & Hpf).
    split; [apply position_ok_intro; left; split; reflexivity|].
    split; assumption. }
  destruct dialog as [selectedPath|err].
  - destruct (truthy selectedPath); [|exact H0].
    now apply consistent_loadFolderTree, consistent_loadImagesForPath.
  - eapply consistent_frame; [..|exact H0]; reflexivity.
Qed.

Lemma consistent_handleFolderSelected (p : string) (s : State) :
  consistent B s -> consistent B (handleFolderSelected B p s).
Proof.
  intros Hs. unfold handleFolderSelected.
  destruct (negb (truthy p)); [exact Hs|].
  destruct (p =? currentFolder s); [exact Hs|].
  apply consistent_clearPreload, consistent_loadImagesForPath.
  destruct (truthy (currentFolder s) && negb (currentFolder s =? p)); [|exact Hs].
  eapply consistent_frame; [..|exact Hs]; reflexivity.
Qed.

Lemma consistent_goToLastVisitedFolder (s : State) :
  consistent B s -> consistent B (goToLastVisitedFolder B s).
Proof.
  intros Hs. unfold goToLastVisitedFolder.
  destruct (negb (truthy (lastVisitedFolder s)) || isTreeLoading s); [exact Hs|].
  now apply consistent_handleFolderSelected.
Qed.

(** Moving the index inside the image list, with the preload slot and the
    reads in flight as they are, keeps the state consistent. *)
Lemma consistent_reindex (s s' : State) :
  (images s' = [] /\ currentIndex s' = (-1)%Z)
  \/ (0 <= currentIndex s' < len (images s'))%Z ->
  preloadedIndex s' = preloadedIndex s ->
  preloadedFolder s' = preloadedFolder s ->
  prefetches s' = prefetches s ->
  consistent B s -> consistent B s'.
Proof.
  intros Hpos Hidx Hfolder Hpf (_ & Hslot & H).
  split; [now apply position_ok_intro|].
  split; [now rewrite Hidx, Hfolder|now rewrite Hpf].
Qed.

Lemma consistent_nextImage (s : State) :
  consistent B s -> consistent B (nextImage B s).
Proof.
  intros Hs. pose proof Hs as (Hpos & Hslot & _).
  apply position_ok_cases in Hpos.
  assert (Hnext : forall b, (len (images s) =? 0)%Z
                            || (currentIndex s + 1 >=? len (images s))%Z = b ->
                            b = false ->
                            (0 <= currentIndex s + 1 < len (images s))%Z).
  { intros b E ->. bools. destruct Hpos as [[Hempty _]|Hrange]; [|lia].
    apply len_zero in Hempty. contradiction. }
  unfold nextImage.
  destruct ((len (images s) =? 0)%Z && (len (flatFolderList s) =? 0)%Z); [exact Hs|].
  destruct ((len (images s) =? 0)%Z || (currentIndex s + 1 >=? len (images s))%Z) eqn:E.
  - clear Hnext.
    destruct (nextLeafFolder s) as [target|]; [|now apply consistent_stopSlideshow].
    cbn [andb].
    destruct ((target =? preloadedFolder s) && (0 =? preloadedIndex s)%Z
              && truthy (preloadedImageSrc s)) eqn:Eslot;
      [|now apply consistent_handleFolderSelected].
    bools.
    destruct Hslot as (imgs & Hlist & Hne); [congruence|].
    subst target. rewrite Hlist.
    eapply consistent_frame;
      [..|apply consistent_preloadNextImage]; try reflexivity.
    eapply (@consistent_reposition s); [|reflexivity|reflexivity|exact Hs].
    right. cbn. unfold len. destruct imgs; [contradiction|]. simpl List.length. lia.
  - specialize (Hnext false eq_refl eq_refl).
    cbn [andb negb].
    destruct (is_sequence (slideshowMode s) && (currentIndex s + 1 =? preloadedIndex s)%Z
              && (currentFolder s =? preloadedFolder s)
              && truthy (preloadedImageSrc s)).
    + eapply consistent_frame;
        [..|apply consistent_preloadNextImage]; try reflexivity.
      eapply (@consistent_reposition s); [|reflexivity|reflexivity|exact Hs].
      right. exact Hnext.
    + apply consistent_displayCurrentImage.
      eapply (@consistent_reindex s); [|reflexivity|reflexivity|reflexivity|exact Hs].
      right. exact Hnext.
Qed.

Lemma consistent_prevImage (s : State) :
  consistent B s -> consistent B (prevImage B s).
Proof.
  intros Hs. pose proof Hs as (Hpos & _ & _).
  apply position_ok_cases in Hpos.
  assert (Hprev : len (images s) <> 0%Z ->
                  (0 <= (if (currentIndex s - 1 <? 0)%Z
                         then len (images s) - 1
                         else currentIndex s - 1) < len (images s))%Z).
  { intros E. destruct Hpos as [[Hempty _]|Hrange].
    - apply len_zero in Hempty. contradiction.
    - destruct (currentIndex s - 1 <? 0)%Z eqn:E'; bools; lia. }
  unfold prevImage.
  destruct (len (images s) =? 0)%Z eqn:E; [exact Hs|].
  apply Z.eqb_neq in E. specialize (Hprev E).
  apply consistent_displayCurrentImage.
  eapply (@consistent_reposition s); [|reflexivity|reflexivity|exact Hs].
  right. exact Hprev.
Qed.

Lemma first_draw_below (n : nat) (reject : nat -> bool) (rnd : list nat) (r : nat) :
  n <> 0%nat -> first_draw n reject rnd = Some r -> (r < n)%nat.
Proof.
  intros Hn. induction rnd as [|u rest IH]; cbn [first_draw]; [discriminate|].
  destruct (reject (random_below u n)); [exact IH|].
  intros H. injection H as <-. unfold random_below.
  now apply Nat.mod_upper_bound.
Qed.

Lemma consistent_displayRandomImageInFolder (rnd : list nat) (s s' : State) :
  consistent B s ->
  displayRandomImageInFolder B rnd s = Some s' ->
  consistent B s'.
Proof.
  intros Hs. unfold displayRandomImageInFolder.
  destruct (len (images s) <? 1)%Z eqn:E; [intros H; injection H as <-; exact Hs|].
  assert (Hbound : forall r,
             (if (len (images s) =? 1)%Z then Some 0%nat
              else first_draw (List.length (images s))
                              (fun r => (Z.of_nat r =? currentIndex s)%Z) rnd)
             = Some r ->
             (0 <= Z.of_nat r < len (images s))%Z).
  { intros r. bools. destruct (len (images s) =? 1)%Z eqn:E1; bools.
    - intros H. injection H as <-. lia.
    - intros H. apply first_draw_below in H; [unfold len; lia|].
      unfold len in E. lia. }
  destruct (if (len (images s) =? 1)%Z then Some 0%nat
            else first_draw (List.length (images s))
                            (fun r => (Z.of_nat r =? currentIndex s)%Z) rnd)
    as [r|]; [|discriminate].
  intros H. injection H as <-.
  apply consistent_displayCurrentImage.
  eapply (@consistent_reindex s); [|reflexivity|reflexivity|reflexivity|exact Hs].
  right. now apply Hbound.
Qed.

Lemma consistent_displayRandomImageInAllFolders (u1 u2 : nat) (s : State) :
  consistent B s -> consistent B (displayRandomImageInAllFolders B u1 u2 s).
Proof.
  intros Hs. unfold displayRandomImageInAllFolders.
  destruct (len (leafFolderList s) =? 0)%Z; [exact Hs|].
  cbn [leafFolderList set_isLoading].
  destruct (nth_error (leafFolderList s)
                      (random_below u1 (List.length (leafFolderList s))))
    as [randomFolderPath|];
    [|eapply consistent_frame; [..|exact Hs]; reflexivity].
  destruct (ListImages B randomFolderPath) as [imgs|err];
    [|eapply (@consistent_reindex s); [left; split| | | |exact Hs]; reflexivity].
  destruct (len imgs >? 0)%Z;
    [|eapply consistent_frame; [..|exact Hs]; reflexivity].
  destruct (nth_error imgs (random_below u2 (List.length imgs))) as [path|] eqn:En;
    [|eapply consistent_frame; [..|exact Hs]; reflexivity].
  assert (Hr : (0 <= Z.of_nat (random_below u2 (List.length imgs)) < len imgs)%Z).
  { assert (random_below u2 (List.length imgs) < List.length imgs)%nat
      by (apply nth_error_Some; congruence).
    unfold len. lia. }
  destruct (ReadImage B path) as [data|err].
  - eapply (@consistent_reindex s); [right; exact Hr| | | |exact Hs]; reflexivity.
  - eapply (@consistent_reindex s); [left; split| | | |exact Hs]; reflexivity.
Qed.

Lemma consistent_slideshowAction (rnd : list nat) (s s' : State) :
  consistent B s -> slideshowAction B rnd s = Some s' -> consistent B s'.
Proof.
  intros Hs. unfold slideshowAction. destruct (slideshowMode s).
  - intros H. injection H as <-. now apply consistent_nextImage.
  - now apply consistent_displayRandomImageInFolder.
  - intros H. injection H as <-. now apply consistent_displayRandomImageInAllFolders.
Qed.

Lemma consistent_startSlideshow (h : nat) (rnd : list nat) (s s' : State) :
  consistent B s -> startSlideshow B h rnd s = Some s' -> consistent B s'.
Proof.
  intros Hs. unfold startSlideshow. cbv zeta.
  assert (H0 : consistent B (validateDelay s)).
  { unfold validateDelay.
    destruct (slideshowDelay s) as [d|]; [destruct (d <? 500)%Z|];
      try exact Hs; (eapply consistent_frame; [..|exact Hs]; reflexivity). }
  generalize dependent (validateDelay s). clear Hs s. intros s Hs.
  destruct (slideshowActive s); [intros H; injection H as <-; exact Hs|].
  destruct (is_sequence (slideshowMode s) && (len (images s) <? 1)%Z
            && (len (flatFolderList s) <? 2)%Z);
    [intros H; injection H as <-; exact Hs|].
  destruct (match slideshowMode s with random_folder => true | _ => false end
            && (len (images s) <? 1)%Z);
    [intros H; injection H as <-; exact Hs|].
  destruct (match slideshowMode s with random_all => true | _ => false end
            && (len (leafFolderList s) <? 1)%Z);
    [intros H; injection H as <-; exact Hs|].
  match goal with
  | |- match slideshowAction B rnd ?s1 with _ => _ end = _ -> _ =>
      assert (H1 : consistent B s1);
      [|destruct (slideshowAction B rnd s1) as [s2|] eqn:Ea; [|discriminate]]
  end.
  { destruct (negb (is_sequence (slideshowMode s))).
    - eapply consistent_frame; [..|apply consistent_clearPreload; exact Hs];
        reflexivity.
    - eapply consistent_frame; [..|exact Hs]; reflexivity. }
  intros H. injection H as <-.
  eapply consistent_frame; [..|eapply consistent_slideshowAction; eassumption];
    reflexivity.
Qed.

Lemma consistent_toggleSlideshow (h : nat) (rnd : list nat) (s s' : State) :
  consistent B s -> toggleSlideshow B h rnd s = Some s' -> consistent B s'.
Proof.
  intros Hs. unfold toggleSlideshow. destruct (slideshowActive s).
  - intros H. injection H as <-. now apply consistent_stopSlideshow.
  - now apply consistent_startSlideshow.
Qed.

Lemma consistent_intervalTick (h : nat) (rnd : list nat) (s s' : State) :
  consistent B s -> intervalTick B h rnd s = Some s' -> consistent B s'.
Proof.
  intros Hs. unfold intervalTick.
  destruct (existsb (Nat.eqb h) (timers s)); [|discriminate].
  now apply consistent_slideshowAction.
Qed.

Lemma consistent_goToRandomFolder (rnd : list nat) (s s' : State) :
  consistent B s -> goToRandomFolder B rnd s = Some s' -> consistent B s'.
Proof.
  intros Hs. unfold goToRandomFolder.
  destruct ((len (leafFolderList s) =? 0)%Z || isTreeLoading s);
    [intros H; injection H as <-; exact Hs|].
  match goal with
  | |- match ?pick with _ => _ end = _ -> _ =>
      destruct pick as [randomIndex|]; [|discriminate]
  end.
  destruct (nth_error (leafFolderList s) randomIndex) as [randomFolder|];
    [|intros H; injection H as <-; exact Hs].
  destruct (truthy randomFolder); intros H; injection H as <-;
    [now apply consistent_handleFolderSelected|exact Hs].
Qed.

Lemma consistent_goToNextLeafFolder (s : State) :
  consistent B s -> consistent B (goToNextLeafFolder B s).
Proof.
  intros Hs. unfold goToNextLeafFolder.
  repeat match goal with
         | |- consistent B (if ?c then _ else _) => destruct c
         | |- consistent B (match ?x with _ => _ end) => destruct x
         end; try exact Hs; now apply consistent_handleFolderSelected.
Qed.

Lemma consistent_goToPrevLeafFolder (s : State) :
  consistent B s -> consistent B (goToPrevLeafFolder B s).
Proof.
  intros Hs. unfold goToPrevLeafFolder.
  repeat match goal with
         | |- consistent B (if ?c then _ else _) => destruct c
         | |- consistent B (match ?x with _ => _ end) => destruct x
         end; try exact Hs; now apply consistent_handleFolderSelected.
Qed.

Lemma consistent_handleKeydown (key : Key) (h : nat) (rnd : list nat) (s s' : State) :
  consistent B s -> handleKeydown B key h rnd s = Some s' -> consistent B s'.
Proof.
  intros Hs. unfold handleKeydown. destruct key.
  - intros H. injection H as <-. now apply consistent_nextImage.
  - intros H. injection H as <-. now apply consistent_prevImage.
  - now apply consistent_toggleSlideshow.
  - intros H. injection H as <-. exact Hs.
Qed.

Lemma consistent_handleWheel (deltaY : Z) (s : State) :
  consistent B s -> consistent B (handleWheel B deltaY s).
Proof.
  intros Hs. unfold handleWheel.
  repeat match goal with
         | |- consistent B (if ?c then _ else _) => destruct c
         end; try exact Hs;
    [now apply consistent_prevImage|now apply consistent_nextImage].
Qed.

(** Every event keeps the state consistent. *)
Lemma consistent_handle (e : Event) (s s' : State) :
  consistent B s -> handle B e s = Some s' -> consistent B s'.
Proof.
  intros Hs. destruct e; cbn [handle].
  - intros H. injection H as <-. now apply consistent_selectFolder.
  - intros H. injection H as <-. now apply consistent_handleFolderSelected.
  - intros H. injection H as <-. now apply consistent_goToLastVisitedFolder.
  - intros H. injection H as <-. now apply consistent_nextImage.
  - intros H. injection H as <-. now apply consistent_prevImage.
  - intros H. injection H as <-. now apply consistent_goToPrevLeafFolder.
  - intros H. injection H as <-. now apply consistent_goToNextLeafFolder.
  - now apply consistent_goToRandomFolder.
  - destruct (existsb (Nat.eqb h) (timers s)); [discriminate|].
    now apply consistent_toggleSlideshow.
  - destruct (slideshowActive s || isLoading s); [discriminate|].
    intros H. injection H as <-.
    eapply consistent_frame; [..|exact Hs]; reflexivity.
  - destruct (slideshowActive s || isLoading s); [discriminate|].
    intros H. injection H as <-.
    eapply consistent_frame; [..|exact Hs]; reflexivity.
  - destruct (existsb (Nat.eqb h) (timers s)); [discriminate|].
    now apply consistent_handleKeydown.
  - intros H. injection H as <-. now apply consistent_handleWheel.
  - now apply consistent_intervalTick.
  - destruct (k <? List.length (prefetches s))%nat; [|discriminate].
    intros H. injection H as <-. now apply consistent_settlePrefetch.
  - intros H. injection H as <-. now apply consistent_stopSlideshow.
Qed.

Lemma consistent_initialState : consistent B initialState.
Proof.
  split; [|split].
  - apply position_ok_intro. left. split; reflexivity.
  - discriminate.
  - constructor.
Qed.

Lemma consistent_run (es : list Event) (s s' : State) :
  consistent B s -> run B es s = Some s' -> consistent B s'.
Proof.
  revert s. induction es as [|e rest IH]; intros s Hs; cbn [run].
  - intros H. injection H as <-. exact Hs.
  - destruct (handle B e s) as [s1|] eqn:E; [|discriminate].
    apply IH. eapply consistent_handle; eassumption.
Qed.

(** Over a disk that does not change, with every event run to
    completion before the next: in every state the component reaches,
    and so after every operation (browsing, a click in the tree, next,
    previous, the folder jumps, the random jump, the slideshow and its
    ticks, a prefetch that settles), the index lies inside the image
    list when the list is not empty, and it is [-1] exactly when the
    list is empty.  Over a disk that changes the invariant can be lost:
    see [position_invariant_lost_on_emptied_folder]. *)
Theorem position_invariant_reachable (s : State) :
  reachable B s ->
  (images s <> [] -> (0 <= currentIndex s < len (images s))%Z)
  /\ (currentIndex s = (-1)%Z <-> images s = []).
Proof.
  intros [es Hrun].
  exact (proj1 (consistent_run es consistent_initialState Hrun)).
Qed.

(** Each operation on its own keeps the invariant as well, from any
    consistent state. *)
Lemma position_invariant_step (e : Event) (s s' : State) :
  consistent B s -> handle B e s = Some s' -> position_invariant s'.
Proof. intros Hs He. exact (proj1 (consistent_handle e Hs He)). Qed.
End ViewerFacts.

(** ** The traversal orders of the viewer *)
Section TraversalOrders.
Import App ImageViewer.

Local Arguments String.eqb : simpl never.

Lemma flattenNode_unfold (name path : string) (children : list Folder) :
  flattenNode (mkFolder name path children)
  = path :: flat_map flattenNode children.
Proof. reflexivity. Qed.

Lemma leafNode_unfold (name path : string) (children : list Folder) :
  leafNode (mkFolder name path children)
  = match children with
    | [] => [path]
    | _ => flat_map leafNode children
    end.
Proof. destruct children; reflexivity. Qed.

Lemma subsequence_refl (l : list string) : subsequence l l.
Proof. induction l; [constructor|apply subsequence_take; assumption]. Qed.

Lemma subsequence_app (a b c d : list string) :
  subsequence a b -> subsequence c d -> subsequence (a ++ c) (b ++ d).
Proof.
  induction 1 as [|x a b _ IH|x a b _ IH]; intros Hcd; cbn [app];
    [assumption|apply subsequence_skip; auto|apply subsequence_take; auto].
Qed.

Lemma subsequence_In (l1 l2 : list string) (x : string) :
  subsequence l1 l2 -> In x l1 -> In x l2.
Proof.
  induction 1 as [|y l1 l2 _ IH|y l1 l2 _ IH]; intros Hin; [assumption| |].
  - right. auto.
  - destruct Hin as [->|Hin]; [now left|right; auto].
Qed.

Lemma leafNode_nonempty (f : Folder) : leafNode f <> [].
Proof.
  induction f as [name path children IH] using Folder_forall_ind.
  rewrite leafNode_unfold. destruct children as [|c rest]; [discriminate|].
  inversion IH as [|? ? Hc _]; subst. cbn [flat_map].
  destruct (leafNode c); [contradiction|discriminate].
Qed.

Lemma leafNode_subsequence (f : Folder) :
  subsequence (leafNode f) (flattenNode f).
Proof.
  induction f as [name path children IH] using Folder_forall_ind.
  rewrite leafNode_unfold, flattenNode_unfold.
  assert (H : subsequence (flat_map leafNode children)
                          (flat_map flattenNode children)).
  { induction IH as [|c rest Hc _ IHrest]; [constructor|].
    cbn [flat_map]. now apply subsequence_app. }
  destruct children as [|c rest].
  - apply subsequence_take. constructor.
  - apply subsequence_skip. exact H.
Qed.

Lemma last_app_nonempty (l1 l2 : list string) (d : string) :
  l2 <> [] -> last (l1 ++ l2) d = last l2 d.
Proof.
  intros H. induction l1 as [|a l1 IH]; [reflexivity|].
  cbn [app]. destruct (l1 ++ l2)%list eqn:E; [|exact IH].
  apply app_eq_nil in E. destruct E as [_ E]. contradiction.
Qed.

Lemma flattenNode_nonempty (f : Folder) : flattenNode f <> [].
Proof. destruct f. rewrite flattenNode_unfold. discriminate. Qed.

Lemma flat_map_last (g h : Folder -> list string) (cs : list Folder) (d : string) :
  Forall (fun c => g c <> [] /\ h c <> [] /\ last (g c) d = last (h c) d) cs ->
  cs <> [] ->
  flat_map g cs <> [] /\ flat_map h cs <> []
  /\ last (flat_map g cs) d = last (flat_map h cs) d.
Proof.
  induction 1 as [|c rest (Hg & Hh & Hl) Hrest IH]; intros Hne; [contradiction|].
  cbn [flat_map]. destruct rest as [|c' rest'].
  - cbn [flat_map]. rewrite !app_nil_r. auto.
  - destruct IH as (A & B & C); [discriminate|].
    rewrite !last_app_nonempty by assumption.
    repeat split; try assumption;
      intros E; apply app_eq_nil in E; destruct E as [E _]; contradiction.
Qed.

(** The last folder in pre-order has no children. *)
Lemma last_flat_is_last_leaf (f : Folder) (d : string) :
  last (flattenNode f) d = last (leafNode f) d.
Proof.
  induction f as [name path children IH] using Folder_forall_ind.
  rewrite leafNode_unfold, flattenNode_unfold.
  destruct children as [|c rest]; [reflexivity|].
  destruct (@flat_map_last flattenNode leafNode (c :: rest) d) as (A & B & C).
  - eapply Forall_impl; [|exact IH]. intros g Hg.
    split; [apply flattenNode_nonempty|]. split; [apply leafNode_nonempty|exact Hg].
  - discriminate.
  - change (path :: flat_map flattenNode (c :: rest))
      with ([path] ++ flat_map flattenNode (c :: rest))%list.
    now rewrite last_app_nonempty.
Qed.

(** X8.  For every folder tree, the leaf list that [getLeafFolders] computes
    is not empty, it is the flat list of [flattenTree] with some entries
    left out, so every leaf folder is in the flat list and the two lists
    agree on the order, and both lists end with the same folder. *)
Theorem getLeafFolders_within_flattenTree (tree : Folder) :
  getLeafFolders (Some tree) <> []
  /\ subsequence (getLeafFolders (Some tree)) (flattenTree (Some tree))
  /\ (forall x, In x (getLeafFolders (Some tree)) -> In x (flattenTree (Some tree)))
  /\ last (flattenTree (Some tree)) "" = last (getLeafFolders (Some tree)) "".
Proof.
  cbn [getLeafFolders flattenTree]. split; [apply leafNode_nonempty|].
  split; [apply leafNode_subsequence|]. split.
  - intros x. apply (@subsequence_In _ _ x (leafNode_subsequence tree)).
  - apply last_flat_is_last_leaf.
Qed.

(** *** The next leaf folder, read off a tree *)

Lemma subsequence_filter (l1 l2 : list string) :
  subsequence l1 l2 -> NoDup l2 ->
  forall P : string -> bool,
    (forall x, In x l2 -> (P x = true <-> In x l1)) ->
    l1 = filter P l2.
Proof.
  induction 1 as [|x l1 l2 Hsub IH|x l1 l2 Hsub IH]; intros Hnd P HP;
    [reflexivity| |]; inversion Hnd as [|? ? Hnot Hnd']; subst; cbn [filter].
  - assert (Hx : P x = false).
    { destruct (P x) eqn:E; [|reflexivity]. exfalso. apply Hnot.
      apply (@subsequence_In _ _ x Hsub). apply HP; [now left|exact E]. }
    rewrite Hx. apply IH; [assumption|].
    intros y Hy. apply HP. now right.
  - assert (Hx : P x = true) by (apply HP; now left).
    rewrite Hx. f_equal. apply IH; [assumption|].
    intros y Hy. rewrite (HP y) by now right.
    split; [|now right].
    intros [->|H]; [contradiction|assumption].
Qed.

Lemma find_filter (P : string -> bool) (l : list string) :
  find P l = hd_error (filter P l).
Proof.
  induction l as [|a l IH]; [reflexivity|].
  cbn [find filter]. destruct (P a); [reflexivity|exact IH].
Qed.

Lemma at_index_after (pre post : list string) (x : string) :
  at_index (pre ++ x :: post) (len pre + 1) = hd_error post.
Proof.
  unfold at_index. pose proof (len_nonneg pre).
  destruct (len pre + 1 <? 0)%Z eqn:E; [apply Z.ltb_lt in E; lia|].
  unfold len.
  replace (Z.to_nat (Z.of_nat (List.length pre) + 1)) with (S (List.length pre)) by lia.
  clear. induction pre as [|a pre IH]; [now destruct post|exact IH].
Qed.

(** The scan of the flat list finds the entry after the current folder
    in the leaf list, whenever the leaf list is a subsequence of a flat
    list without repetitions. *)
Lemma nextLeafFolder_in_leaf_list (s : State) :
  subsequence (leafFolderList s) (flatFolderList s) ->
  NoDup (flatFolderList s) ->
  In (currentFolder s) (leafFolderList s) ->
  nextLeafFolder s
  = at_index (leafFolderList s)
             (indexOf (leafFolderList s) (currentFolder s) + 1).
Proof.
  intros Hsub Hnd Hin.
  pose proof (@subsequence_filter _ _ Hsub Hnd (includes (leafFolderList s))
                (fun x _ => includes_In (leafFolderList s) x)) as Hfilter.
  pose proof (@subsequence_In _ _ _ Hsub Hin) as Hinflat.
  destruct (first_occurrence _ _ Hinflat) as (pre & post & Hsplit & Hpre).
  assert (Hnext : nextLeafFolder s
                  = find (includes (leafFolderList s)) post).
  { unfold nextLeafFolder.
    rewrite Hsplit, (@indexOf_first pre post _ Hpre), skipn_after.
    pose proof (len_nonneg pre).
    destruct (len pre =? -1)%Z eqn:E; [apply Z.eqb_eq in E; lia|reflexivity]. }
  rewrite Hnext, find_filter.
  assert (Hcur : includes (leafFolderList s) (currentFolder s) = true)
    by now apply includes_In.
  assert (Hl : leafFolderList s
               = (filter (includes (leafFolderList s)) pre
                  ++ currentFolder s
                  :: filter (includes (leafFolderList s)) post)%list).
  { rewrite Hfilter at 1. rewrite Hsplit, filter_app. cbn [filter].
    now rewrite Hcur. }
  rewrite Hl at 2 3.
  rewrite indexOf_first, at_index_after; [reflexivity|].
  intros Hc. apply filter_In in Hc. destruct Hc as [Hc _]. contradiction.
Qed.

(** X9.  From a leaf folder, the folder [nextImage] crosses into, found by
    scanning the flat list, is the entry after the current folder in the
    leaf list, which is where [goToNextLeafFolder] goes: the two ways of
    advancing agree, for lists that come from one tree in which no path
    occurs twice. *)
Theorem nextLeafFolder_is_next_in_leaf_list (s : State) (tree : Folder) :
  flatFolderList s = flattenTree (Some tree) ->
  leafFolderList s = getLeafFolders (Some tree) ->
  NoDup (flatFolderList s) ->
  In (currentFolder s) (leafFolderList s) ->
  nextLeafFolder s
  = at_index (leafFolderList s)
             (indexOf (leafFolderList s) (currentFolder s) + 1).
Proof.
  intros Hflat Hleaf Hnd Hin.
  apply nextLeafFolder_in_leaf_list; [|assumption|assumption].
  rewrite Hflat, Hleaf. apply leafNode_subsequence.
Qed.

(** X10.  With the lists of one tree, there is a next leaf folder exactly when
    the current folder is in the flat list and is not its last entry:
    sequential navigation can go on from every folder of the tree but
    the last one in pre-order. *)
Theorem hasNextLeafFolder_unless_last (s : State) (tree : Folder) :
  flatFolderList s = flattenTree (Some tree) ->
  leafFolderList s = getLeafFolders (Some tree) ->
  hasNextLeafFolder s = true
  <-> (0 <= indexOf (flatFolderList s) (currentFolder s)
       < len (flatFolderList s) - 1)%Z.
Proof.
  intros Hflat Hleaf.
  assert (Hlast : In (last (flatFolderList s) "") (leafFolderList s)).
  { rewrite Hflat, Hleaf. cbn [flattenTree getLeafFolders].
    rewrite last_flat_is_last_leaf.
    pose proof (leafNode_nonempty tree) as Hne.
    destruct (leafNode tree) as [|a l] using rev_ind; [contradiction|].
    rewrite last_last. apply in_or_app. right. now left. }
  unfold hasNextLeafFolder, nextLeafFolder.
  destruct (indexOf (flatFolderList s) (currentFolder s) =? -1)%Z eqn:E.
  - apply Z.eqb_eq in E. cbn [orb]. split; [discriminate|lia].
  - apply Z.eqb_neq in E.
    destruct (first_occurrence _ _ (indexOf_found _ _ E)) as (pre & post & Hsplit & Hpre).
    assert (Hidx : indexOf (flatFolderList s) (currentFolder s) = len pre).
    { rewrite Hsplit at 1. now apply indexOf_first. }
    assert (Hlen : len (flatFolderList s) = (len pre + 1 + len post)%Z).
    { rewrite Hsplit, len_app. unfold len. cbn [List.length]. lia. }
    pose proof (len_nonneg pre). pose proof (len_nonneg post).
    assert (E0 : (len (flatFolderList s) =? 0)%Z = false)
      by (apply Z.eqb_neq; lia).
    rewrite E0. cbn [orb].
    assert (Hskip : skipn (Z.to_nat (indexOf (flatFolderList s) (currentFolder s) + 1))
                          (flatFolderList s) = post).
    { rewrite Hidx, Hsplit. apply skipn_after. }
    rewrite Hskip, Hidx, Hlen.
    destruct post as [|p post'].
    + cbn [find]. unfold len. cbn [List.length]. split; [discriminate|lia].
    + split; [intros _; unfold len; cbn [List.length]; lia|intros _].
      destruct (find (includes (leafFolderList s)) (p :: post')) eqn:Ef;
        [reflexivity|exfalso].
      assert (Hl : last (flatFolderList s) "" = last (p :: post') "").
      { rewrite Hsplit.
        change (pre ++ currentFolder s :: p :: post')%list
          with (pre ++ [currentFolder s] ++ p :: post')%list.
        rewrite app_assoc. apply last_app_nonempty. discriminate. }
      rewrite Hl in Hlast.
      pose proof (find_none _ _ Ef (last (p :: post') "")) as Hnone.
      rewrite (proj2 (includes_In _ _) Hlast) in Hnone.
      enough (true = false) by discriminate. apply Hnone.
      clear. generalize p. induction post' as [|q r IH]; intros p0.
      * now left.
      * right. exact (IH q).
Qed.
End TraversalOrders.

(** ** What the viewer shows *)
Section ViewerCoherence.
Import App ImageViewer.

Variable B : Bindings.

Local Arguments preloadNextImage : simpl never.
Local Arguments displayCurrentImage : simpl never.
Local Arguments loadImagesForPath : simpl never.
Local Arguments handleFolderSelected : simpl never.
Local Arguments stopSlideshow : simpl never.
Local Arguments nextLeafFolder : simpl never.
Local Arguments nextImage : simpl never.
Local Arguments validateDelay : simpl never.
Local Arguments prevImage : simpl never.
Local Arguments String.eqb : simpl never.

(** Boolean conditions as propositions. *)
Ltac props :=
  repeat match goal with
         | H : _ && _ = true |- _ => apply andb_true_iff in H; destruct H
         | H : _ || _ = false |- _ => apply orb_false_iff in H; destruct H
         | H : (_ =? _)%Z = true |- _ => apply Z.eqb_eq in H
         | H : (_ =? _)%Z = false |- _ => apply Z.eqb_neq in H
         | H : (_ <? _)%Z = true |- _ => apply Z.ltb_lt in H
         | H : (_ <? _)%Z = false |- _ => apply Z.ltb_ge in H
         | H : (_ >=? _)%Z = true |- _ => apply Z.geb_le in H
         | H : (_ >=? _)%Z = false |- _ => rewrite Z.geb_leb in H; apply Z.leb_gt in H
         | H : (_ >? _)%Z = true |- _ => apply Z.gtb_lt in H
         | H : (_ >? _)%Z = false |- _ => rewrite Z.gtb_ltb in H; apply Z.ltb_ge in H
         | H : (_ =? _)%string = true |- _ => apply String.eqb_eq in H
         | H : (_ =? _)%string = false |- _ => apply String.eqb_neq in H
         | H : negb _ = true |- _ => apply negb_true_iff in H
         | H : negb _ = false |- _ => apply negb_false_iff in H
         | H : truthy _ = true |- _ => apply negb_true_iff, String.eqb_neq in H
         end.

Lemma at_index_in_range (l : list string) (i : Z) :
  (0 <= i < len l)%Z -> exists p, at_index l i = Some p.
Proof.
  intros H. unfold at_index.
  destruct (i <? 0)%Z eqn:E; [apply Z.ltb_lt in E; lia|].
  destruct (nth_error l (Z.to_nat i)) as [p|] eqn:En; [now exists p|].
  apply nth_error_None in En. unfold len in H. lia.
Qed.

(** A step that leaves the position, the image shown, the preload slot
    and the reads in flight as they are keeps the state coherent. *)
Lemma coherent_frame (s s' : State) :
  currentFolder s' = currentFolder s ->
  images s' = images s ->
  currentIndex s' = currentIndex s ->
  currentImageSrc s' = currentImageSrc s ->
  preloadedImageSrc s' = preloadedImageSrc s ->
  preloadedIndex s' = preloadedIndex s ->
  preloadedFolder s' = preloadedFolder s ->
  prefetches s' = prefetches s ->
  coherent B s -> coherent B s'.
Proof.
  unfold coherent. intros -> -> -> -> -> -> -> ->. tauto.
Qed.

(** A new position with the image that belongs to it, and a preload
    slot that is emptied or left alone. *)
Lemma coherent_parts (s s' : State) :
  (images s' <> [] -> ListImages B (currentFolder s') = Ok (images s')) ->
  (currentImageSrc s' <> "" ->
   exists path, at_index (images s') (currentIndex s') = Some path
                /\ ReadImage B path = Ok (currentImageSrc s')) ->
  preloadedImageSrc s' = ""
  \/ (preloadedImageSrc s' = preloadedImageSrc s
      /\ preloadedIndex s' = preloadedIndex s
      /\ preloadedFolder s' = preloadedFolder s) ->
  prefetches s' = prefetches s ->
  coherent B s -> coherent B s'.
Proof.
  intros HL HD HS HF (_ & _ & S & F).
  split; [exact HL|]. split; [exact HD|]. split; [|now rewrite HF].
  destruct HS as [E|(E1 & E2 & E3)].
  - intros C. contradiction.
  - rewrite E1, E2, E3. exact S.
Qed.

Lemma stopSlideshow_frame (s : State) :
  currentFolder (stopSlideshow s) = currentFolder s
  /\ images (stopSlideshow s) = images s
  /\ currentIndex (stopSlideshow s) = currentIndex s
  /\ currentImageSrc (stopSlideshow s) = currentImageSrc s
  /\ preloadedImageSrc (stopSlideshow s) = preloadedImageSrc s
  /\ preloadedIndex (stopSlideshow s) = preloadedIndex s
  /\ preloadedFolder (stopSlideshow s) = preloadedFolder s
  /\ prefetches (stopSlideshow s) = prefetches s.
Proof. unfold stopSlideshow. destruct (slideshowInterval s); repeat split. Qed.

Lemma coherent_stopSlideshow (s : State) :
  coherent B s -> coherent B (stopSlideshow s).
Proof.
  destruct (stopSlideshow_frame s) as (H1 & H2 & H3 & H4 & H5 & H6 & H7 & H8).
  now apply coherent_frame.
Qed.

Lemma coherent_clearPreload (s : State) :
  coherent B s -> coherent B (clearPreload s).
Proof.
  intros Hs. pose proof Hs as (L & D & _ & _).
  eapply (@coherent_parts s); [exact L|exact D|left; reflexivity|reflexivity|exact Hs].
Qed.

Lemma coherent_preloadNextImage (s : State) :
  coherent B s -> coherent B (preloadNextImage B s).
Proof.
  intros Hs. pose proof Hs as (L & D & _ & F).
  unfold preloadNextImage.
  destruct (slideshowActive s && negb (is_sequence (slideshowMode s)));
    [now apply coherent_clearPreload|].
  cbn [images flatFolderList currentIndex currentFolder clearPreload
       set_preloadedFolder set_preloadedIndex set_preloadedImageSrc].
  destruct ((len (images s) <? 1)%Z && (len (flatFolderList s) <? 1)%Z);
    [now apply coherent_clearPreload|].
  match goal with
  | |- coherent B match ?target with _ => _ end =>
      assert (Htarget : forall path idx folder data,
                 target = Some (Some path, idx, folder) ->
                 ReadImage B path = Ok data ->
                 payload_of B data idx folder);
      [|destruct target as [[[[path|] idx] folder]|] eqn:Et;
        try now apply coherent_clearPreload]
  end.
  - intros path idx folder data.
    destruct ((len (images s) =? 0)%Z || (currentIndex s + 1 >=? len (images s))%Z) eqn:E.
    + unfold nextLeafFolder. cbn.
      fold (nextLeafFolder s).
      destruct (nextLeafFolder s) as [nf|]; [|discriminate].
      destruct (ListImages B nf) as [[|first rest]|] eqn:El; try discriminate.
      intros Heq Hdata. injection Heq as <- <- <-.
      exists (first :: rest), first. repeat split; assumption.
    + props. intros Heq Hdata. injection Heq as Hat <- <-.
      exists (images s), path. split; [|split; assumption].
      apply L. intros C. rewrite C in *. unfold len in *. simpl in *. lia.
  - destruct (negb (truthy path)); [now apply coherent_clearPreload|].
    split; [exact L|]. split; [exact D|]. split; [intros C; contradiction|].
    cbn. apply Forall_app. split; [assumption|].
    constructor; [|constructor].
    destruct (ReadImage B path) as [data|err] eqn:Er; [|exact I].
    cbn. eapply Htarget; [reflexivity|exact Er].
Qed.

Lemma coherent_settlePrefetch (k : nat) (s : State) :
  coherent B s -> coherent B (settlePrefetch k s).
Proof.
  intros Hs. pose proof Hs as (L & D & S & F). unfold settlePrefetch.
  destruct (nth_error (prefetches s) k) as [outcome|] eqn:E; [|exact Hs].
  assert (Hok : prefetch_current B outcome).
  { apply nth_error_In in E. rewrite Forall_forall in F. now apply F. }
  pose proof (Forall_without k F) as Hrest.
  destruct outcome as [data idx folder|].
  - split; [exact L|]. split; [exact D|]. split; [intros _; exact Hok|exact Hrest].
  - split; [exact L|]. split; [exact D|]. split; [intros C; contradiction|exact Hrest].
Qed.

(** [displayCurrentImage] puts the image of the position on screen,
    whatever was there before. *)
Lemma coherent_displayCurrentImage (s s0 : State) :
  (images s <> [] -> ListImages B (currentFolder s) = Ok (images s)) ->
  preloadedImageSrc s = ""
  \/ (preloadedImageSrc s = preloadedImageSrc s0
      /\ preloadedIndex s = preloadedIndex s0
      /\ preloadedFolder s = preloadedFolder s0) ->
  prefetches s = prefetches s0 ->
  coherent B s0 ->
  coherent B (displayCurrentImage B s).
Proof.
  intros L S F Hs0. unfold displayCurrentImage.
  destruct ((currentIndex s >=? 0)%Z && (currentIndex s <? len (images s))%Z) eqn:E.
  - cbn [images currentIndex set_isLoading].
    destruct (at_index (images s) (currentIndex s)) as [imagePath|] eqn:Ea.
    + destruct (ReadImage B imagePath) as [data|err] eqn:Er.
      * assert (H1 : coherent B (set_currentImageSrc data (set_isLoading true s))).
        { eapply (@coherent_parts s0); [exact L| |exact S|exact F|exact Hs0].
          intros _. exists imagePath. split; assumption. }
        apply coherent_preloadNextImage in H1.
        eapply coherent_frame; [..|exact H1]; reflexivity.
      * eapply (@coherent_parts s0); [exact L| |left; reflexivity|exact F|exact Hs0].
        intros C. contradiction C. reflexivity.
    + props. destruct (@at_index_in_range (images s) (currentIndex s)) as [p Hp];
        [lia|congruence].
  - cbn [slideshowMode set_currentImageSrc].
    assert (H0 : coherent B (set_currentImageSrc "" s)).
    { eapply (@coherent_parts s0); [exact L| |exact S|exact F|exact Hs0].
      intros C. contradiction C. reflexivity. }
    destruct (is_sequence (slideshowMode s));
      [now apply coherent_preloadNextImage|exact H0].
Qed.

Lemma coherent_loadImagesForPath (p : string) (s : State) :
  coherent B s -> coherent B (loadImagesForPath B p s).
Proof.
  intros Hs. unfold loadImagesForPath.
  destruct (negb (truthy p)); [exact Hs|].
  assert (H0 : coherent B (stopSlideshow (set_isLoading true s))).
  { apply coherent_stopSlideshow.
    eapply coherent_frame; [..|exact Hs]; reflexivity. }
  destruct (ListImages B p) as [imgs|err] eqn:El.
  - match goal with
    | |- coherent B (set_isLoading false (displayCurrentImage B ?t)) =>
        assert (H1 : coherent B (displayCurrentImage B t))
    end.
    { eapply (@coherent_displayCurrentImage _ (stopSlideshow (set_isLoading true s)));
        [intros _; exact El|left; reflexivity|reflexivity|exact H0]. }
    eapply coherent_frame; [..|exact H1]; reflexivity.
  - eapply (@coherent_parts (stopSlideshow (set_isLoading true s)));
      [| |left; reflexivity|reflexivity|exact H0];
      intros C; contradiction C; reflexivity.
Qed.

Lemma coherent_loadFolderTree (p : string) (s : State) :
  coherent B s -> coherent B (loadFolderTree B p s).
Proof.
  intros Hs. unfold loadFolderTree.
  destruct (negb (truthy p)); [exact Hs|].
  destruct (ListSubfolders B p);
    (eapply coherent_frame; [..|exact Hs]; reflexivity).
Qed.

Lemma coherent_selectFolder (dialog : Result string) (s : State) :
  coherent B s -> coherent B (selectFolder B dialog s).
Proof.
  intros Hs. unfold selectFolder.
  match goal with
  | |- coherent B match dialog with
                  | Ok selectedPath => if _ then _ (_ selectedPath ?s0) else _
                  | Err _ => _
                  end =>
      assert (H0 : coherent B s0)
  end.
  { eapply (@coherent_parts s);
      [| |right; repeat split|reflexivity|exact Hs];
      intros C; contradiction C; reflexivity. }
  destruct dialog as [selectedPath|err].
  - destruct (truthy selectedPath); [|exact H0].
    now apply coherent_loadFolderTree, coherent_loadImagesForPath.
  - eapply coherent_frame; [..|exact H0]; reflexivity.
Qed.

Lemma coherent_handleFolderSelected (p : string) (s : State) :
  coherent B s -> coherent B (handleFolderSelected B p s).
Proof.
  intros Hs. unfold handleFolderSelected.
  destruct (negb (truthy p)); [exact Hs|].
  destruct (p =? currentFolder s); [exact Hs|].
  apply coherent_clearPreload, coherent_loadImagesForPath.
  destruct (truthy (currentFolder s) && negb (currentFolder s =? p)); [|exact Hs].
  eapply coherent_frame; [..|exact Hs]; reflexivity.
Qed.

Lemma coherent_goToLastVisitedFolder (s : State) :
  coherent B s -> coherent B (goToLastVisitedFolder B s).
Proof.
  intros Hs. unfold goToLastVisitedFolder.
  destruct (negb (truthy (lastVisitedFolder s)) || isTreeLoading s); [exact Hs|].
  now apply coherent_handleFolderSelected.
Qed.

(** Taking the image out of the preload slot puts on screen the image
    of the position the slot was filled for. *)
Lemma coherent_nextImage (s : State) :
  coherent B s -> coherent B (nextImage B s).
Proof.
  intros Hs. pose proof Hs as (L & D & S & F).
  unfold nextImage.
  destruct ((len (images s) =? 0)%Z && (len (flatFolderList s) =? 0)%Z); [exact Hs|].
  destruct ((len (images s) =? 0)%Z || (currentIndex s + 1 >=? len (images s))%Z) eqn:E.
  - destruct (nextLeafFolder s) as [target|]; [|now apply coherent_stopSlideshow].
    cbn [andb].
    destruct ((target =? preloadedFolder s) && (0 =? preloadedIndex s)%Z
              && truthy (preloadedImageSrc s)) eqn:Eslot;
      [|now apply coherent_handleFolderSelected].
    props.
    destruct (S ltac:(assumption)) as (imgs & path & Hlist & Hat & Hread).
    subst target.
    match goal with H : 0%Z = preloadedIndex s |- _ => rewrite <- H in Hat end.
    rewrite Hlist.
    match goal with
    | |- coherent B (set_isLoading false (preloadNextImage B ?t)) =>
        assert (Hinner : coherent B t)
    end.
    { eapply (@coherent_parts s); [| |left; reflexivity|reflexivity|exact Hs].
      - intros _. exact Hlist.
      - intros _. exists path. split; assumption. }
    apply coherent_preloadNextImage in Hinner.
    eapply coherent_frame; [..|exact Hinner]; reflexivity.
  - cbn [andb negb].
    destruct (is_sequence (slideshowMode s) && (currentIndex s + 1 =? preloadedIndex s)%Z
              && (currentFolder s =? preloadedFolder s)
              && truthy (preloadedImageSrc s)) eqn:Eslot.
    + props.
      destruct (S ltac:(assumption)) as (imgs & path & Hlist & Hat & Hread).
      assert (Himgs : imgs = images s).
      { assert (Hne : images s <> []).
        { intros C. rewrite C in *. unfold len in *. simpl in *. lia. }
        specialize (L Hne).
        match goal with H : currentFolder s = preloadedFolder s |- _ =>
                          rewrite <- H in Hlist end.
        congruence. }
      subst imgs.
      match goal with H : (currentIndex s + 1)%Z = preloadedIndex s |- _ =>
                        rewrite <- H in Hat end.
      match goal with
      | |- coherent B (set_isLoading false (preloadNextImage B ?t)) =>
          assert (Hinner : coherent B t)
      end.
      { eapply (@coherent_parts s); [exact L| |left; reflexivity|reflexivity|exact Hs].
        intros _. exists path. split; assumption. }
      apply coherent_preloadNextImage in Hinner.
      eapply coherent_frame; [..|exact Hinner]; reflexivity.
    + eapply (@coherent_displayCurrentImage _ s);
        [exact L|right; repeat split|reflexivity|exact Hs].
Qed.

Lemma coherent_prevImage (s : State) :
  coherent B s -> coherent B (prevImage B s).
Proof.
  intros Hs. pose proof Hs as (L & _). unfold prevImage.
  destruct (len (images s) =? 0)%Z; [exact Hs|].
  eapply (@coherent_displayCurrentImage _ s);
    [exact L|left; reflexivity|reflexivity|exact Hs].
Qed.

Lemma coherent_displayRandomImageInFolder (rnd : list nat) (s s' : State) :
  coherent B s ->
  displayRandomImageInFolder B rnd s = Some s' ->
  coherent B s'.
Proof.
  intros Hs. pose proof Hs as (L & _). unfold displayRandomImageInFolder.
  destruct (len (images s) <? 1)%Z; [intros H; injection H as <-; exact Hs|].
  destruct (if (len (images s) =? 1)%Z then Some 0%nat
            else first_draw (List.length (images s))
                            (fun r => (Z.of_nat r =? currentIndex s)%Z) rnd)
    as [r|]; [|discriminate].
  intros H. injection H as <-.
  eapply (@coherent_displayCurrentImage _ s);
    [exact L|right; repeat split|reflexivity|exact Hs].
Qed.

Lemma nth_error_at_index (l : list string) (i : nat) :
  at_index l (Z.of_nat i) = nth_error l i.
Proof.
  unfold at_index. destruct (Z.of_nat i <? 0)%Z eqn:E; [apply Z.ltb_lt in E; lia|].
  now rewrite Nat2Z.id.
Qed.

Lemma coherent_displayRandomImageInAllFolders (u1 u2 : nat) (s : State) :
  coherent B s -> coherent B (displayRandomImageInAllFolders B u1 u2 s).
Proof.
  intros Hs. unfold displayRandomImageInAllFolders.
  destruct (len (leafFolderList s) =? 0)%Z; [exact Hs|].
  cbn [leafFolderList set_isLoading].
  destruct (nth_error (leafFolderList s)
                      (random_below u1 (List.length (leafFolderList s))))
    as [randomFolderPath|];
    [|eapply coherent_frame; [..|exact Hs]; reflexivity].
  destruct (ListImages B randomFolderPath) as [imgs|err] eqn:El.
  - destruct (len imgs >? 0)%Z;
      [|eapply coherent_frame; [..|exact Hs]; reflexivity].
    destruct (nth_error imgs (random_below u2 (List.length imgs))) as [path|] eqn:En;
      [|eapply coherent_frame; [..|exact Hs]; reflexivity].
    destruct (ReadImage B path) as [data|err] eqn:Er.
    + eapply (@coherent_parts s); [| |right; repeat split|reflexivity|exact Hs].
      * intros _. exact El.
      * intros _. exists path. split; [|exact Er].
        cbn. rewrite nth_error_at_index. exact En.
    + eapply (@coherent_parts s); [| |right; repeat split|reflexivity|exact Hs];
        intros C; contradiction C; reflexivity.
  - eapply (@coherent_parts s); [| |right; repeat split|reflexivity|exact Hs];
      intros C; contradiction C; reflexivity.
Qed.

Lemma coherent_slideshowAction (rnd : list nat) (s s' : State) :
  coherent B s -> slideshowAction B rnd s = Some s' -> coherent B s'.
Proof.
  intros Hs. unfold slideshowAction. destruct (slideshowMode s).
  - intros H. injection H as <-. now apply coherent_nextImage.
  - now apply coherent_displayRandomImageInFolder.
  - intros H. injection H as <-. now apply coherent_displayRandomImageInAllFolders.
Qed.

Lemma coherent_startSlideshow (h : nat) (rnd : list nat) (s s' : State) :
  coherent B s -> startSlideshow B h rnd s = Some s' -> coherent B s'.
Proof.
  intros Hs. unfold startSlideshow. cbv zeta.
  assert (H0 : coherent B (validateDelay s)).
  { unfold validateDelay.
    destruct (slideshowDelay s) as [d|]; [destruct (d <? 500)%Z|];
      try exact Hs; (eapply coherent_frame; [..|exact Hs]; reflexivity). }
  generalize dependent (validateDelay s). clear Hs s. intros s Hs.
  destruct (slideshowActive s); [intros H; injection H as <-; exact Hs|].
  destruct (is_sequence (slideshowMode s) && (len (images s) <? 1)%Z
            && (len (flatFolderList s) <? 2)%Z);
    [intros H; injection H as <-; exact Hs|].
  destruct (match slideshowMode s with random_folder => true | _ => false end
            && (len (images s) <? 1)%Z);
    [intros H; injection H as <-; exact Hs|].
  destruct (match slideshowMode s with random_all => true | _ => false end
            && (len (leafFolderList s) <? 1)%Z);
    [intros H; injection H as <-; exact Hs|].
  match goal with
  | |- match slideshowAction B rnd ?s1 with _ => _ end = _ -> _ =>
      assert (H1 : coherent B s1);
      [|destruct (slideshowAction B rnd s1) as [s2|] eqn:Ea; [|discriminate]]
  end.
  { destruct (negb (is_sequence (slideshowMode s))).
    - eapply coherent_frame; [..|apply coherent_clearPreload; exact Hs];
        reflexivity.
    - eapply coherent_frame; [..|exact Hs]; reflexivity. }
  intros H. injection H as <-.
  eapply coherent_frame; [..|eapply coherent_slideshowAction; eassumption];
    reflexivity.
Qed.

Lemma coherent_toggleSlideshow (h : nat) (rnd : list nat) (s s' : State) :
  coherent B s -> toggleSlideshow B h rnd s = Some s' -> coherent B s'.
Proof.
  intros Hs. unfold toggleSlideshow. destruct (slideshowActive s).
  - intros H. injection H as <-. now apply coherent_stopSlideshow.
  - now apply coherent_startSlideshow.
Qed.

Lemma coherent_goToRandomFolder (rnd : list nat) (s s' : State) :
  coherent B s -> goToRandomFolder B rnd s = Some s' -> coherent B s'.
Proof.
  intros Hs. unfold goToRandomFolder.
  destruct ((len (leafFolderList s) =? 0)%Z || isTreeLoading s);
    [intros H; injection H as <-; exact Hs|].
  match goal with
  | |- match ?pick with _ => _ end = _ -> _ =>
      destruct pick as [randomIndex|]; [|discriminate]
  end.
  destruct (nth_error (leafFolderList s) randomIndex) as [randomFolder|];
    [|intros H; injection H as <-; exact Hs].
  destruct (truthy randomFolder); intros H; injection H as <-;
    [now apply coherent_handleFolderSelected|exact Hs].
Qed.

Lemma coherent_goToNextLeafFolder (s : State) :
  coherent B s -> coherent B (goToNextLeafFolder B s).
Proof.
  intros Hs. unfold goToNextLeafFolder.
  repeat match goal with
         | |- coherent B (if ?c then _ else _) => destruct c
         | |- coherent B (match ?x with _ => _ end) => destruct x
         end; try exact Hs; now apply coherent_handleFolderSelected.
Qed.

Lemma coherent_goToPrevLeafFolder (s : State) :
  coherent B s -> coherent B (goToPrevLeafFolder B s).
Proof.
  intros Hs. unfold goToPrevLeafFolder.
  repeat match goal with
         | |- coherent B (if ?c then _ else _) => destruct c
         | |- coherent B (match ?x with _ => _ end) => destruct x
         end; try exact Hs; now apply coherent_handleFolderSelected.
Qed.

Lemma coherent_handleWheel (deltaY : Z) (s : State) :
  coherent B s -> coherent B (handleWheel B deltaY s).
Proof.
  intros Hs. unfold handleWheel.
  repeat match goal with
         | |- coherent B (if ?c then _ else _) => destruct c
         end; try exact Hs;
    [now apply coherent_prevImage|now apply coherent_nextImage].
Qed.

(** Every event keeps the state coherent. *)
Lemma coherent_handle (e : Event) (s s' : State) :
  coherent B s -> handle B e s = Some s' -> coherent B s'.
Proof.
  intros Hs. destruct e; cbn [handle].
  - intros H. injection H as <-. now apply coherent_selectFolder.
  - intros H. injection H as <-. now apply coherent_handleFolderSelected.
  - intros H. injection H as <-. now apply coherent_goToLastVisitedFolder.
  - intros H. injection H as <-. now apply coherent_nextImage.
  - intros H. injection H as <-. now apply coherent_prevImage.
  - intros H. injection H as <-. now apply coherent_goToPrevLeafFolder.
  - intros H. injection H as <-. now apply coherent_goToNextLeafFolder.
  - now apply coherent_goToRandomFolder.
  - destruct (existsb (Nat.eqb h) (timers s)); [discriminate|].
    now apply coherent_toggleSlideshow.
  - destruct (slideshowActive s || isLoading s); [discriminate|].
    intros H. injection H as <-.
    eapply coherent_frame; [..|exact Hs]; reflexivity.
  - destruct (slideshowActive s || isLoading s); [discriminate|].
    intros H. injection H as <-.
    eapply coherent_frame; [..|exact Hs]; reflexivity.
  - destruct (existsb (Nat.eqb h) (timers s)); [discriminate|].
    unfold handleKeydown. destruct key.
    + intros H. injection H as <-. now apply coherent_nextImage.
    + intros H. injection H as <-. now apply coherent_prevImage.
    + now apply coherent_toggleSlideshow.
    + intros H. injection H as <-. exact Hs.
  - intros H. injection H as <-. now apply coherent_handleWheel.
  - unfold intervalTick.
    destruct (existsb (Nat.eqb h) (timers s)); [|discriminate].
    now apply coherent_slideshowAction.
  - destruct (k <? List.length (prefetches s))%nat; [|discriminate].
    intros H. injection H as <-. now apply coherent_settlePrefetch.
  - intros H. injection H as <-. now apply coherent_stopSlideshow.
Qed.

Lemma coherent_initialState : coherent B initialState.
Proof.
  split; [|split; [|split]].
  - intros C. contradiction C. reflexivity.
  - intros C. contradiction C. reflexivity.
  - intros C. contradiction C. reflexivity.
  - constructor.
Qed.

Lemma coherent_run (es : list Event) (s s' : State) :
  coherent B s -> run B es s = Some s' -> coherent B s'.
Proof.
  revert s. induction es as [|e rest IH]; intros s Hs; cbn [run].
  - intros H. injection H as <-. exact Hs.
  - destruct (handle B e s) as [s1|] eqn:E; [|discriminate].
    apply IH. eapply coherent_handle; eassumption.
Qed.

(** Over a disk that does not change a run of [run_on] is a run of
    [run]. *)
Lemma run_on_steady (steps : list (Bindings * Event)) (s : State) :
  steady B steps -> run_on steps s = run B (map snd steps) s.
Proof.
  revert s. induction steps as [|[B' e] rest IH]; intros s Hsteady;
    [reflexivity|].
  apply Forall_cons_iff in Hsteady. destruct Hsteady as [HB Hrest].
  cbn [fst] in HB. subst B'. cbn [run_on run map snd].
  destruct (handle B e s) as [s1|]; [now apply IH|reflexivity].
Qed.

Lemma coherent_steady (steps : list (Bindings * Event)) (s : State) :
  steady B steps -> run_on steps initialState = Some s -> coherent B s.
Proof.
  intros Hsteady Hrun. rewrite (run_on_steady _ Hsteady) in Hrun.
  exact (coherent_run _ coherent_initialState Hrun).
Qed.

(** X11.  Over a disk that does not change, with every event run to
    completion before the next (the preload reads being the only work in
    flight between events): in every state the viewer reaches, an image
    list that is not empty is the list [ListImages] gives for the current
    folder. *)
Theorem images_are_listing_of_current_folder
        (steps : list (Bindings * Event)) (s : State) :
  steady B steps ->
  run_on steps initialState = Some s ->
  images s <> [] ->
  ListImages B (currentFolder s) = Ok (images s).
Proof.
  intros Hsteady Hrun.
  exact (proj1 (coherent_steady Hsteady Hrun)).
Qed.

(** X12.  Over a disk that does not change, with every event run to
    completion before the next: in every state the viewer reaches, the
    image on screen, when there is one, is what [ReadImage] returns for
    the path at the current index of the image list, also when it was
    taken from the preload slot instead of being read again. *)
Theorem shown_image_is_at_current_index
        (steps : list (Bindings * Event)) (s : State) :
  steady B steps ->
  run_on steps initialState = Some s ->
  currentImageSrc s <> "" ->
  exists path,
    at_index (images s) (currentIndex s) = Some path
    /\ ReadImage B path = Ok (currentImageSrc s).
Proof.
  intros Hsteady Hrun.
  exact (proj1 (proj2 (coherent_steady Hsteady Hrun))).
Qed.

(** X13.  Over a disk that does not change, with every event run to
    completion before the next: in every state the viewer reaches, a
    preload slot that holds an image holds what [ReadImage] returns for
    the image at the slot's index in the listing of the slot's folder. *)
Theorem preload_slot_holds_named_image
        (steps : list (Bindings * Event)) (s : State) :
  steady B steps ->
  run_on steps initialState = Some s ->
  preloadedImageSrc s <> "" ->
  exists imgs path,
    ListImages B (preloadedFolder s) = Ok imgs
    /\ at_index imgs (preloadedIndex s) = Some path
    /\ ReadImage B path = Ok (preloadedImageSrc s).
Proof.
  intros Hsteady Hrun.
  exact (proj1 (proj2 (proj2 (coherent_steady Hsteady Hrun)))).
Qed.

(** *** The slideshow timer *)

(** A step is calm when it leaves the slideshow stopped, or leaves its
    flag, its interval, the timers and the delay as they are. *)
Let calm (s s' : State) : Prop :=
  slideshowActive s' = false
  \/ (slideshowActive s' = slideshowActive s
      /\ slideshowInterval s' = slideshowInterval s
      /\ timers s' = timers s
      /\ slideshowDelay s' = slideshowDelay s).

Lemma running_calm (s s' : State) : calm s s' -> running s -> running s'.
Proof.
  intros [Hstop|(E1 & E2 & E3 & E4)] Hs; unfold running.
  - rewrite Hstop. discriminate.
  - rewrite E1, E2, E3, E4. exact Hs.
Qed.

Lemma calm_refl (s : State) : calm s s.
Proof. right. repeat split. Qed.

Lemma preloadNextImage_delay (s : State) :
  slideshowDelay (preloadNextImage B s) = slideshowDelay s.
Proof.
  unfold preloadNextImage.
  repeat match goal with
         | |- context [if ?c then _ else _] => destruct c eqn:?
         | |- context [match ?x with _ => _ end] => destruct x eqn:?
         end; reflexivity.
Qed.

Lemma calm_preloadNextImage (s : State) : calm s (preloadNextImage B s).
Proof.
  right. destruct (preloadNextImage_slideshow B s) as (E1 & E2 & E3 & _).
  pose proof (preloadNextImage_delay s). repeat split; assumption.
Qed.

Lemma displayCurrentImage_delay (s : State) :
  slideshowDelay (displayCurrentImage B s) = slideshowDelay s.
Proof.
  unfold displayCurrentImage.
  repeat match goal with
         | |- context [if ?c then _ else _] => destruct c eqn:?
         | |- context [match ?x with _ => _ end] => destruct x eqn:?
         end; cbn; rewrite ?preloadNextImage_delay; reflexivity.
Qed.

Lemma calm_displayCurrentImage (s : State) : calm s (displayCurrentImage B s).
Proof.
  right. destruct (displayCurrentImage_slideshow B s) as (E1 & E2 & E3 & _).
  pose proof (displayCurrentImage_delay s). repeat split; assumption.
Qed.

Lemma calm_stopSlideshow (s : State) : calm s (stopSlideshow s).
Proof. left. apply stopSlideshow_stops. Qed.

Lemma calm_handleFolderSelected (p : string) (s : State) :
  calm s (handleFolderSelected B p s).
Proof.
  unfold handleFolderSelected.
  destruct (negb (truthy p)) eqn:Ep; [apply calm_refl|].
  destruct (p =? currentFolder s) eqn:Ec; [apply calm_refl|].
  props. left. cbn.
  match goal with
  | |- slideshowActive (loadImagesForPath B p ?t) = false =>
      destruct (@loadImagesForPath_loaded B p t) as (_ & H & _); [|exact H]
  end.
  assumption.
Qed.

Lemma calm_nextImage (s : State) : calm s (nextImage B s).
Proof.
  unfold nextImage.
  destruct ((len (images s) =? 0)%Z && (len (flatFolderList s) =? 0)%Z);
    [apply calm_refl|].
  destruct ((len (images s) =? 0)%Z || (currentIndex s + 1 >=? len (images s))%Z).
  - destruct (nextLeafFolder s) as [target|]; [|apply calm_stopSlideshow].
    cbn [andb].
    destruct ((target =? preloadedFolder s) && (0 =? preloadedIndex s)%Z
              && truthy (preloadedImageSrc s));
      [|apply calm_handleFolderSelected].
    destruct (ListImages B target) as [imgs|err]; [|right; repeat split].
    match goal with
    | |- calm s (set_isLoading false (preloadNextImage B ?t)) =>
        destruct (calm_preloadNextImage t) as [Hstop|(E1 & E2 & E3 & E4)]
    end.
    + left. exact Hstop.
    + right. split; [exact E1|split; [exact E2|split; [exact E3|exact E4]]].
  - cbn [andb negb].
    destruct (is_sequence (slideshowMode s) && (currentIndex s + 1 =? preloadedIndex s)%Z
              && (currentFolder s =? preloadedFolder s)
              && truthy (preloadedImageSrc s)).
    + match goal with
      | |- calm s (set_isLoading false (preloadNextImage B ?t)) =>
          destruct (calm_preloadNextImage t) as [Hstop|(E1 & E2 & E3 & E4)]
      end.
      * left. exact Hstop.
      * right. split; [exact E1|split; [exact E2|split; [exact E3|exact E4]]].
    + match goal with
      | |- calm s (displayCurrentImage B ?t) =>
          destruct (calm_displayCurrentImage t) as [Hstop|(E1 & E2 & E3 & E4)]
      end.
      * left. exact Hstop.
      * right. split; [exact E1|split; [exact E2|split; [exact E3|exact E4]]].
Qed.

Lemma calm_prevImage (s : State) : calm s (prevImage B s).
Proof.
  unfold prevImage. destruct (len (images s) =? 0)%Z; [apply calm_refl|].
  match goal with
  | |- calm s (displayCurrentImage B ?t) =>
      destruct (calm_displayCurrentImage t) as [Hstop|(E1 & E2 & E3 & E4)]
  end.
  - left. exact Hstop.
  - right. split; [exact E1|split; [exact E2|split; [exact E3|exact E4]]].
Qed.

Lemma calm_displayRandomImageInFolder (rnd : list nat) (s s' : State) :
  displayRandomImageInFolder B rnd s = Some s' -> calm s s'.
Proof.
  unfold displayRandomImageInFolder.
  destruct (len (images s) <? 1)%Z; [intros H; injection H as <-; apply calm_refl|].
  destruct (if (len (images s) =? 1)%Z then Some 0%nat
            else first_draw (List.length (images s))
                            (fun r => (Z.of_nat r =? currentIndex s)%Z) rnd)
    as [r|]; [|discriminate].
  intros H. injection H as <-.
  match goal with
  | |- calm s (displayCurrentImage B ?t) =>
      destruct (calm_displayCurrentImage t) as [Hstop|(E1 & E2 & E3 & E4)]
  end.
  - left. exact Hstop.
  - right. split; [exact E1|split; [exact E2|split; [exact E3|exact E4]]].
Qed.

Lemma calm_displayRandomImageInAllFolders (u1 u2 : nat) (s : State) :
  calm s (displayRandomImageInAllFolders B u1 u2 s).
Proof.
  unfold displayRandomImageInAllFolders.
  repeat match goal with
         | |- context [if ?c then _ else _] => destruct c eqn:?
         | |- context [match ?x with _ => _ end] => destruct x eqn:?
         end; right; repeat split.
Qed.

Lemma calm_slideshowAction (rnd : list nat) (s s' : State) :
  slideshowAction B rnd s = Some s' -> calm s s'.
Proof.
  unfold slideshowAction. destruct (slideshowMode s).
  - intros H. injection H as <-. apply calm_nextImage.
  - apply calm_displayRandomImageInFolder.
  - intros H. injection H as <-. apply calm_displayRandomImageInAllFolders.
Qed.

Lemma calm_selectFolder (dialog : Result string) (s : State) :
  calm s (selectFolder B dialog s).
Proof.
  unfold selectFolder.
  destruct dialog as [selectedPath|err]; [|right; repeat split].
  destruct (truthy selectedPath) eqn:Ep; [|right; repeat split].
  props. left.
  match goal with
  | |- slideshowActive (loadFolderTree B _ (loadImagesForPath B _ ?t)) = false =>
      destruct (@loadImagesForPath_loaded B selectedPath t Ep) as (_ & H & _)
  end.
  unfold loadFolderTree. destruct (negb (truthy selectedPath)); [exact H|].
  destruct (ListSubfolders B selectedPath); exact H.
Qed.

Lemma running_startSlideshow (h : nat) (rnd : list nat) (s s' : State) :
  running s -> startSlideshow B h rnd s = Some s' -> running s'.
Proof.
  intros Hs. unfold startSlideshow. cbv zeta.
  assert (H0 : running (validateDelay s)
               /\ exists d, slideshowDelay (validateDelay s) = Some d /\ (500 <= d)%Z).
  { unfold validateDelay, running.
    destruct (slideshowDelay s) as [d|] eqn:Ed; [destruct (d <? 500)%Z eqn:E|].
    - split; [|exists 500%Z; split; [reflexivity|lia]].
      cbn. intros Ha. destruct (Hs Ha) as [Ht _].
      split; [exact Ht|exists 500%Z; split; [reflexivity|lia]].
    - apply Z.ltb_ge in E. split; [|exists d; split; [exact Ed|exact E]].
      intros Ha. destruct (Hs Ha) as [Ht _].
      split; [exact Ht|exists d; split; [exact Ed|exact E]].
    - split; [|exists 500%Z; split; [reflexivity|lia]].
      cbn. intros Ha. destruct (Hs Ha) as [Ht _].
      split; [exact Ht|exists 500%Z; split; [reflexivity|lia]]. }
  generalize dependent (validateDelay s). clear Hs s. intros s [Hs Hd].
  destruct (slideshowActive s); [intros H; injection H as <-; exact Hs|].
  destruct (is_sequence (slideshowMode s) && (len (images s) <? 1)%Z
            && (len (flatFolderList s) <? 2)%Z);
    [intros H; injection H as <-; exact Hs|].
  destruct (match slideshowMode s with random_folder => true | _ => false end
            && (len (images s) <? 1)%Z);
    [intros H; injection H as <-; exact Hs|].
  destruct (match slideshowMode s with random_all => true | _ => false end
            && (len (leafFolderList s) <? 1)%Z);
    [intros H; injection H as <-; exact Hs|].
  match goal with
  | |- match slideshowAction B rnd ?s1 with _ => _ end = _ -> _ =>
      assert (H1 : slideshowDelay s1 = slideshowDelay s)
        by (destruct (negb (is_sequence (slideshowMode s))); reflexivity);
      destruct (slideshowAction B rnd s1) as [s2|] eqn:Ea; [|discriminate]
  end.
  intros H. injection H as <-.
  apply calm_slideshowAction in Ea. unfold running. cbn.
  intros Hactive. split; [exists h; split; [reflexivity|now left]|].
  destruct Ea as [Hstop|(_ & _ & _ & E4)]; [congruence|].
  rewrite E4, H1. exact Hd.
Qed.

Lemma running_handle (e : Event) (s s' : State) :
  running s -> handle B e s = Some s' -> running s'.
Proof.
  intros Hs. destruct e; cbn [handle].
  - intros H. injection H as <-.
    eapply running_calm; [apply calm_selectFolder|exact Hs].
  - intros H. injection H as <-.
    eapply running_calm; [apply calm_handleFolderSelected|exact Hs].
  - intros H. injection H as <-. unfold goToLastVisitedFolder.
    destruct (negb (truthy (lastVisitedFolder s)) || isTreeLoading s); [exact Hs|].
    eapply running_calm; [apply calm_handleFolderSelected|exact Hs].
  - intros H. injection H as <-.
    eapply running_calm; [apply calm_nextImage|exact Hs].
  - intros H. injection H as <-.
    eapply running_calm; [apply calm_prevImage|exact Hs].
  - intros H. injection H as <-. unfold goToPrevLeafFolder.
    repeat match goal with
           | |- running (if ?c then _ else _) => destruct c
           | |- running (match ?x with _ => _ end) => destruct x
           end; try exact Hs;
      (eapply running_calm; [apply calm_handleFolderSelected|exact Hs]).
  - intros H. injection H as <-. unfold goToNextLeafFolder.
    repeat match goal with
           | |- running (if ?c then _ else _) => destruct c
           | |- running (match ?x with _ => _ end) => destruct x
           end; try exact Hs;
      (eapply running_calm; [apply calm_handleFolderSelected|exact Hs]).
  - unfold goToRandomFolder.
    destruct ((len (leafFolderList s) =? 0)%Z || isTreeLoading s);
      [intros H; injection H as <-; exact Hs|].
    match goal with
    | |- match ?pick with _ => _ end = _ -> _ =>
        destruct pick as [randomIndex|]; [|discriminate]
    end.
    destruct (nth_error (leafFolderList s) randomIndex) as [randomFolder|];
      [|intros H; injection H as <-; exact Hs].
    destruct (truthy randomFolder); intros H; injection H as <-; [|exact Hs].
    eapply running_calm; [apply calm_handleFolderSelected|exact Hs].
  - destruct (existsb (Nat.eqb h) (timers s)); [discriminate|].
    unfold toggleSlideshow. destruct (slideshowActive s).
    + intros H. injection H as <-.
      eapply running_calm; [apply calm_stopSlideshow|exact Hs].
    + now apply running_startSlideshow.
  - destruct (slideshowActive s || isLoading s) eqn:E; [discriminate|].
    intros H. injection H as <-. props. unfold running. cbn. congruence.
  - destruct (slideshowActive s || isLoading s) eqn:E; [discriminate|].
    intros H. injection H as <-. props. unfold running. cbn. congruence.
  - destruct (existsb (Nat.eqb h) (timers s)); [discriminate|].
    unfold handleKeydown. destruct key.
    + intros H. injection H as <-.
      eapply running_calm; [apply calm_nextImage|exact Hs].
    + intros H. injection H as <-.
      eapply running_calm; [apply calm_prevImage|exact Hs].
    + unfold toggleSlideshow. destruct (slideshowActive s).
      * intros H. injection H as <-.
        eapply running_calm; [apply calm_stopSlideshow|exact Hs].
      * now apply running_startSlideshow.
    + intros H. injection H as <-. exact Hs.
  - intros H. injection H as <-. unfold handleWheel.
    repeat match goal with
           | |- running (if ?c then _ else _) => destruct c
           end; try exact Hs.
    + eapply running_calm; [apply calm_prevImage|exact Hs].
    + eapply running_calm; [apply calm_nextImage|exact Hs].
  - unfold intervalTick.
    destruct (existsb (Nat.eqb h) (timers s)); [|discriminate].
    intros H. eapply running_calm; [eapply calm_slideshowAction; exact H|exact Hs].
  - destruct (k <? List.length (prefetches s))%nat; [|discriminate].
    intros H. injection H as <-.
    eapply running_calm; [|exact Hs].
    right. unfold settlePrefetch.
    destruct (nth_error (prefetches s) k) as [[data idx folder|]|]; repeat split.
  - intros H. injection H as <-.
    eapply running_calm; [apply calm_stopSlideshow|exact Hs].
Qed.

Lemma running_run (es : list Event) (s s' : State) :
  running s -> run B es s = Some s' -> running s'.
Proof.
  revert s. induction es as [|e rest IH]; intros s Hs; cbn [run].
  - intros H. injection H as <-. exact Hs.
  - destruct (handle B e s) as [s1|] eqn:E; [|discriminate].
    apply IH. eapply running_handle; eassumption.
Qed.

Lemma running_initialState : running initialState.
Proof. unfold running. cbn. discriminate. Qed.

(** X14.  In every state the viewer reaches in which the slideshow is marked
    active, the handle of its interval is stored and that interval is
    still firing: an active slideshow cannot be left without a timer. *)
Theorem active_slideshow_has_live_timer (s : State) :
  reachable B s ->
  slideshowActive s = true ->
  exists h, slideshowInterval s = Some h /\ In h (timers s).
Proof.
  intros [es Hrun] Ha.
  exact (proj1 (running_run es running_initialState Hrun Ha)).
Qed.

(** X15.  In every state the viewer reaches in which the slideshow is marked
    active, the delay is a number of at least 500 milliseconds, whatever
    was entered in the delay field. *)
Theorem active_slideshow_delay_at_least_minimum (s : State) :
  reachable B s ->
  slideshowActive s = true ->
  exists d, slideshowDelay s = Some d /\ (500 <= d)%Z.
Proof.
  intros [es Hrun] Ha.
  exact (proj2 (running_run es running_initialState Hrun Ha)).
Qed.

(** *** The lists the navigation runs on *)

(** A step that leaves the folder tree and the two lists made from it
    as they are. *)
Let keeps_tree (s s' : State) : Prop :=
  folderTreeRoot s' = folderTreeRoot s
  /\ flatFolderList s' = flatFolderList s
  /\ leafFolderList s' = leafFolderList s.

Lemma keeps_tree_trans (s1 s2 s3 : State) :
  keeps_tree s1 s2 -> keeps_tree s2 s3 -> keeps_tree s1 s3.
Proof.
  intros (A1 & A2 & A3) (B1 & B2 & B3).
  repeat split; congruence.
Qed.

Lemma keeps_tree_stopSlideshow (s : State) : keeps_tree s (stopSlideshow s).
Proof. unfold stopSlideshow. destruct (slideshowInterval s); repeat split. Qed.

Lemma keeps_tree_preloadNextImage (s : State) :
  keeps_tree s (preloadNextImage B s).
Proof.
  unfold preloadNextImage.
  repeat match goal with
         | |- context [if ?c then _ else _] => destruct c eqn:?
         | |- context [match ?x with _ => _ end] => destruct x eqn:?
         end; repeat split.
Qed.

Lemma keeps_tree_displayCurrentImage (s : State) :
  keeps_tree s (displayCurrentImage B s).
Proof.
  unfold displayCurrentImage.
  repeat match goal with
         | |- context [if ?c then _ else _] => destruct c eqn:?
         | |- context [match ?x with _ => _ end] => destruct x eqn:?
         end;
    try (repeat split; fail);
    match goal with
    | |- context [preloadNextImage B ?t] =>
        destruct (keeps_tree_preloadNextImage t) as (E1 & E2 & E3);
        split; [exact E1|split; [exact E2|exact E3]]
    end.
Qed.

Lemma keeps_tree_loadImagesForPath (p : string) (s : State) :
  keeps_tree s (loadImagesForPath B p s).
Proof.
  unfold loadImagesForPath.
  destruct (negb (truthy p)); [repeat split|].
  destruct (keeps_tree_stopSlideshow (set_isLoading true s)) as (S1 & S2 & S3).
  destruct (ListImages B p) as [imgs|err].
  - match goal with
    | |- context [displayCurrentImage B ?t] =>
        destruct (keeps_tree_displayCurrentImage t) as (E1 & E2 & E3)
    end.
    split; [|split].
    + etransitivity; [exact E1|exact S1].
    + etransitivity; [exact E2|exact S2].
    + etransitivity; [exact E3|exact S3].
  - split; [exact S1|split; [exact S2|exact S3]].
Qed.

Lemma keeps_tree_handleFolderSelected (p : string) (s : State) :
  keeps_tree s (handleFolderSelected B p s).
Proof.
  unfold handleFolderSelected.
  destruct (negb (truthy p)); [repeat split|].
  destruct (p =? currentFolder s); [repeat split|].
  match goal with
  | |- context [loadImagesForPath B p ?t] =>
      destruct (keeps_tree_loadImagesForPath p t) as (E1 & E2 & E3)
  end.
  destruct (truthy (currentFolder s) && negb (currentFolder s =? p));
    (split; [exact E1|split; [exact E2|exact E3]]).
Qed.

Lemma keeps_tree_nextImage (s : State) : keeps_tree s (nextImage B s).
Proof.
  unfold nextImage.
  destruct ((len (images s) =? 0)%Z && (len (flatFolderList s) =? 0)%Z);
    [repeat split|].
  destruct ((len (images s) =? 0)%Z || (currentIndex s + 1 >=? len (images s))%Z).
  - destruct (nextLeafFolder s) as [target|]; [|apply keeps_tree_stopSlideshow].
    cbn [andb].
    destruct ((target =? preloadedFolder s) && (0 =? preloadedIndex s)%Z
              && truthy (preloadedImageSrc s));
      [|apply keeps_tree_handleFolderSelected].
    destruct (ListImages B target) as [imgs|err]; [|repeat split].
    match goal with
    | |- context [preloadNextImage B ?t] =>
        destruct (keeps_tree_preloadNextImage t) as (E1 & E2 & E3)
    end.
    split; [exact E1|split; [exact E2|exact E3]].
  - cbn [andb negb].
    destruct (is_sequence (slideshowMode s) && (currentIndex s + 1 =? preloadedIndex s)%Z
              && (currentFolder s =? preloadedFolder s)
              && truthy (preloadedImageSrc s)).
    + match goal with
      | |- context [preloadNextImage B ?t] =>
          destruct (keeps_tree_preloadNextImage t) as (E1 & E2 & E3)
      end.
      split; [exact E1|split; [exact E2|exact E3]].
    + match goal with
      | |- context [displayCurrentImage B ?t] =>
          destruct (keeps_tree_displayCurrentImage t) as (E1 & E2 & E3)
      end.
      split; [exact E1|split; [exact E2|exact E3]].
Qed.

Lemma keeps_tree_prevImage (s : State) : keeps_tree s (prevImage B s).
Proof.
  unfold prevImage. destruct (len (images s) =? 0)%Z; [repeat split|].
  match goal with
  | |- context [displayCurrentImage B ?t] =>
      destruct (keeps_tree_displayCurrentImage t) as (E1 & E2 & E3)
  end.
  split; [exact E1|split; [exact E2|exact E3]].
Qed.

Lemma keeps_tree_slideshowAction (rnd : list nat) (s s' : State) :
  slideshowAction B rnd s = Some s' -> keeps_tree s s'.
Proof.
  unfold slideshowAction. destruct (slideshowMode s).
  - intros H. injection H as <-. apply keeps_tree_nextImage.
  - unfold displayRandomImageInFolder.
    destruct (len (images s) <? 1)%Z; [intros H; injection H as <-; repeat split|].
    destruct (if (len (images s) =? 1)%Z then Some 0%nat
              else first_draw (List.length (images s))
                              (fun r => (Z.of_nat r =? currentIndex s)%Z) rnd)
      as [r|]; [|discriminate].
    intros H. injection H as <-.
    match goal with
    | |- context [displayCurrentImage B ?t] =>
        destruct (keeps_tree_displayCurrentImage t) as (E1 & E2 & E3)
    end.
    split; [exact E1|split; [exact E2|exact E3]].
  - intros H. injection H as <-. unfold displayRandomImageInAllFolders.
    repeat match goal with
           | |- context [if ?c then _ else _] => destruct c eqn:?
           | |- context [match ?x with _ => _ end] => destruct x eqn:?
           end; repeat split.
Qed.

Lemma keeps_tree_toggleSlideshow (h : nat) (rnd : list nat) (s s' : State) :
  toggleSlideshow B h rnd s = Some s' -> keeps_tree s s'.
Proof.
  unfold toggleSlideshow. destruct (slideshowActive s).
  - intros H. injection H as <-. apply keeps_tree_stopSlideshow.
  - unfold startSlideshow. cbv zeta.
    assert (H0 : keeps_tree s (validateDelay s)).
    { unfold validateDelay.
      destruct (slideshowDelay s) as [d|]; [destruct (d <? 500)%Z|];
        repeat split. }
    revert H0. generalize (validateDelay s). intros s0 H0.
    destruct (slideshowActive s0); [intros H; injection H as <-; exact H0|].
    destruct (is_sequence (slideshowMode s0) && (len (images s0) <? 1)%Z
              && (len (flatFolderList s0) <? 2)%Z);
      [intros H; injection H as <-; exact H0|].
    destruct (match slideshowMode s0 with random_folder => true | _ => false end
              && (len (images s0) <? 1)%Z);
      [intros H; injection H as <-; exact H0|].
    destruct (match slideshowMode s0 with random_all => true | _ => false end
              && (len (leafFolderList s0) <? 1)%Z);
      [intros H; injection H as <-; exact H0|].
    match goal with
    | |- match slideshowAction B rnd ?s1 with _ => _ end = _ -> _ =>
        assert (H1 : keeps_tree s0 s1)
          by (destruct (negb (is_sequence (slideshowMode s0))); repeat split);
        destruct (slideshowAction B rnd s1) as [s2|] eqn:Ea; [|discriminate]
    end.
    intros H. injection H as <-.
    apply keeps_tree_slideshowAction in Ea.
    eapply keeps_tree_trans; [exact H0|].
    eapply keeps_tree_trans; [exact H1|].
    destruct Ea as (E1 & E2 & E3).
    split; [exact E1|split; [exact E2|exact E3]].
Qed.

(** The lists belong to the tree: the flat list is the flattening of the
    tree on screen, and with a tree on screen the leaf list holds its
    leaves. *)
Let lists_of_tree (s : State) : Prop :=
  flatFolderList s = flattenTree (folderTreeRoot s)
  /\ (folderTreeRoot s <> None ->
      leafFolderList s = getLeafFolders (folderTreeRoot s)).

Lemma lists_of_tree_kept (s s' : State) :
  keeps_tree s s' -> lists_of_tree s -> lists_of_tree s'.
Proof.
  intros (E1 & E2 & E3) Hs. unfold lists_of_tree. rewrite E1, E2, E3. exact Hs.
Qed.

Lemma lists_of_tree_loadFolderTree (p : string) (s : State) :
  lists_of_tree s -> lists_of_tree (loadFolderTree B p s).
Proof.
  intros Hs. unfold loadFolderTree.
  destruct (negb (truthy p)); [exact Hs|].
  destruct (ListSubfolders B p) as [tree|err]; split; reflexivity.
Qed.

Lemma lists_of_tree_handle (e : Event) (s s' : State) :
  lists_of_tree s -> handle B e s = Some s' -> lists_of_tree s'.
Proof.
  intros Hs. destruct e; cbn [handle].
  - intros H. injection H as <-. unfold selectFolder.
    match goal with
    | |- lists_of_tree match dialog with
                       | Ok selectedPath => if _ then _ (_ selectedPath ?s0) else _
                       | Err _ => _
                       end =>
        assert (H0 : lists_of_tree s0)
          by (split; [reflexivity|intros C; contradiction C; reflexivity])
    end.
    destruct dialog as [selectedPath|err]; [|exact H0].
    destruct (truthy selectedPath); [|exact H0].
    apply lists_of_tree_loadFolderTree.
    eapply lists_of_tree_kept; [apply keeps_tree_loadImagesForPath|exact H0].
  - intros H. injection H as <-.
    eapply lists_of_tree_kept; [apply keeps_tree_handleFolderSelected|exact Hs].
  - intros H. injection H as <-. unfold goToLastVisitedFolder.
    destruct (negb (truthy (lastVisitedFolder s)) || isTreeLoading s); [exact Hs|].
    eapply lists_of_tree_kept; [apply keeps_tree_handleFolderSelected|exact Hs].
  - intros H. injection H as <-.
    eapply lists_of_tree_kept; [apply keeps_tree_nextImage|exact Hs].
  - intros H. injection H as <-.
    eapply lists_of_tree_kept; [apply keeps_tree_prevImage|exact Hs].
  - intros H. injection H as <-. unfold goToPrevLeafFolder.
    repeat match goal with
           | |- lists_of_tree (if ?c then _ else _) => destruct c
           | |- lists_of_tree (match ?x with _ => _ end) => destruct x
           end; try exact Hs;
      (eapply lists_of_tree_kept; [apply keeps_tree_handleFolderSelected|exact Hs]).
  - intros H. injection H as <-. unfold goToNextLeafFolder.
    repeat match goal with
           | |- lists_of_tree (if ?c then _ else _) => destruct c
           | |- lists_of_tree (match ?x with _ => _ end) => destruct x
           end; try exact Hs;
      (eapply lists_of_tree_kept; [apply keeps_tree_handleFolderSelected|exact Hs]).
  - unfold goToRandomFolder.
    destruct ((len (leafFolderList s) =? 0)%Z || isTreeLoading s);
      [intros H; injection H as <-; exact Hs|].
    match goal with
    | |- match ?pick with _ => _ end = _ -> _ =>
        destruct pick as [randomIndex|]; [|discriminate]
    end.
    destruct (nth_error (leafFolderList s) randomIndex) as [randomFolder|];
      [|intros H; injection H as <-; exact Hs].
    destruct (truthy randomFolder); intros H; injection H as <-; [|exact Hs].
    eapply lists_of_tree_kept; [apply keeps_tree_handleFolderSelected|exact Hs].
  - destruct (existsb (Nat.eqb h) (timers s)); [discriminate|].
    intros H. eapply lists_of_tree_kept;
                [eapply keeps_tree_toggleSlideshow; exact H|exact Hs].
  - destruct (slideshowActive s || isLoading s); [discriminate|].
    intros H. injection H as <-. exact Hs.
  - destruct (slideshowActive s || isLoading s); [discriminate|].
    intros H. injection H as <-. exact Hs.
  - destruct (existsb (Nat.eqb h) (timers s)); [discriminate|].
    unfold handleKeydown. destruct key.
    + intros H. injection H as <-.
      eapply lists_of_tree_kept; [apply keeps_tree_nextImage|exact Hs].
    + intros H. injection H as <-.
      eapply lists_of_tree_kept; [apply keeps_tree_prevImage|exact Hs].
    + intros H. eapply lists_of_tree_kept;
                  [eapply keeps_tree_toggleSlideshow; exact H|exact Hs].
    + intros H. injection H as <-. exact Hs.
  - intros H. injection H as <-. unfold handleWheel.
    repeat match goal with
           | |- lists_of_tree (if ?c then _ else _) => destruct c
           end; try exact Hs.
    + eapply lists_of_tree_kept; [apply keeps_tree_prevImage|exact Hs].
    + eapply lists_of_tree_kept; [apply keeps_tree_nextImage|exact Hs].
  - unfold intervalTick.
    destruct (existsb (Nat.eqb h) (timers s)); [|discriminate].
    intros H. eapply lists_of_tree_kept;
                [eapply keeps_tree_slideshowAction; exact H|exact Hs].
  - destruct (k <? List.length (prefetches s))%nat; [|discriminate].
    intros H. injection H as <-.
    eapply lists_of_tree_kept; [|exact Hs].
    unfold settlePrefetch.
    destruct (nth_error (prefetches s) k) as [[data idx folder|]|]; repeat split.
  - intros H. injection H as <-.
    eapply lists_of_tree_kept; [apply keeps_tree_stopSlideshow|exact Hs].
Qed.

Lemma lists_of_tree_run (es : list Event) (s s' : State) :
  lists_of_tree s -> run B es s = Some s' -> lists_of_tree s'.
Proof.
  revert s. induction es as [|e rest IH]; intros s Hs; cbn [run].
  - intros H. injection H as <-. exact Hs.
  - destruct (handle B e s) as [s1|] eqn:E; [|discriminate].
    apply IH. eapply lists_of_tree_handle; eassumption.
Qed.

(** X16.  In every state the viewer reaches, the flat list is the pre-order
    flattening of the folder tree on screen (empty when there is none),
    and while a tree is on screen the leaf list is the list of its
    leaves: navigation never runs on lists of another tree. *)
Theorem navigation_lists_belong_to_tree (s : State) :
  reachable B s ->
  flatFolderList s = flattenTree (folderTreeRoot s)
  /\ (forall tree, folderTreeRoot s = Some tree ->
                   leafFolderList s = getLeafFolders (Some tree)).
Proof.
  intros [es Hrun].
  assert (H0 : lists_of_tree initialState).
  { split; [reflexivity|]. intros C. contradiction C. reflexivity. }
  destruct (lists_of_tree_run es H0 Hrun) as [Hflat Hleaf].
  split; [exact Hflat|].
  intros tree Htree. rewrite <- Htree. apply Hleaf. rewrite Htree. discriminate.
Qed.

(** *** Moves inside a folder and between leaf folders *)

Lemma nextImage_within (s : State) :
  (0 <= currentIndex s + 1 < len (images s))%Z ->
  currentFolder (nextImage B s) = currentFolder s
  /\ images (nextImage B s) = images s
  /\ currentIndex (nextImage B s) = (currentIndex s + 1)%Z.
Proof.
  intros Hr.
  assert (E1 : (len (images s) =? 0)%Z = false) by (apply Z.eqb_neq; lia).
  assert (E2 : (currentIndex s + 1 >=? len (images s))%Z = false)
    by (rewrite Z.geb_leb; apply Z.leb_gt; lia).
  unfold nextImage. rewrite E1, E2. cbn [andb orb negb].
  destruct (is_sequence (slideshowMode s) && (currentIndex s + 1 =? preloadedIndex s)%Z
            && (currentFolder s =? preloadedFolder s)
            && truthy (preloadedImageSrc s)).
  - cbn.
    match goal with
    | |- context [preloadNextImage B ?t] =>
        destruct (preloadNextImage_position B t) as (-> & -> & ->)
    end.
    repeat split.
  - match goal with
    | |- context [displayCurrentImage B ?t] =>
        destruct (displayCurrentImage_position B t) as (-> & -> & ->)
    end.
    repeat split.
Qed.

Lemma prevImage_within (s : State) :
  (0 <= currentIndex s - 1)%Z -> (0 < len (images s))%Z ->
  currentFolder (prevImage B s) = currentFolder s
  /\ images (prevImage B s) = images s
  /\ currentIndex (prevImage B s) = (currentIndex s - 1)%Z.
Proof.
  intros Hr Hl.
  assert (E1 : (len (images s) =? 0)%Z = false) by (apply Z.eqb_neq; lia).
  assert (E2 : (currentIndex s - 1 <? 0)%Z = false) by (apply Z.ltb_ge; lia).
  unfold prevImage. rewrite E1.
  cbn [images clearPreload set_preloadedFolder set_preloadedIndex
              set_preloadedImageSrc currentIndex].
  rewrite E2.
  match goal with
  | |- context [displayCurrentImage B ?t] =>
      destruct (displayCurrentImage_position B t) as (-> & -> & ->)
  end.
  repeat split.
Qed.

(** X17.  Inside a folder, [nextImage] and [prevImage] undo each other: from
    an image that is not the last one, next and then previous come back
    to it, and from an image that is not the first one, previous and then
    next come back to it, with the folder and the image list as they
    were. *)
Theorem nextImage_prevImage_undo_each_other (s : State) :
  ((0 <= currentIndex s)%Z -> (currentIndex s + 1 < len (images s))%Z ->
   let s' := prevImage B (nextImage B s) in
   currentFolder s' = currentFolder s /\ images s' = images s
   /\ currentIndex s' = currentIndex s)
  /\ ((0 < currentIndex s)%Z -> (currentIndex s < len (images s))%Z ->
      let s' := nextImage B (prevImage B s) in
      currentFolder s' = currentFolder s /\ images s' = images s
      /\ currentIndex s' = currentIndex s).
Proof.
  split.
  - intros H0 H1 s'. subst s'.
    destruct (@nextImage_within s) as (F1 & I1 & J1); [lia|].
    destruct (@prevImage_within (nextImage B s)) as (F2 & I2 & J2);
      [rewrite J1; lia|rewrite I1; lia|].
    rewrite F2, I2, J2, F1, I1, J1. repeat split. lia.
  - intros H0 H1 s'. subst s'.
    destruct (@prevImage_within s) as (F1 & I1 & J1); [lia|lia|].
    destruct (@nextImage_within (prevImage B s)) as (F2 & I2 & J2);
      [rewrite J1, I1; lia|].
    rewrite F2, I2, J2, F1, I1, J1. repeat split. lia.
Qed.

Lemma first_draw_accepted (n : nat) (reject : nat -> bool) (rnd : list nat) (r : nat) :
  first_draw n reject rnd = Some r -> reject r = false.
Proof.
  induction rnd as [|u rest IH]; cbn [first_draw]; [discriminate|].
  destruct (reject (random_below u n)) eqn:E; [exact IH|].
  intros H. injection H as <-. exact E.
Qed.

(** X18.  With two images or more, a step of the random slideshow inside the
    folder never shows the image that is on screen again: the index
    changes, stays inside the image list, and folder and image list stay
    the same. *)
Theorem displayRandomImageInFolder_picks_another_image
        (rnd : list nat) (s s' : State) :
  (2 <= len (images s))%Z ->
  displayRandomImageInFolder B rnd s = Some s' ->
  currentIndex s' <> currentIndex s
  /\ (0 <= currentIndex s' < len (images s))%Z
  /\ images s' = images s
  /\ currentFolder s' = currentFolder s.
Proof.
  intros Hlen. unfold displayRandomImageInFolder.
  assert (E1 : (len (images s) <? 1)%Z = false) by (apply Z.ltb_ge; lia).
  assert (E2 : (len (images s) =? 1)%Z = false) by (apply Z.eqb_neq; lia).
  rewrite E1, E2.
  destruct (first_draw (List.length (images s))
                       (fun r => (Z.of_nat r =? currentIndex s)%Z) rnd)
    as [r|] eqn:Ed; [|discriminate].
  intros H. injection H as <-.
  match goal with
  | |- context [displayCurrentImage B ?t] =>
      destruct (displayCurrentImage_position B t) as (-> & -> & ->)
  end.
  cbn.
  pose proof (first_draw_accepted _ _ _ Ed) as Hrej. cbn beta in Hrej.
  apply Z.eqb_neq in Hrej.
  apply first_draw_below in Ed; [|unfold len in Hlen; lia].
  repeat split; try assumption; unfold len; lia.
Qed.

Lemma indexOf_at (l : list string) (x : string) :
  indexOf l x <> (-1)%Z -> at_index l (indexOf l x) = Some x.
Proof.
  intros H. destruct (first_occurrence _ _ (indexOf_found _ _ H))
    as (pre & post & -> & Hpre).
  rewrite (@indexOf_first pre post x Hpre). unfold at_index.
  pose proof (len_nonneg pre).
  destruct (len pre <? 0)%Z eqn:E; [apply Z.ltb_lt in E; lia|].
  unfold len. rewrite Nat2Z.id.
  clear. induction pre as [|a pre IH]; [reflexivity|exact IH].
Qed.

(** The entries around a folder of a list without repetitions. *)
Lemma neighbours (l : list string) (x : string) :
  NoDup l -> indexOf l x <> (-1)%Z ->
  (forall y, at_index l (indexOf l x + 1) = Some y ->
             y <> x /\ indexOf l y = (indexOf l x + 1)%Z)
  /\ (forall y, at_index l (indexOf l x - 1) = Some y ->
                y <> x /\ indexOf l y = (indexOf l x - 1)%Z).
Proof.
  intros Hnd H.
  destruct (first_occurrence _ _ (indexOf_found _ _ H))
    as (pre & post & -> & Hpre).
  rewrite (@indexOf_first pre post x Hpre).
  pose proof (len_nonneg pre) as Hpos.
  split.
  - intros y Hy.
    assert (Hpost : exists post', post = y :: post').
    { unfold at_index in Hy.
      destruct (len pre + 1 <? 0)%Z eqn:E; [discriminate|].
      unfold len in Hy.
      replace (Z.to_nat (Z.of_nat (List.length pre) + 1))
        with (S (List.length pre)) in Hy by lia.
      clear - Hy. induction pre as [|a pre IH]; [|exact (IH Hy)].
      destruct post as [|p post']; [discriminate|].
      injection Hy as ->. now exists post'. }
    destruct Hpost as (post' & ->).
    assert (Hy_not : ~ In y (pre ++ [x])).
    { change (pre ++ x :: y :: post')%list
        with (pre ++ [x] ++ y :: post')%list in Hnd.
      rewrite app_assoc in Hnd. apply NoDup_remove_2 in Hnd.
      intros Hin. apply Hnd. apply in_or_app. now left. }
    assert (Hyx : y <> x).
    { intros ->. apply Hy_not. apply in_or_app. right. now left. }
    split; [exact Hyx|].
    change (pre ++ x :: y :: post')%list with (pre ++ [x] ++ y :: post')%list.
    rewrite app_assoc, (@indexOf_first (pre ++ [x]) post' y Hy_not), len_app.
    reflexivity.
  - intros y Hy.
    assert (Hpre' : exists pre', pre = (pre' ++ [y])%list).
    { unfold at_index in Hy.
      destruct (len pre - 1 <? 0)%Z eqn:E; [discriminate|].
      apply Z.ltb_ge in E.
      destruct pre as [|a pre0] using rev_ind; [unfold len in E; simpl in E; lia|].
      exists pre0. f_equal. f_equal.
      rewrite len_app in Hy. unfold len in Hy. cbn [List.length] in Hy.
      replace (Z.to_nat (Z.of_nat (List.length pre0) + Z.of_nat 1 - 1))
        with (List.length pre0) in Hy by lia.
      rewrite <- app_assoc in Hy. cbn [app] in Hy.
      rewrite nth_error_app2 in Hy by lia.
      rewrite Nat.sub_diag in Hy. cbn in Hy. now injection Hy. }
    destruct Hpre' as (pre' & ->).
    assert (Hyx : y <> x).
    { intros ->. apply Hpre. apply in_or_app. right. now left. }
    split; [exact Hyx|].
    rewrite <- app_assoc. cbn [app].
    rewrite indexOf_first.
    + rewrite len_app. unfold len. cbn [List.length]. lia.
    + rewrite <- app_assoc in Hnd. cbn [app] in Hnd.
      apply NoDup_remove_2 in Hnd.
      intros Hin. apply Hnd. apply in_or_app. now left.
Qed.

Lemma at_index_In (l : list string) (i : Z) (x : string) :
  at_index l i = Some x -> In x l.
Proof.
  unfold at_index. destruct (i <? 0)%Z; [discriminate|]. apply nth_error_In.
Qed.

Lemma goToNextLeafFolder_moves (s : State) (next : string) :
  isTreeLoading s = false ->
  indexOf (leafFolderList s) (currentFolder s) <> (-1)%Z ->
  at_index (leafFolderList s) (indexOf (leafFolderList s) (currentFolder s) + 1)
  = Some next ->
  goToNextLeafFolder B s = handleFolderSelected B next s.
Proof.
  intros Htree Hidx Hnext. unfold goToNextLeafFolder.
  assert (Hlen : (indexOf (leafFolderList s) (currentFolder s) + 1
                  < len (leafFolderList s))%Z).
  { unfold at_index in Hnext.
    destruct (indexOf (leafFolderList s) (currentFolder s) + 1 <? 0)%Z eqn:E;
      [discriminate|].
    apply Z.ltb_ge in E.
    assert (Hsome : nth_error (leafFolderList s)
                      (Z.to_nat (indexOf (leafFolderList s) (currentFolder s) + 1))
                    <> None) by congruence.
    apply nth_error_Some in Hsome. unfold len. lia. }
  assert (Hpos : (0 <= indexOf (leafFolderList s) (currentFolder s))%Z).
  { pose proof (indexOf_at _ _ Hidx) as Hat. unfold at_index in Hat.
    destruct (indexOf (leafFolderList s) (currentFolder s) <? 0)%Z eqn:E;
      [discriminate|]. now apply Z.ltb_ge in E. }
  assert (E1 : (len (leafFolderList s) <? 2)%Z = false) by (apply Z.ltb_ge; lia).
  assert (E2 : (indexOf (leafFolderList s) (currentFolder s) =? -1)%Z = false)
    by now apply Z.eqb_neq.
  assert (E3 : (indexOf (leafFolderList s) (currentFolder s) + 1
                <? len (leafFolderList s))%Z = true) by now apply Z.ltb_lt.
  rewrite E1, Htree, E2, E3, Hnext. reflexivity.
Qed.

Lemma goToPrevLeafFolder_moves (s : State) (prev : string) :
  isTreeLoading s = false ->
  (2 <= len (leafFolderList s))%Z ->
  indexOf (leafFolderList s) (currentFolder s) <> (-1)%Z ->
  at_index (leafFolderList s) (indexOf (leafFolderList s) (currentFolder s) - 1)
  = Some prev ->
  goToPrevLeafFolder B s = handleFolderSelected B prev s.
Proof.
  intros Htree Hlen Hidx Hprev. unfold goToPrevLeafFolder.
  assert (Hpos : (0 <= indexOf (leafFolderList s) (currentFolder s) - 1)%Z).
  { unfold at_index in Hprev.
    destruct (indexOf (leafFolderList s) (currentFolder s) - 1 <? 0)%Z eqn:E;
      [discriminate|]. now apply Z.ltb_ge in E. }
  assert (E1 : (len (leafFolderList s) <? 2)%Z = false) by (apply Z.ltb_ge; lia).
  assert (E2 : (indexOf (leafFolderList s) (currentFolder s) =? -1)%Z = false)
    by now apply Z.eqb_neq.
  assert (E3 : (indexOf (leafFolderList s) (currentFolder s) - 1 >=? 0)%Z = true)
    by (apply Z.geb_le; lia).
  rewrite E1, Htree, E2, E3, Hprev. reflexivity.
Qed.

(** X19.  The leaf-folder buttons undo each other.  In a leaf list without
    repetitions and without an empty path, from a leaf folder that is not
    the last one, "next folder" moves to the entry after it, and
    "previous folder" then comes back to the folder it started from; the
    folder passed through is then the last-visited one. *)
Theorem goToNextLeafFolder_then_goToPrevLeafFolder (s : State) (next : string) :
  isTreeLoading s = false ->
  NoDup (leafFolderList s) ->
  ~ In "" (leafFolderList s) ->
  indexOf (leafFolderList s) (currentFolder s) <> (-1)%Z ->
  at_index (leafFolderList s) (indexOf (leafFolderList s) (currentFolder s) + 1)
  = Some next ->
  let s1 := goToNextLeafFolder B s in
  let s2 := goToPrevLeafFolder B s1 in
  currentFolder s1 = next
  /\ currentFolder s2 = currentFolder s
  /\ lastVisitedFolder s2 = next.
Proof.
  intros Htree Hnd Hempty Hidx Hnext s1 s2.
  destruct (@neighbours _ _ Hnd Hidx) as [Hright _].
  destruct (Hright next Hnext) as [Hneq Hidx'].
  assert (Hnext_ne : next <> "").
  { intros ->. apply Hempty. eapply at_index_In. exact Hnext. }
  assert (Hcur_ne : currentFolder s <> "").
  { intros E. apply Hempty. rewrite <- E. now apply indexOf_found. }
  assert (Hs1 : s1 = handleFolderSelected B next s)
    by now apply goToNextLeafFolder_moves.
  destruct (@handleFolderSelected_moves B next s Hnext_ne Hneq)
    as (F1 & L1 & T1 & _ & Leaf1 & _).
  rewrite <- Hs1 in F1, L1, T1, Leaf1.
  assert (Hback : at_index (leafFolderList s1)
                    (indexOf (leafFolderList s1) (currentFolder s1) - 1)
                  = Some (currentFolder s)).
  { rewrite Leaf1, F1, Hidx'.
    replace (indexOf (leafFolderList s) (currentFolder s) + 1 - 1)%Z
      with (indexOf (leafFolderList s) (currentFolder s)) by lia.
    now apply indexOf_at. }
  assert (Hlen : (2 <= len (leafFolderList s1))%Z).
  { rewrite Leaf1. pose proof (indexOf_at _ _ Hidx) as Hat.
    unfold at_index in Hat, Hnext.
    destruct (indexOf (leafFolderList s) (currentFolder s) <? 0)%Z eqn:E0;
      [discriminate|]. apply Z.ltb_ge in E0.
    destruct (indexOf (leafFolderList s) (currentFolder s) + 1 <? 0)%Z;
      [discriminate|].
    assert (Hsome : nth_error (leafFolderList s)
                      (Z.to_nat (indexOf (leafFolderList s) (currentFolder s) + 1))
                    <> None) by congruence.
    apply nth_error_Some in Hsome. unfold len. lia. }
  assert (Hs2 : s2 = handleFolderSelected B (currentFolder s) s1).
  { apply goToPrevLeafFolder_moves; try assumption.
    - now rewrite T1.
    - rewrite Leaf1, F1, Hidx'.
      pose proof (indexOf_at _ _ Hidx) as Hat. unfold at_index in Hat.
      destruct (indexOf (leafFolderList s) (currentFolder s) <? 0)%Z eqn:E0;
        [discriminate|]. apply Z.ltb_ge in E0. lia. }
  destruct (@handleFolderSelected_moves B (currentFolder s) s1 Hcur_ne)
    as (F2 & L2 & _); [rewrite F1; congruence|].
  rewrite <- Hs2 in F2, L2.
  rewrite F1 in L2. rewrite (truthy_true Hnext_ne) in L2.
  repeat split; assumption.
Qed.

(** X20.  The leaf-folder buttons do not wrap around: from the last entry of
    the leaf list "next folder" changes nothing, and from the first entry
    "previous folder" changes nothing. *)
Theorem leaf_folder_jumps_stop_at_the_ends (s : State) :
  (indexOf (leafFolderList s) (currentFolder s) = (len (leafFolderList s) - 1)%Z ->
   goToNextLeafFolder B s = s)
  /\ (indexOf (leafFolderList s) (currentFolder s) = 0%Z ->
      goToPrevLeafFolder B s = s).
Proof.
  split; intros Hidx.
  - unfold goToNextLeafFolder.
    destruct ((len (leafFolderList s) <? 2)%Z || isTreeLoading s) eqn:E;
      [reflexivity|]. props.
    rewrite Hidx.
    assert (E1 : (len (leafFolderList s) - 1 =? -1)%Z = false)
      by (apply Z.eqb_neq; lia).
    assert (E2 : (len (leafFolderList s) - 1 + 1 <? len (leafFolderList s))%Z = false)
      by (apply Z.ltb_ge; lia).
    now rewrite E1, E2.
  - unfold goToPrevLeafFolder.
    destruct ((len (leafFolderList s) <? 2)%Z || isTreeLoading s);
      [reflexivity|].
    rewrite Hidx. reflexivity.
Qed.

Lemma first_draw_found (n : nat) (reject : nat -> bool) (rnd : list nat) :
  Exists (fun u => reject (random_below u n) = false) rnd ->
  exists r, first_draw n reject rnd = Some r.
Proof.
  induction 1 as [u rest Hu|u rest _ IH]; cbn [first_draw].
  - rewrite Hu. now exists (random_below u n).
  - destruct (reject (random_below u n)); [exact IH|].
    now exists (random_below u n).
Qed.

(** X21.  With two leaf folders or more, none of them with an empty path, the
    random-folder button leaves the current folder.  Its loop draws
    again while the draw lands on the current folder: it ends as soon as
    one of the draws lands on another entry of the leaf list, the viewer
    is then in a folder of the leaf list that is not the one it started
    from, and in a leaf list without repetitions there is a draw that
    ends the loop. *)
Theorem goToRandomFolder_leaves_current_folder (rnd : list nat) (s : State) :
  isTreeLoading s = false ->
  (2 <= len (leafFolderList s))%Z ->
  ~ In "" (leafFolderList s) ->
  let lands_elsewhere (u : nat) : Prop :=
    nth_error (leafFolderList s)
              (random_below u (List.length (leafFolderList s)))
    <> Some (currentFolder s) in
  (Exists lands_elsewhere rnd -> exists s', goToRandomFolder B rnd s = Some s')
  /\ (forall s', goToRandomFolder B rnd s = Some s' ->
                 In (currentFolder s') (leafFolderList s)
                 /\ currentFolder s' <> currentFolder s)
  /\ (NoDup (leafFolderList s) -> exists u, lands_elsewhere u).
Proof.
  intros Htree Hlen Hempty lands_elsewhere. subst lands_elsewhere.
  assert (E1 : (len (leafFolderList s) =? 0)%Z = false) by (apply Z.eqb_neq; lia).
  assert (E2 : (len (leafFolderList s) >? 1)%Z = true) by (apply Z.gtb_lt; lia).
  assert (Hstep : forall r,
             first_draw (List.length (leafFolderList s))
                        (fun r => match nth_error (leafFolderList s) r with
                                  | Some randomFolder => randomFolder =? currentFolder s
                                  | None => false
                                  end) rnd = Some r ->
             exists randomFolder,
               nth_error (leafFolderList s) r = Some randomFolder
               /\ randomFolder <> "" /\ randomFolder <> currentFolder s
               /\ goToRandomFolder B rnd s
                  = Some (handleFolderSelected B randomFolder s)).
  { intros r Ed.
    pose proof (first_draw_accepted _ _ _ Ed) as Hrej. cbn beta in Hrej.
    destruct (nth_error (leafFolderList s) r) as [randomFolder|] eqn:En.
    - assert (Hin : In randomFolder (leafFolderList s))
        by (eapply nth_error_In; exact En).
      assert (Hne : randomFolder <> "") by (intros ->; contradiction).
      apply String.eqb_neq in Hrej.
      exists randomFolder. split; [reflexivity|]. split; [exact Hne|].
      split; [exact Hrej|].
      unfold goToRandomFolder. rewrite E1, Htree, E2. cbn [orb].
      rewrite Ed, En, (truthy_true Hne). reflexivity.
    - exfalso. apply first_draw_below in Ed; [|unfold len in Hlen; lia].
      apply nth_error_None in En. lia. }
  split; [|split].
  - intros Hex.
    destruct (@first_draw_found (List.length (leafFolderList s))
                (fun r => match nth_error (leafFolderList s) r with
                          | Some randomFolder => randomFolder =? currentFolder s
                          | None => false
                          end) rnd) as [r Ed].
    { eapply Exists_impl; [|exact Hex]. intros u Hu. cbn beta.
      destruct (nth_error (leafFolderList s)
                          (random_below u (List.length (leafFolderList s))))
        as [f|] eqn:En; [|reflexivity].
      apply String.eqb_neq. intros ->. now apply Hu. }
    destruct (Hstep r Ed) as (f & _ & _ & _ & Hgo). eexists. exact Hgo.
  - intros s' Hgo.
    assert (Hsome : exists r,
               first_draw (List.length (leafFolderList s))
                          (fun r => match nth_error (leafFolderList s) r with
                                    | Some randomFolder =>
                                        randomFolder =? currentFolder s
                                    | None => false
                                    end) rnd = Some r).
    { unfold goToRandomFolder in Hgo. rewrite E1, Htree, E2 in Hgo.
      cbn [orb] in Hgo.
      destruct (first_draw _ _ rnd) as [r|]; [now exists r|discriminate]. }
    destruct Hsome as [r Ed].
    destruct (Hstep r Ed) as (f & En & Hne & Hneq & Hgo').
    rewrite Hgo' in Hgo. injection Hgo as <-.
    destruct (@handleFolderSelected_moves B f s Hne Hneq) as (F & _).
    rewrite F. split; [eapply nth_error_In; exact En|exact Hneq].
  - intros Hnd. unfold len in Hlen.
    destruct (leafFolderList s) as [|a [|b l]] eqn:El;
      cbn [List.length] in Hlen; try lia.
    destruct (String.eqb_spec a (currentFolder s)) as [Ha|Ha].
    + exists 1%nat. unfold random_below.
      rewrite Nat.mod_small by (cbn [List.length]; lia).
      cbn [nth_error]. intros C. injection C as Hb.
      inversion Hnd as [|? ? Hnot _]; subst. apply Hnot. now left.
    + exists 0%nat. unfold random_below.
      rewrite Nat.mod_small by (cbn [List.length]; lia).
      cbn [nth_error]. intros C. injection C as Hb. contradiction.
Qed.
End ViewerCoherence.

(** ** The file name shown above the image *)
Section CurrentFilename.
Import App GoStrings Filepath ImageViewer.

Local Arguments Ascii.eqb : simpl never.
Local Arguments String.eqb : simpl never.

Lemma lastIndexOf_bounds (s : string) (c : ascii) :
  (-1 <= lastIndexOf s c < Z.of_nat (String.length s))%Z.
Proof.
  induction s as [|a s IH]; cbn [lastIndexOf String.length]; [lia|].
  destruct (lastIndexOf s c =? -1)%Z eqn:E.
  - destruct (Ascii.eqb a c); lia.
  - apply Z.eqb_neq in E. lia.
Qed.

Lemma lastIndexOf_app_absent (a n : string) (c : ascii) :
  contains_char c n = false -> lastIndexOf (a ++ n) c = lastIndexOf a c.
Proof.
  intros Hn. induction a as [|x a IH].
  - cbn [append lastIndexOf]. induction n as [|y n IHn]; [reflexivity|].
    cbn [contains_char] in Hn. apply orb_false_iff in Hn. destruct Hn as [Hy Hn].
    cbn [lastIndexOf]. rewrite (IHn Hn). cbn.
    now rewrite Ascii.eqb_sym, Hy.
  - cbn [append lastIndexOf]. now rewrite IH.
Qed.

Lemma lastIndexOf_snoc (a : string) (c : ascii) :
  lastIndexOf (a ++ String c "") c = Z.of_nat (String.length a).
Proof.
  induction a as [|x a IH].
  - cbn. now rewrite Ascii.eqb_refl.
  - cbn [append lastIndexOf String.length]. rewrite IH.
    destruct (Z.of_nat (String.length a) =? -1)%Z eqn:E;
      [apply Z.eqb_eq in E; lia|lia].
Qed.

Lemma append_assoc (a b c : string) : (a ++ b) ++ c = a ++ (b ++ c).
Proof. induction a as [|x a IH]; [reflexivity|]. cbn. now rewrite IH. Qed.

Lemma length_append (a b : string) :
  String.length (a ++ b) = (String.length a + String.length b)%nat.
Proof. induction a as [|x a IH]; [reflexivity|]. cbn. now rewrite IH. Qed.

Lemma substring_from_app (a b : string) :
  substring_from (String.length a) (a ++ b) = b.
Proof. induction a as [|x a IH]; [now destruct b|exact IH]. Qed.

(** What follows the last separator of [a/n] is [n]. *)
Lemma after_last_separator (a n : string) :
  contains_char "/"%char n = false ->
  contains_char backslash n = false ->
  substring_from
    (Z.to_nat (Z.max (lastIndexOf (a ++ "/" ++ n) "/"%char)
                     (lastIndexOf (a ++ "/" ++ n) backslash) + 1))
    (a ++ "/" ++ n)
  = n.
Proof.
  intros Hs Hb.
  rewrite <- append_assoc.
  rewrite (@lastIndexOf_app_absent (a ++ "/") n "/"%char Hs).
  rewrite (@lastIndexOf_app_absent (a ++ "/") n backslash Hb).
  rewrite lastIndexOf_snoc.
  pose proof (lastIndexOf_bounds (a ++ "/") backslash) as Hbound.
  rewrite length_append in Hbound. cbn [String.length] in Hbound.
  replace (Z.to_nat (Z.max (Z.of_nat (String.length a))
                           (lastIndexOf (a ++ "/") backslash) + 1))
    with (String.length (a ++ "/")) by (rewrite length_append; cbn; lia).
  apply substring_from_app.
Qed.

Lemma lastIndexOf_absent (n : string) (c : ascii) :
  contains_char c n = false -> lastIndexOf n c = (-1)%Z.
Proof. intros H. exact (@lastIndexOf_app_absent "" n c H). Qed.

Lemma join_sep_snoc (cs : list string) (n : string) :
  cs <> [] -> join_sep (cs ++ [n]) = join_sep cs ++ "/" ++ n.
Proof.
  induction cs as [|c cs IH]; intros Hne; [contradiction|].
  destruct cs as [|c' cs]; [reflexivity|].
  change (join_sep ((c :: c' :: cs) ++ [n]))
    with (c ++ "/" ++ join_sep ((c' :: cs) ++ [n])).
  rewrite IH by discriminate.
  change (join_sep (c :: c' :: cs)) with (c ++ "/" ++ join_sep (c' :: cs)).
  now rewrite !append_assoc.
Qed.

(** The rendering of elements that end in [n] is [n] itself or ends in
    a separator and [n]. *)
Lemma render_snoc (rooted : bool) (cs : list string) (n : string) :
  render rooted (cs ++ [n]) = n
  \/ exists a, render rooted (cs ++ [n]) = a ++ "/" ++ n.
Proof.
  destruct cs as [|c cs].
  - destruct rooted; [right; exists ""; reflexivity|left; reflexivity].
  - right. destruct rooted.
    + exists ("/" ++ join_sep (c :: cs)). unfold render.
      rewrite join_sep_snoc by discriminate. now rewrite append_assoc.
    + exists (join_sep (c :: cs)). unfold render.
      change ((c :: cs) ++ [n])%list with (c :: (cs ++ [n]))%list.
      destruct (cs ++ [n])%list eqn:E; [now destruct cs|].
      rewrite <- E.
      change (c :: (cs ++ [n]))%list with ((c :: cs) ++ [n])%list.
      now apply join_sep_snoc.
Qed.

(** X22.  The name shown above the image is the name of the file: for an
    image path that [filepath.Join] made from a directory and an entry
    name without a backslash, [currentFilename] is that entry name. *)
Theorem currentFilename_is_entry_name (s : State) (d n : string) :
  valid_name n = true ->
  contains_char backslash n = false ->
  at_index (images s) (currentIndex s) = Some (Join d n) ->
  currentFilename s = n.
Proof.
  intros Hn Hb Hat.
  pose proof (valid_name_inv _ Hn) as (_ & _ & _ & Hs).
  unfold currentFilename.
  assert (Hrange : (currentIndex s >=? 0)%Z && (len (images s) >? 0)%Z
                   && (currentIndex s <? len (images s))%Z = true).
  { unfold at_index in Hat.
    destruct (currentIndex s <? 0)%Z eqn:E; [discriminate|].
    apply Z.ltb_ge in E.
    assert (Hsome : nth_error (images s) (Z.to_nat (currentIndex s)) <> None)
      by congruence.
    apply nth_error_Some in Hsome.
    rewrite !andb_true_iff. repeat split.
    - apply Z.geb_le. lia.
    - apply Z.gtb_lt. unfold len. lia.
    - apply Z.ltb_lt. unfold len. lia. }
  rewrite Hrange, Hat.
  destruct (@Join_repr d n Hn) as (rooted & cs & _ & ->).
  destruct (render_snoc rooted cs n) as [->|(a & ->)].
  - rewrite (@lastIndexOf_absent n "/"%char Hs).
    rewrite (@lastIndexOf_absent n backslash Hb). reflexivity.
  - now apply after_last_separator.
Qed.
End CurrentFilename.

(** ** [FolderTree.vue]: which folders open *)
Section FolderTreeFacts.
Import App GoStrings Filepath ImageViewer FolderTree.
Context {go : Strings}.

Local Arguments Ascii.eqb : simpl never.
Local Arguments String.eqb : simpl never.

Lemma prefix_app (p rest : string) : String.prefix p (p ++ rest) = true.
Proof.
  induction p as [|a p IH]; [now destruct rest|].
  cbn [append String.prefix]. destruct (ascii_dec a a); [exact IH|contradiction].
Qed.

Lemma prefix_split (p s : string) :
  String.prefix p s = true -> exists rest, s = p ++ rest.
Proof.
  revert s. induction p as [|a p IH]; intros s H; [now exists s|].
  destruct s as [|b s]; [discriminate|].
  cbn [String.prefix] in H. destruct (ascii_dec a b) as [->|]; [|discriminate].
  destruct (IH s H) as (rest & ->). now exists rest.
Qed.

Lemma join_sep_app (cs ns : list string) :
  cs <> [] -> ns <> [] ->
  join_sep (cs ++ ns) = join_sep cs ++ "/" ++ join_sep ns.
Proof.
  intros Hcs Hns. induction cs as [|c cs IH]; [contradiction|].
  destruct cs as [|c' cs].
  - destruct ns; [contradiction|reflexivity].
  - change (join_sep ((c :: c' :: cs) ++ ns))
      with (c ++ "/" ++ join_sep ((c' :: cs) ++ ns)).
    rewrite IH by discriminate.
    change (join_sep (c :: c' :: cs)) with (c ++ "/" ++ join_sep (c' :: cs)).
    now rewrite !append_assoc.
Qed.

(** Below an absolute path, the path of a deeper element starts with
    the path and a separator. *)
Lemma render_below (cs ns : list string) :
  ns <> [] ->
  (cs = [] /\ exists rest, render true ns = "/" ++ rest)
  \/ (cs <> [] /\ exists rest, render true (cs ++ ns) = render true cs ++ "/" ++ rest).
Proof.
  intros Hns. destruct cs as [|c cs].
  - left. split; [reflexivity|]. now exists (join_sep ns).
  - right. split; [discriminate|]. exists (join_sep ns). unfold render.
    rewrite join_sep_app by (assumption || discriminate).
    now rewrite append_assoc.
Qed.

(** The paths of a tree, as elements below the elements of its root. *)
Lemma tree_paths (rooted : bool) (f : Folder) :
  forall cs,
    paths_joined f ->
    normal_elems rooted cs ->
    Path f = render rooted cs ->
    forall g, In g (f :: descendants f) ->
              exists ms, normal_elems rooted (cs ++ ms)
                         /\ Path g = render rooted (cs ++ ms)
                         /\ forall sel, In sel (flattenNode g) ->
                                        exists ns, normal_elems rooted ((cs ++ ms) ++ ns)
                                                   /\ sel = render rooted ((cs ++ ms) ++ ns).
Proof.
  induction f as [name path children IH] using Folder_forall_ind.
  intros cs Hj Hcs Hpath. cbn [Path] in Hpath.
  inversion Hj as [? ? ? Hch Hsub]; subst name0 path0 children0.
  assert (Hchild : forall c, In c children ->
             forall g, In g (c :: descendants c) ->
                       exists ms, ms <> []
                                  /\ normal_elems rooted (cs ++ ms)
                                  /\ Path g = render rooted (cs ++ ms)
                                  /\ forall sel, In sel (flattenNode g) ->
                                       exists ns, normal_elems rooted ((cs ++ ms) ++ ns)
                                                  /\ sel = render rooted ((cs ++ ms) ++ ns)).
  { intros c Hc g Hg.
    rewrite Forall_forall in IH, Hch, Hsub.
    destruct (Hch c Hc) as (Hv & _ & Hp).
    rewrite Hpath, (@Join_render rooted cs (Name c) Hcs Hv) in Hp.
    destruct (IH c Hc (cs ++ [Name c])%list (Hsub c Hc)
                 (@normal_elems_snoc rooted cs (Name c) Hcs Hv) Hp g Hg)
      as (ms & Hn & Hg' & Hsel).
    exists (Name c :: ms). rewrite <- app_assoc in Hn, Hg'. cbn [app] in Hn, Hg'.
    split; [discriminate|]. split; [exact Hn|]. split; [exact Hg'|].
    intros sel Hin. destruct (Hsel sel Hin) as (ns & H1 & H2).
    exists ns. rewrite <- (app_assoc cs [Name c] ms) in H1, H2.
    split; assumption. }
  assert (Hflat : forall sel, In sel (flat_map flattenNode children) ->
             exists ns, normal_elems rooted (cs ++ ns)
                        /\ sel = render rooted (cs ++ ns)).
  { intros sel Hin. apply in_flat_map in Hin. destruct Hin as (c & Hc & Hin).
    destruct (Hchild c Hc c (or_introl eq_refl)) as (ms & _ & _ & _ & Hsel).
    destruct (Hsel sel Hin) as (ns & H1 & H2).
    exists (ms ++ ns)%list. rewrite app_assoc. split; assumption. }
  intros g [<-|Hg].
  - exists []. rewrite !app_nil_r. split; [exact Hcs|]. split; [exact Hpath|].
    intros sel Hin. rewrite flattenNode_unfold in Hin.
    destruct Hin as [<-|Hin].
    + exists []. rewrite app_nil_r. split; assumption.
    + now apply Hflat.
  - rewrite descendants_unfold in Hg. apply in_flat_map in Hg.
    destruct Hg as (c & Hc & Hg).
    destruct (Hchild c Hc g Hg) as (ms & _ & H1 & H2 & H3).
    exists ms. repeat split; assumption.
Qed.

Lemma flattenNode_descendant (f g : Folder) :
  In g (f :: descendants f) -> incl (flattenNode g) (flattenNode f).
Proof.
  induction f as [name path children IH] using Folder_forall_ind.
  intros [<-|Hg]; [apply incl_refl|].
  rewrite descendants_unfold in Hg. apply in_flat_map in Hg.
  destruct Hg as (c & Hc & Hg).
  rewrite Forall_forall in IH. specialize (IH c Hc Hg).
  intros x Hx. rewrite flattenNode_unfold. right.
  apply in_flat_map. exists c. split; [exact Hc|now apply IH].
Qed.

(** X23.  A folder of the tree is opened when the selection is the folder or
    lies below it.  For a tree that [ListSubfolders] returns for an
    absolute clean path, with valid entry names and no backslash in any
    path, [isSelectedOrParentOfSelected] holds in every node of the tree
    for every selected path of the subtree of that node. *)
Theorem FolderTree_opens_path_to_selection
        (basePath : string) (n : FsNode) (root : Folder) (log : list string)
        (g : Folder) (selected : string) (lvl : option nat) :
  Clean basePath = basePath ->
  HasPrefix basePath "/" = true ->
  valid_entries n = true ->
  App.ListSubfolders basePath n = (Ok root, log) ->
  Forall (fun p => contains_char backslash p = false) (flattenNode root) ->
  In g (root :: descendants root) ->
  In selected (flattenNode g) ->
  isSelectedOrParentOfSelected
    {| folder := g; level := lvl; selectedPath := Some selected |} = true
  /\ watch_selectedPath
       {| folder := g; level := lvl; selectedPath := Some selected |} false = true.
Proof.
  intros Hclean Hroot Hvalid Hres Hback Hg Hsel.
  assert (Hopen : isSelectedOrParentOfSelected
                    {| folder := g; level := lvl; selectedPath := Some selected |}
                  = true);
    [|split; [exact Hopen|unfold watch_selectedPath; now rewrite Hopen]].
  destruct (@ListSubfolders_root _ _ _ _ _ Hres) as [_ Hp].
  pose proof (@ListSubfolders_joined _ _ _ _ _ Hvalid Hres) as Hj.
  destruct (Clean_fixed_repr Hclean) as (cs & Hcs & Hrepr).
  unfold HasPrefix in Hroot. rewrite Hroot in Hcs, Hrepr.
  rewrite <- Hp in Hrepr.
  destruct (@tree_paths true root cs Hj Hcs Hrepr g Hg) as (ms & Hn & Hpg & Hall).
  destruct (Hall selected Hsel) as (ns & Hns & ->).
  assert (Hgback : contains_char backslash (Path g) = false).
  { rewrite Forall_forall in Hback. apply Hback.
    apply (@flattenNode_descendant root g Hg).
    destruct g. rewrite flattenNode_unfold. now left. }
  unfold isSelectedOrParentOfSelected.
  cbn [selectedPath folder].
  assert (Htruthy : truthy (render true ((cs ++ ms) ++ ns)) = true)
    by reflexivity.
  rewrite Htruthy. cbn [negb].
  destruct (Path g =? render true ((cs ++ ms) ++ ns)) eqn:Eeq; [reflexivity|].
  rewrite Hgback. unfold startsWith.
  assert (Hnsne : ns <> []).
  { intros ->. rewrite app_nil_r, <- Hpg, String.eqb_refl in Eeq. discriminate. }
  rewrite Hpg.
  destruct (@render_below (cs ++ ms) ns Hnsne) as [(E & rest & Hr)|(E & rest & Hr)].
  - rewrite E. cbn [app]. change (render true []) with "/".
    change (endsWith "/" "/") with true. cbv iota.
    rewrite Hr. apply (prefix_app "/" rest).
  - rewrite Hr.
    destruct (endsWith (render true (cs ++ ms)) "/").
    + apply prefix_app.
    + rewrite <- append_assoc. apply prefix_app.
Qed.

Lemma endsWith_slash_free (a n : string) :
  n <> "" -> contains_char "/"%char n = false -> endsWith (a ++ n) "/" = false.
Proof.
  intros Hne Hsf.
  assert (Hn : forall m, m <> "" -> contains_char "/"%char m = false ->
                         endsWith m "/" = false).
  { induction m as [|x m IH]; intros H1 H2; [contradiction|].
    cbn [contains_char] in H2. apply orb_false_iff in H2. destruct H2 as [Hx Hm].
    cbn [endsWith].
    assert (E : (String x m =? "/") = false).
    { apply String.eqb_neq. intros C. injection C as -> _.
      rewrite Ascii.eqb_refl in Hx. discriminate. }
    rewrite E. cbn [orb].
    destruct m as [|y m']; [reflexivity|]. apply IH; [discriminate|exact Hm]. }
  induction a as [|x a IH]; [now apply Hn|].
  cbn [append endsWith].
  assert (E : (String x (a ++ n) =? "/") = false).
  { apply String.eqb_neq. intros C. injection C as _ C.
    destruct a; [|discriminate]. cbn in C. contradiction. }
  rewrite E. exact IH.
Qed.

(** X24.  A folder is not opened for the selection of a sibling, even when the
    sibling's name starts with the folder's own name ("folder" and
    "folder-other"): for two different valid names below one clean
    directory, [isSelectedOrParentOfSelected] does not hold in the first
    for the path of the second. *)
Theorem FolderTree_ignores_sibling_with_common_prefix
        (d n1 n2 : string) (children : list Folder) (lvl : option nat) :
  Clean d = d ->
  valid_name n1 = true ->
  valid_name n2 = true ->
  n1 <> n2 ->
  contains_char backslash (Join d n1) = false ->
  isSelectedOrParentOfSelected
    {| folder := mkFolder n1 (Join d n1) children; level := lvl;
       selectedPath := Some (Join d n2) |} = false.
Proof.
  intros Hclean Hv1 Hv2 Hneq Hback.
  destruct (Clean_fixed_repr Hclean) as (cs & Hcs & Hrepr).
  set (rooted := String.prefix "/" d) in *.
  assert (H1 : Join d n1 = render rooted (cs ++ [n1]))
    by (rewrite Hrepr at 1; now apply Join_render).
  assert (H2 : Join d n2 = render rooted (cs ++ [n2]))
    by (rewrite Hrepr at 1; now apply Join_render).
  pose proof (@normal_elems_snoc rooted cs n1 Hcs Hv1) as Hn1.
  pose proof (@normal_elems_snoc rooted cs n2 Hcs Hv2) as Hn2.
  unfold isSelectedOrParentOfSelected. cbn [selectedPath folder Path].
  rewrite Hback, H1, H2.
  destruct (negb (truthy (render rooted (cs ++ [n2])))); [reflexivity|].
  assert (Eeq : (render rooted (cs ++ [n1]) =? render rooted (cs ++ [n2])) = false).
  { apply String.eqb_neq. intros C. apply render_inj in C; [|assumption..].
    apply app_inj_tail in C. destruct C as [_ C]. contradiction. }
  rewrite Eeq.
  pose proof (valid_name_inv _ Hv1) as (Hne1 & _ & _ & Hsf1).
  assert (Eend : endsWith (render rooted (cs ++ [n1])) "/" = false).
  { destruct (render_snoc rooted cs n1) as [->|(a & ->)].
    - now apply (@endsWith_slash_free "" n1).
    - rewrite <- append_assoc. now apply endsWith_slash_free. }
  rewrite Eend. unfold startsWith.
  destruct (String.prefix (render rooted (cs ++ [n1]) ++ "/")
                          (render rooted (cs ++ [n2]))) eqn:Ep; [|reflexivity].
  exfalso. apply prefix_split in Ep. destruct Ep as (rest & Ep).
  apply (f_equal split_sep) in Ep.
  rewrite append_assoc in Ep.
  rewrite split_sep_app in Ep.
  rewrite !split_render in Ep by (assumption || now destruct cs).
  apply (f_equal (@List.length string)) in Ep.
  pose proof (split_sep_nonempty rest) as Hrest.
  destruct (split_sep rest) as [|r0 rs]; [contradiction|].
  destruct rooted; cbn [List.length] in Ep; rewrite ?length_app in Ep;
    cbn [List.length] in Ep; rewrite ?length_app in Ep;
    cbn [List.length] in Ep; lia.
Qed.
End FolderTreeFacts.


(** ** Next, from folder to folder *)

Section SequentialTour.
Import App ImageViewer.

Variable B : Bindings.

Local Arguments preloadNextImage : simpl never.
Local Arguments displayCurrentImage : simpl never.
Local Arguments loadImagesForPath : simpl never.
Local Arguments handleFolderSelected : simpl never.
Local Arguments stopSlideshow : simpl never.
Local Arguments nextLeafFolder : simpl never.
Local Arguments nextImage : simpl never.
Local Arguments String.eqb : simpl never.

Lemma subsequence_NoDup (l1 l2 : list string) :
  subsequence l1 l2 -> NoDup l2 -> NoDup l1.
Proof.
  intros Hsub Hnd.
  rewrite (@subsequence_filter _ _ Hsub Hnd (includes l1)
             (fun x _ => includes_In l1 x)).
  now apply NoDup_filter.
Qed.

Lemma NoDup_middle (pre post : list string) (x : string) :
  NoDup (pre ++ x :: post) -> ~ In x pre /\ ~ In x post.
Proof.
  intros H. apply NoDup_remove_2 in H.
  split; intros C; apply H; apply in_or_app; [now left|now right].
Qed.

(** At the end of a folder, with a next leaf folder [next]: where
    [nextImage] ends, with the image from the preload slot or without. *)
Lemma nextImage_crossing (s : State) (next : string) :
  (preloadedImageSrc s <> "" ->
   payload_of B (preloadedImageSrc s) (preloadedIndex s) (preloadedFolder s)) ->
  flatFolderList s <> [] ->
  (len (images s) <= currentIndex s + 1)%Z ->
  nextLeafFolder s = Some next ->
  next <> "" -> next <> currentFolder s ->
  currentFolder (nextImage B s) = next
  /\ match ListImages B next with
     | Ok imgs => images (nextImage B s) = imgs
                  /\ currentIndex (nextImage B s)
                     = (if (len imgs >? 0)%Z then 0 else -1)%Z
     | Err _ => images (nextImage B s) = []
                /\ currentIndex (nextImage B s) = (-1)%Z
     end.
Proof.
  intros S Hflat Hend Hnext Hne Hcur.
  rewrite nextImage_at_end, Hnext; [|now right|assumption].
  destruct ((next =? preloadedFolder s) && (0 =? preloadedIndex s)%Z
            && truthy (preloadedImageSrc s)) eqn:E.
  - apply andb_true_iff in E. destruct E as [E E3].
    apply andb_true_iff in E. destruct E as [E1 E2].
    apply String.eqb_eq in E1. apply Z.eqb_eq in E2.
    apply negb_true_iff, String.eqb_neq in E3.
    destruct (S E3) as (imgs & path & Hlist & Hat & _).
    rewrite <- E1, <- E2 in *.
    cbv zeta. rewrite Hlist. cbn.
    match goal with
    | |- context [preloadNextImage B ?t] =>
        destruct (preloadNextImage_position B t) as (-> & -> & ->)
    end.
    cbn. repeat split.
    destruct imgs as [|i imgs]; [discriminate|reflexivity].
  - destruct (@handleFolderSelected_moves B next s Hne Hcur)
      as (F & _ & _ & _ & _ & _ & _ & _ & I).
    split; [exact F|exact I].
Qed.

Lemma settlePrefetch_position (k : nat) (s : State) :
  currentFolder (settlePrefetch k s) = currentFolder s
  /\ images (settlePrefetch k s) = images s
  /\ currentIndex (settlePrefetch k s) = currentIndex s
  /\ flatFolderList (settlePrefetch k s) = flatFolderList s
  /\ leafFolderList (settlePrefetch k s) = leafFolderList s.
Proof.
  unfold settlePrefetch.
  destruct (nth_error (prefetches s) k) as [[data i f|]|]; repeat split.
Qed.

Lemma nth_error_flat_map (A : Type) (f : string -> list A) (l : list string)
      (i : nat) (x : A) :
  nth_error (flat_map f l) i = Some x ->
  exists pre y post j,
    l = (pre ++ y :: post)%list
    /\ i = (List.length (flat_map f pre) + j)%nat
    /\ nth_error (f y) j = Some x.
Proof.
  revert i. induction l as [|a l IH]; intros i H; cbn [flat_map] in H.
  - destruct i; discriminate.
  - destruct (Nat.lt_ge_cases i (List.length (f a))) as [Hlt|Hge].
    + rewrite nth_error_app1 in H by assumption.
      exists [], a, l, i. repeat split. exact H.
    + rewrite nth_error_app2 in H by assumption.
      destruct (IH _ H) as (pre & y & post & j & -> & Hi & Hj).
      exists (a :: pre), y, post, j. split; [reflexivity|]. split; [|exact Hj].
      cbn [flat_map]. rewrite length_app. lia.
Qed.

Lemma tour_split (pre post : list string) (c : string) :
  tour B (pre ++ c :: post)
  = (tour B pre ++ folder_positions B c ++ tour B post)%list.
Proof. unfold tour. now rewrite flat_map_app. Qed.

Lemma folder_positions_nonempty (folder : string) :
  (1 <= List.length (folder_positions B folder))%nat.
Proof.
  unfold folder_positions.
  destruct (ListImages B folder) as [[|i l]|e]; cbn [List.length]; try lia.
  rewrite length_map, length_seq. lia.
Qed.

Section OneTree.
Variable tree : Folder.
Hypothesis tree_nodup : NoDup (flattenNode tree).
Hypothesis tree_named : ~ In "" (leafNode tree).

(** What [loadImagesForPath] leaves in the image list for a folder. *)
Let listing (folder : string) : list string :=
  match ListImages B folder with
  | Ok imgs => imgs
  | Err _ => []
  end.

Let leaves : list string := leafNode tree.
Let stops : nat := List.length (tour B leaves).

Lemma tree_lists (s : State) :
  reachable B s ->
  folderTreeRoot s = Some tree ->
  flatFolderList s = flattenNode tree /\ leafFolderList s = leafNode tree.
Proof.
  intros [es Hrun] Htree.
  assert (H0 : flatFolderList initialState = flattenTree (folderTreeRoot initialState)
               /\ (folderTreeRoot initialState <> None ->
                   leafFolderList initialState
                   = getLeafFolders (folderTreeRoot initialState))).
  { split; [reflexivity|]. intros C. contradiction C. reflexivity. }
  destruct (lists_of_tree_run B es H0 Hrun) as [Hflat Hleaf].
  rewrite Htree in Hflat, Hleaf.
  split; [exact Hflat|]. apply Hleaf. discriminate.
Qed.

(** X25.  One call of each, from the same state, at the end of a leaf
    folder that has a next leaf folder: the Next button lands where the
    Next Folder button lands.  [nextImage] and [goToNextLeafFolder] end
    in the same folder, with the same image list, at the same index,
    provided an image held in the preload slot is what the backend
    serves for the position the slot names.  While the preload slot is
    empty the two do the same altogether.  The lists are those of a tree
    in which no path occurs twice and no leaf has the empty path. *)
Theorem nextImage_at_folder_end_matches_goToNextLeafFolder (s : State) :
  flatFolderList s = flattenNode tree ->
  leafFolderList s = leafNode tree ->
  In (currentFolder s) (leafNode tree) ->
  isTreeLoading s = false ->
  (len (images s) <= currentIndex s + 1)%Z ->
  hasNextLeafFolder s = true ->
  (preloadedImageSrc s <> "" ->
   payload_of B (preloadedImageSrc s) (preloadedIndex s) (preloadedFolder s)) ->
  currentFolder (nextImage B s) = currentFolder (goToNextLeafFolder B s)
  /\ images (nextImage B s) = images (goToNextLeafFolder B s)
  /\ currentIndex (nextImage B s) = currentIndex (goToNextLeafFolder B s)
  /\ (preloadedImageSrc s = "" -> nextImage B s = goToNextLeafFolder B s).
Proof.
  intros Hflat Hleaf Hin Hload Hend Hhas Hslot.
  assert (Hnd : NoDup (leafFolderList s)).
  { rewrite Hleaf.
    exact (@subsequence_NoDup _ _ (leafNode_subsequence tree) tree_nodup). }
  assert (Hin' : In (currentFolder s) (leafFolderList s)) by now rewrite Hleaf.
  assert (Hidx : indexOf (leafFolderList s) (currentFolder s) <> (-1)%Z).
  { intros C. now apply indexOf_missing in C. }
  assert (Hscan : nextLeafFolder s
                  = at_index (leafFolderList s)
                      (indexOf (leafFolderList s) (currentFolder s) + 1)).
  { apply nextLeafFolder_in_leaf_list; [| |exact Hin'].
    - rewrite Hflat, Hleaf. apply leafNode_subsequence.
    - now rewrite Hflat. }
  unfold hasNextLeafFolder in Hhas.
  destruct ((indexOf (flatFolderList s) (currentFolder s) =? -1)%Z
            || (len (flatFolderList s) =? 0)%Z); [discriminate|].
  destruct (nextLeafFolder s) as [next|] eqn:Hnext; [|discriminate].
  symmetry in Hscan.
  pose proof (at_index_In _ _ Hscan) as Hnin.
  assert (Hnn : next <> "").
  { intros ->. apply tree_named. now rewrite <- Hleaf. }
  assert (Hnc : next <> currentFolder s).
  { exact (proj1 (proj1 (neighbours (currentFolder s) Hnd Hidx) next Hscan)). }
  assert (Hne : flatFolderList s <> []).
  { rewrite Hflat. apply flattenNode_nonempty. }
  rewrite (goToNextLeafFolder_moves B s Hload Hidx Hscan).
  destruct (@nextImage_crossing s next Hslot Hne Hend Hnext Hnn Hnc) as [F I].
  destruct (@handleFolderSelected_moves B next s Hnn Hnc)
    as (F' & _ & _ & _ & _ & _ & _ & _ & I').
  cbv zeta in F', I'.
  split; [now rewrite F, F'|].
  split; [|split].
  - destruct (ListImages B next); destruct I as [-> _], I' as [-> _]; reflexivity.
  - destruct (ListImages B next); destruct I as [_ ->], I' as [_ ->]; reflexivity.
  - intros Hempty.
    rewrite nextImage_at_end, Hnext; [|now right|assumption].
    unfold truthy. rewrite Hempty. cbn [String.eqb negb].
    now rewrite andb_false_r.
Qed.

(** The state is at stop [i] of the tour of the tree. *)
Let on_tour (i : nat) (s : State) : Prop :=
  coherent B s
  /\ flatFolderList s = flattenNode tree
  /\ leafFolderList s = leaves
  /\ images s = listing (currentFolder s)
  /\ ((images s = [] /\ currentIndex s = (-1)%Z)
      \/ (0 <= currentIndex s < len (images s))%Z)
  /\ exists pre post,
       leaves = (pre ++ currentFolder s :: post)%list
       /\ i = (List.length (tour B pre) + Z.to_nat (currentIndex s))%nat.

Lemma folder_positions_at (s : State) :
  images s = listing (currentFolder s) ->
  (images s = [] /\ currentIndex s = (-1)%Z)
  \/ (0 <= currentIndex s < len (images s))%Z ->
  nth_error (folder_positions B (currentFolder s)) (Z.to_nat (currentIndex s))
  = Some (position s)
  /\ List.length (folder_positions B (currentFolder s))
     = Nat.max 1 (List.length (images s)).
Proof.
  intros Hl Hv. unfold folder_positions, listing, position in *.
  destruct (ListImages B (currentFolder s)) as [[|i l]|e]; rewrite Hl in *.
  - destruct Hv as [[_ ->]|Hv]; [now split|]. unfold len in Hv. cbn in Hv. lia.
  - destruct Hv as [[C _]|Hv]; [discriminate|].
    unfold len in Hv. cbn [List.length] in Hv.
    split.
    + rewrite nth_error_map, nth_error_seq.
      assert (E : (Z.to_nat (currentIndex s) <? S (List.length l))%nat = true)
        by (apply Nat.ltb_lt; lia).
      rewrite E. cbn [option_map Nat.add]. f_equal. f_equal. lia.
    + rewrite length_map, length_seq. cbn [List.length]. lia.
  - destruct Hv as [[_ ->]|Hv]; [now split|]. unfold len in Hv. cbn in Hv. lia.
Qed.

Lemma on_tour_position (i : nat) (s : State) :
  on_tour i s ->
  nth_error (tour B leaves) i = Some (position s) /\ (i < stops)%nat.
Proof.
  intros (_ & _ & _ & Hl & Hv & pre & post & Hsplit & ->).
  destruct (folder_positions_at s Hl Hv) as [Hat Hlen].
  assert (Hlt : (Z.to_nat (currentIndex s)
                 < List.length (folder_positions B (currentFolder s)))%nat).
  { apply nth_error_Some. congruence. }
  split.
  - rewrite Hsplit, tour_split.
    rewrite nth_error_app2 by lia.
    replace (List.length (tour B pre) + Z.to_nat (currentIndex s)
             - List.length (tour B pre))%nat
      with (Z.to_nat (currentIndex s)) by lia.
    rewrite nth_error_app1 by assumption. exact Hat.
  - unfold stops. rewrite Hsplit, tour_split, !length_app. lia.
Qed.

Lemma on_tour_nextImage (i : nat) (s : State) :
  on_tour i s -> on_tour (Nat.min (S i) (stops - 1)) (nextImage B s).
Proof.
  intros (Hco & Hflat & Hleaf & Hl & Hv & pre & post & Hsplit & Hi).
  destruct (keeps_tree_nextImage B s) as (_ & Kflat & Kleaf).
  destruct (folder_positions_at s Hl Hv) as [_ Hlen].
  assert (Hstops : stops = (List.length (tour B pre)
                            + List.length (folder_positions B (currentFolder s))
                            + List.length (tour B post))%nat).
  { unfold stops. rewrite Hsplit, tour_split, !length_app. lia. }
  assert (Hnd : NoDup leaves).
  { exact (@subsequence_NoDup _ _ (leafNode_subsequence tree) tree_nodup). }
  split; [now apply coherent_nextImage|].
  split; [now rewrite Kflat|]. split; [now rewrite Kleaf|].
  destruct (Z_lt_le_dec (currentIndex s + 1) (len (images s))) as [Hin|Hend].
  - (* inside the folder *)
    assert (Hr : (0 <= currentIndex s + 1 < len (images s))%Z).
    { destruct Hv as [[E E']|Hv]; [|lia].
      assert (len (images s) = 0%Z) by now rewrite E. lia. }
    assert (H0 : (0 <= currentIndex s)%Z).
    { destruct Hv as [[E E']|Hv]; [|lia].
      assert (len (images s) = 0%Z) by now rewrite E. lia. }
    destruct (nextImage_within B s Hr) as (F & I & J).
    rewrite F, I, J.
    split; [exact Hl|]. split; [right; lia|].
    exists pre, post. split; [exact Hsplit|].
    unfold len in Hr. lia.
  - (* at the end of the folder *)
    assert (Hlast : (Z.to_nat (currentIndex s) + 1
                     = List.length (folder_positions B (currentFolder s)))%nat).
    { rewrite Hlen. destruct Hv as [[E ->]|Hv]; [now rewrite E|].
      unfold len in *. lia. }
    assert (Hne : flatFolderList s <> []).
    { rewrite Hflat. apply flattenNode_nonempty. }
    assert (Hin : In (currentFolder s) (leafFolderList s)).
    { rewrite Hleaf, Hsplit. apply in_or_app. right. now left. }
    assert (Hnext : nextLeafFolder s = hd_error post).
    { rewrite nextLeafFolder_in_leaf_list.
      - rewrite Hleaf, Hsplit.
        rewrite indexOf_first, at_index_after; [reflexivity|].
        rewrite Hsplit in Hnd. now apply NoDup_middle in Hnd.
      - rewrite Hflat, Hleaf. apply leafNode_subsequence.
      - now rewrite Hflat.
      - exact Hin. }
    destruct post as [|next post'].
    + (* the last leaf folder *)
      rewrite nextImage_at_end, Hnext by (try (now right); lia).
      destruct (stopSlideshow_position s) as (F & I & J).
      cbn [hd_error]. rewrite F, I, J.
      split; [exact Hl|]. split; [exact Hv|].
      exists pre, []. split; [exact Hsplit|].
      cbn [tour flat_map List.length] in Hstops. lia.
    + cbn [hd_error] in Hnext.
      assert (Hnn : next <> "").
      { intros ->. apply tree_named. fold leaves. rewrite Hsplit.
        apply in_or_app. right. right. now left. }
      assert (Hnc : next <> currentFolder s).
      { intros ->. rewrite Hsplit in Hnd. apply NoDup_middle in Hnd.
        apply (proj2 Hnd). now left. }
      assert (Hend' : (len (images s) <= currentIndex s + 1)%Z) by lia.
      destruct (@nextImage_crossing s next (proj1 (proj2 (proj2 Hco)))
                  Hne Hend' Hnext Hnn Hnc) as [F I].
      pose proof (folder_positions_nonempty next) as Hpos.
      assert (Hgoal : images (nextImage B s) = listing next
                      /\ ((images (nextImage B s) = []
                           /\ currentIndex (nextImage B s) = (-1)%Z)
                          \/ (0 <= currentIndex (nextImage B s)
                              < len (images (nextImage B s)))%Z)
                      /\ Z.to_nat (currentIndex (nextImage B s)) = 0%nat).
      { unfold listing. destruct (ListImages B next) as [imgs|e].
        - destruct I as [-> ->]. split; [reflexivity|].
          destruct imgs as [|x imgs]; cbn; [split; [now left|reflexivity]|].
          split; [right; unfold len; cbn [List.length]; lia|reflexivity].
        - destruct I as [-> ->]. split; [reflexivity|].
          split; [now left|reflexivity]. }
      destruct Hgoal as (G1 & G2 & G3).
      rewrite F. split; [exact G1|]. split; [exact G2|].
      exists (pre ++ [currentFolder s])%list, post'.
      split; [rewrite Hsplit, <- app_assoc; reflexivity|].
      rewrite G3. unfold tour at 1. rewrite flat_map_app, length_app.
      cbn [flat_map]. rewrite app_nil_r.
      rewrite Hstops. change (next :: post') with ([next] ++ post')%list.
      unfold tour at 2. rewrite flat_map_app, length_app.
      cbn [flat_map]. rewrite app_nil_r. fold (tour B pre). lia.
Qed.

Lemma on_tour_settlePrefetch (i k : nat) (s : State) :
  on_tour i s -> on_tour i (settlePrefetch k s).
Proof.
  intros (Hco & Hflat & Hleaf & Hl & Hv & Hd).
  destruct (settlePrefetch_position k s) as (F & I & J & K1 & K2).
  unfold on_tour. rewrite F, I, J, K1, K2.
  split; [now apply coherent_settlePrefetch|]. repeat split; assumption.
Qed.

Lemma on_tour_start (i : nat) (s : State) :
  reachable B s ->
  folderTreeRoot s = Some tree ->
  nth_error (tour B leaves) i = Some (position s) ->
  on_tour i s.
Proof.
  intros [es Hrun] Htree Hat.
  pose proof (coherent_run es (coherent_initialState B) Hrun) as Hco.
  pose proof (consistent_run es (consistent_initialState B) Hrun) as (Hpos & _).
  apply position_ok_cases in Hpos.
  destruct (@tree_lists s (ex_intro _ es Hrun) Htree) as [Hflat Hleaf].
  split; [exact Hco|]. split; [exact Hflat|]. split; [exact Hleaf|].
  destruct (nth_error_flat_map _ _ _ Hat) as (pre & y & post & j & Hsplit & Hi & Hj).
  unfold position in Hj.
  assert (Hy : y = currentFolder s
               /\ ((currentIndex s = (-1)%Z /\ listing y = [])
                   \/ (currentIndex s = Z.of_nat j /\ listing y <> []))).
  { unfold folder_positions, listing in *.
    destruct (ListImages B y) as [[|x l]|e].
    - destruct j as [|[|j]]; try discriminate.
      injection Hj as -> <-. split; [reflexivity|now left].
    - rewrite nth_error_map, nth_error_seq in Hj.
      destruct (j <? S (List.length l))%nat; [|discriminate].
      cbn [option_map Nat.add] in Hj. injection Hj as -> <-.
      split; [reflexivity|]. right. split; [reflexivity|discriminate].
    - destruct j as [|[|j]]; try discriminate.
      injection Hj as -> <-. split; [reflexivity|now left]. }
  destruct Hy as [-> Hidx].
  assert (Hl : images s = listing (currentFolder s)).
  { destruct Hco as (L & _).
    destruct Hidx as [[E El]|[E El]].
    - destruct Hpos as [[-> _]|Hr]; [now rewrite El|lia].
    - unfold listing in *.
      destruct Hpos as [[_ C]|Hr]; [lia|].
      assert (Hne : images s <> []).
      { intros C. rewrite C in Hr. unfold len in Hr. cbn in Hr. lia. }
      now rewrite (L Hne). }
  split; [exact Hl|]. split; [exact Hpos|].
  exists pre, post. split; [exact Hsplit|].
  rewrite Hi. f_equal.
  destruct Hidx as [[E El]|[E El]]; rewrite E; [|lia].
  unfold folder_positions, listing in *.
  destruct (ListImages B (currentFolder s)) as [[|x l]|e];
    try discriminate; destruct j as [|[|j]]; try discriminate; reflexivity.
Qed.

Lemma min_step (a b : nat) :
  Nat.min (S (Nat.min a b)) b = Nat.min (S a) b.
Proof. lia. Qed.

Lemma on_tour_run (es : list Event) (i : nat) (s s' : State) :
  forallb (fun e => presses_next e || settles_prefetch e) es = true ->
  on_tour (Nat.min i (stops - 1)) s ->
  run B es s = Some s' ->
  on_tour (Nat.min (i + List.length (filter presses_next es)) (stops - 1)) s'.
Proof.
  revert i s. induction es as [|e es IH]; intros i s Hes Hs Hrun.
  - cbn in Hrun. injection Hrun as <-. cbn. now rewrite Nat.add_0_r.
  - cbn [forallb] in Hes. apply andb_true_iff in Hes. destruct Hes as [He Hes].
    cbn [run] in Hrun.
    destruct (handle B e s) as [s1|] eqn:E; [|discriminate].
    destruct e; try discriminate He; cbn [filter presses_next].
    + (* the Next button *)
      cbn [handle] in E. injection E as <-.
      apply on_tour_nextImage in Hs. rewrite min_step in Hs.
      specialize (IH (S i) _ Hes Hs Hrun).
      cbn [List.length]. now rewrite Nat.add_succ_r.
    + (* a key *)
      destruct key; try discriminate He.
      cbn [handle] in E.
      destruct (existsb (Nat.eqb h) (timers s)); [discriminate|].
      cbn [handleKeydown] in E. injection E as <-.
      apply on_tour_nextImage in Hs. rewrite min_step in Hs.
      specialize (IH (S i) _ Hes Hs Hrun).
      cbn [List.length]. now rewrite Nat.add_succ_r.
    + (* a prefetch settles *)
      cbn [handle] in E.
      destruct (k <? List.length (prefetches s))%nat; [|discriminate].
      injection E as <-.
      apply (on_tour_settlePrefetch k) in Hs.
      exact (IH i _ Hes Hs Hrun).
Qed.

Lemma presses_steady (steps : list (Bindings * Event)) :
  List.length (filter presses_next (map snd steps))
  = List.length (filter (fun step => presses_next (snd step)) steps).
Proof.
  induction steps as [|[B' e] rest IH]; [reflexivity|].
  cbn [map snd filter]. destruct (presses_next e); cbn [List.length]; now rewrite IH.
Qed.

(** X26.  Pressing Next walks through the leaf folders of the tree, over a
    disk that does not change and with every press run to completion
    before the next event.  From a position at stop [i] of the tour of
    the leaves, a run of presses of Next (the button or the right arrow
    key), with preload reads settling at any moment in between, ends at
    the stop that many presses further, and at the last stop when the
    tour has fewer left.  A leaf folder without images, or whose listing
    fails, is one stop.  The tree is one in which no path occurs twice
    and no leaf has the empty path. *)
Theorem next_walks_the_leaf_folders_in_order
        (past steps : list (Bindings * Event)) (s s' : State) (i : nat) :
  steady B past ->
  run_on past initialState = Some s ->
  folderTreeRoot s = Some tree ->
  nth_error (tour B (leafNode tree)) i = Some (position s) ->
  steady B steps ->
  forallb (fun step => presses_next (snd step) || settles_prefetch (snd step))
          steps = true ->
  run_on steps s = Some s' ->
  nth_error (tour B (leafNode tree))
            (Nat.min (i + List.length
                            (filter (fun step => presses_next (snd step)) steps))
                     (List.length (tour B (leafNode tree)) - 1))
  = Some (position s').
Proof.
  intros Hpast Hreach Htree Hat Hsteady Hes Hrun.
  rewrite (@run_on_steady B past initialState Hpast) in Hreach.
  rewrite (@run_on_steady B steps s Hsteady) in Hrun.
  assert (Hes' : forallb (fun e => presses_next e || settles_prefetch e)
                         (map snd steps) = true).
  { rewrite forallb_forall in Hes. apply forallb_forall.
    intros e He. apply in_map_iff in He. destruct He as (step & <- & Hin).
    exact (Hes step Hin). }
  pose proof (@on_tour_start i s (ex_intro _ _ Hreach) Htree Hat) as Hs.
  destruct (@on_tour_position i s Hs) as [_ Hlt].
  replace i with (Nat.min i (stops - 1)) in Hs by lia.
  rewrite <- presses_steady.
  exact (proj1 (@on_tour_position _ _
                  (@on_tour_run (map snd steps) i s s' Hes' Hs Hrun))).
Qed.

End OneTree.

End SequentialTour.


(** ** The scenario of the specification *)
Section ViewerExamples.
Import App ImageViewer.
Existing Instance GoStrings.ascii_names.

Lemma nextImage_crosses_to_next_leaf_witness :
  (let s := nextImage Scenario.library Scenario.at_b in
   preloadedImageSrc Scenario.at_b = ""
   /\ currentFolder s = "/root/2024-02"
   /\ images s = ["/root/2024-02/c.jpg"]
   /\ currentIndex s = 0%Z
   /\ at_index (images s) (currentIndex s) = Some "/root/2024-02/c.jpg"
   /\ currentImageSrc s = "data:image/png;base64,/root/2024-02/c.jpg")
  /\ (let s := nextImage Scenario.library Scenario.at_b_preloaded in
      preloadedImageSrc Scenario.at_b_preloaded
      = "data:image/png;base64,/root/2024-02/c.jpg"
      /\ currentFolder s = "/root/2024-02"
      /\ images s = ["/root/2024-02/c.jpg"]
      /\ currentIndex s = 0%Z
      /\ currentImageSrc s = "data:image/png;base64,/root/2024-02/c.jpg")
  /\ (let s := nextImage Scenario.sparse_library Scenario.at_y in
      currentFolder s = "/lib/b"
      /\ images s = []
      /\ currentIndex s = (-1)%Z
      /\ currentImageSrc s = "").
Proof.
  split; [|split].
  - destruct (@nextImage_crosses_to_next_leaf Scenario.library Scenario.at_b
                ["/root"] [] [] "/root/2024-02") as (F & Hsome & _).
    + reflexivity.
    + cbv. intros [H|[]]. discriminate H.
    + intros x [].
    + cbv. right. left. reflexivity.
    + discriminate.
    + cbv. discriminate.
    + cbv. discriminate.
    + destruct (Hsome "/root/2024-02/c.jpg" [] eq_refl) as (I & J & A & D & _).
      cbv zeta. split; [reflexivity|]. split; [exact F|]. split; [exact I|].
      split; [exact J|]. split; [exact A|].
      etransitivity; [exact D|]. vm_compute. reflexivity.
  - destruct (@nextImage_crosses_to_next_leaf Scenario.library
                Scenario.at_b_preloaded
                ["/root"] [] [] "/root/2024-02") as (F & Hsome & _).
    + reflexivity.
    + cbv. intros [H|[]]. discriminate H.
    + intros x [].
    + cbv. right. left. reflexivity.
    + discriminate.
    + cbv. discriminate.
    + cbv. discriminate.
    + destruct (Hsome "/root/2024-02/c.jpg" [] eq_refl) as (I & J & _ & D & _).
      cbv zeta. split; [reflexivity|]. split; [exact F|]. split; [exact I|].
      split; [exact J|].
      etransitivity; [exact D|]. vm_compute. reflexivity.
  - destruct (@nextImage_crosses_to_next_leaf Scenario.sparse_library
                Scenario.at_y
                ["/lib"] [] ["/lib/c"] "/lib/b") as (F & _ & Hnone).
    + reflexivity.
    + cbv. intros [H|[]]. discriminate H.
    + intros x [].
    + cbv. right. left. reflexivity.
    + discriminate.
    + cbv. discriminate.
    + cbv. discriminate.
    + destruct (Hnone eq_refl) as (I & J & D).
      { intros first rest. vm_compute. discriminate. }
      cbv zeta. split; [exact F|]. split; [exact I|]. split; [exact J|exact D].
Defined.

(** C1, as the specification words it, fails where the next leaf folder
    has no images: from [y.jpg], the last image of [/lib/a], [nextImage]
    switches to [/lib/b], and the index there is [-1], not 0, with no
    image on screen. *)
Lemma nextImage_into_leaf_without_images :
  let s := nextImage Scenario.sparse_library Scenario.at_y in
  images Scenario.at_y = ["/lib/a/x.jpg"; "/lib/a/y.jpg"]
  /\ currentIndex Scenario.at_y = 1%Z
  /\ nextLeafFolder Scenario.at_y = Some "/lib/b"
  /\ currentFolder s = "/lib/b"
  /\ images s = []
  /\ currentIndex s = (-1)%Z
  /\ currentIndex s <> 0%Z
  /\ currentImageSrc s = "".
Proof. vm_compute. repeat split. discriminate. Qed.


Lemma prevImage_within_folder_witness :
  let s := prevImage Scenario.library Scenario.at_b in
  currentFolder s = "/root/2024-01"
  /\ images s = ["/root/2024-01/a.jpg"; "/root/2024-01/b.jpg"]
  /\ currentIndex s = 0%Z
  /\ preload_empty s
  /\ prevImage Scenario.library Scenario.at_b
     = prevImage Scenario.library (clearPreload Scenario.at_b).
Proof.
  apply (@prevImage_within_folder Scenario.library Scenario.at_b).
  cbv. discriminate.
Defined.

(** From index 0 the move wraps to the last image of the same folder. *)
Lemma prevImage_wraps :
  let s0 := prevImage Scenario.library Scenario.at_b in
  let s := prevImage Scenario.library s0 in
  currentIndex s0 = 0%Z
  /\ currentFolder s = "/root/2024-01"
  /\ currentIndex s = 1%Z.
Proof. vm_compute. repeat split. Qed.

Lemma goToLastVisitedFolder_swap_witness :
  let s1 := goToLastVisitedFolder Scenario.library Scenario.at_b in
  let s2 := goToLastVisitedFolder Scenario.library s1 in
  goToLastVisitedFolder Scenario.library initialState = initialState
  /\ currentFolder Scenario.at_b = "/root/2024-01"
  /\ lastVisitedFolder Scenario.at_b = "/root"
  /\ currentFolder s2 = "/root/2024-01"
  /\ lastVisitedFolder s2 = "/root".
Proof.
  intros s1 s2.
  split; [apply (proj1 (goToLastVisitedFolder_swap Scenario.library initialState));
          reflexivity|].
  split; [reflexivity|]. split; [reflexivity|].
  destruct (proj2 (goToLastVisitedFolder_swap Scenario.library Scenario.at_b))
    as (F2 & L2 & _).
  - cbv. discriminate.
  - cbv. discriminate.
  - cbv. discriminate.
  - split; assumption.
Defined.

Lemma position_invariant_reachable_witness :
  (images Scenario.at_c_playing <> [] ->
   (0 <= currentIndex Scenario.at_c_playing < len (images Scenario.at_c_playing))%Z)
  /\ (currentIndex Scenario.at_c_playing = (-1)%Z <-> images Scenario.at_c_playing = []).
Proof.
  apply (@position_invariant_reachable Scenario.library Scenario.at_c_playing).
  exists [ Browse (Ok "/root"); TreeClick "/root/2024-01"; PrefetchSettled 0;
           ClickSlideshow 1 []; PrefetchSettled 0; Tick 1 [] ].
  vm_compute. reflexivity.
Defined.

(** C3, at a failing input.  The viewer is at [b.jpg], the last image of
    [/root/2024-01], and the preload slot holds [c.jpg], the first image
    of the next leaf folder [/root/2024-02], read while the file was
    there.  Then [c.jpg] is deleted from the disk and the user presses
    Next.  [nextImage] takes the image from the slot, sets the folder,
    assigns the fresh listing of the folder, which is empty, to the image
    list, and sets the index to 0 without looking at the list: the
    viewer is left at index 0 of an empty list. *)
Lemma position_invariant_lost_on_emptied_folder :
  exists s : State,
    run_on [ (Scenario.library, Browse (Ok "/root"));
             (Scenario.library, TreeClick "/root/2024-01");
             (Scenario.library, PrefetchSettled 0);
             (Scenario.library, ClickNext);
             (Scenario.library, PrefetchSettled 0);
             (Scenario.library_without_c, ClickNext) ] initialState
    = Some s
    /\ ListImages Scenario.library "/root/2024-02" = Ok ["/root/2024-02/c.jpg"]
    /\ ListImages Scenario.library_without_c "/root/2024-02" = Ok []
    /\ currentFolder s = "/root/2024-02"
    /\ images s = []
    /\ currentIndex s = 0%Z
    /\ ~ (currentIndex s = (-1)%Z <-> images s = []).
Proof.
  eexists. split; [vm_compute; reflexivity|].
  split; [reflexivity|]. split; [reflexivity|].
  split; [reflexivity|]. split; [reflexivity|]. split; [reflexivity|].
  intros [_ H]. specialize (H eq_refl). discriminate H.
Qed.

(** C10, at two failing inputs.  A sequence slideshow is running at the
    last image of a leaf folder that has a leaf folder after it, so the
    state is not the saturating end state, and the timer fires.
    - In [/root/2024-01] at [b.jpg], with the prefetch of [c.jpg] still in
      flight: the position crosses to [/root/2024-02].
    - In [/lib/a] at [y.jpg], with nothing in flight; the next leaf folder
      [/lib/b] has no images, so there was nothing to prefetch: the
      position crosses to [/lib/b].
    Both times the slideshow is stopped and its timer cleared. *)
Lemma sequence_tick_crossing_stops_slideshow :
  (reachable Scenario.library Scenario.at_b_playing
   /\ slideshowActive Scenario.at_b_playing = true
   /\ slideshowMode Scenario.at_b_playing = sequence
   /\ slideshowInterval Scenario.at_b_playing = Some 1%nat
   /\ currentFolder Scenario.at_b_playing = "/root/2024-01"
   /\ currentIndex Scenario.at_b_playing = 1%Z
   /\ hasNextLeafFolder Scenario.at_b_playing = true
   /\ preloadedImageSrc Scenario.at_b_playing = ""
   /\ exists s',
       intervalTick Scenario.library 1 [] Scenario.at_b_playing = Some s'
       /\ currentFolder s' = "/root/2024-02"
       /\ currentIndex s' = 0%Z
       /\ slideshowActive s' = false
       /\ slideshowInterval s' = None
       /\ timers s' = [])
  /\ (reachable Scenario.sparse_library Scenario.at_y_playing
      /\ slideshowActive Scenario.at_y_playing = true
      /\ slideshowMode Scenario.at_y_playing = sequence
      /\ slideshowInterval Scenario.at_y_playing = Some 1%nat
      /\ currentFolder Scenario.at_y_playing = "/lib/a"
      /\ currentIndex Scenario.at_y_playing = 1%Z
      /\ hasNextLeafFolder Scenario.at_y_playing = true
      /\ prefetches Scenario.at_y_playing = []
      /\ exists s',
          intervalTick Scenario.sparse_library 1 [] Scenario.at_y_playing = Some s'
          /\ currentFolder s' = "/lib/b"
          /\ images s' = []
          /\ slideshowActive s' = false
          /\ slideshowInterval s' = None
          /\ timers s' = []).
Proof.
  split.
  - split.
    + exists [Browse (Ok "/root"); TreeClick "/root/2024-01"; ClickSlideshow 1 []].
      reflexivity.
    + repeat (split; [reflexivity|]).
      eexists. split; [vm_compute; reflexivity|].
      repeat split.
  - split.
    + exists [Browse (Ok "/lib"); TreeClick "/lib/a"; PrefetchSettled 0;
              ClickSlideshow 1 []].
      reflexivity.
    + repeat (split; [vm_compute; reflexivity|]).
      eexists. split; [vm_compute; reflexivity|].
      repeat split.
Qed.

(** The same tick after the prefetch has settled crosses without
    stopping the slideshow. *)
Lemma sequence_tick_crossing_with_preload :
  slideshowActive Scenario.at_c_playing = true
  /\ slideshowInterval Scenario.at_c_playing = Some 1%nat
  /\ currentFolder Scenario.at_c_playing = "/root/2024-02".
Proof. repeat split. Qed.
End ViewerExamples.

(** ** The further properties on the scenarios *)
Section BackendExamples.
Import App GoStrings.
Existing Instance GoStrings.ascii_names.

Lemma ListImages_only_direct_images_witness :
  Forall (fun p => Filepath.Dir p = "/pics"
                   /\ validExtensions (ToLower (Filepath.Ext p)) = true)
         ["/pics/IMG_7.PNG"; "/pics/file1.jpg"; "/pics/file10.jpg";
          "/pics/file2.jpg"; "/pics/raw.RAF"]
  /\ Sorted (fun a b => String.leb a b = true)
            ["/pics/IMG_7.PNG"; "/pics/file1.jpg"; "/pics/file10.jpg";
             "/pics/file2.jpg"; "/pics/raw.RAF"].
Proof.
  apply (@ListImages_only_direct_images _ "/pics" Scenario.pictures).
  reflexivity.
Defined.

Lemma ListImages_unclean_path_lists_nothing_witness :
  exists l, ListImages "/pics/" Scenario.pictures = Ok l /\ l = [].
Proof.
  exists []. split; [reflexivity|].
  apply (@ListImages_unclean_path_lists_nothing _ "/pics/" Scenario.pictures []).
  - vm_compute. discriminate.
  - reflexivity.
Defined.

Lemma ListImages_succeeds_iff_all_readable_witness :
  ((exists l, ListImages "/pics" Scenario.pictures = Ok l)
   <-> all_readable Scenario.pictures = true)
  /\ ((exists l, ListImages "/albums" Scenario.albums = Ok l)
      <-> all_readable Scenario.albums = true).
Proof.
  split.
  - apply (@ListImages_succeeds_iff_all_readable _ "/pics" Scenario.pictures).
    reflexivity.
  - apply (@ListImages_succeeds_iff_all_readable _ "/albums" Scenario.albums).
    reflexivity.
Defined.

Lemma ReadImage_payload_or_error_witness :
  (exists mime data,
      "data:image/webp;base64,RIFF"
      = "data:" ++ mime ++ ";base64,"
        ++ base64_EncodeToString Scenario.fallback_world data
      /\ In mime ["image/jpeg"; "image/png"; "image/gif"; "image/bmp";
                  "image/webp"; "application/octet-stream"])
  /\ "" = "".
Proof.
  split.
  - apply (@ReadImage_payload_or_error _ Scenario.fallback_world
             "/pics/photo.WEBP" "data:image/webp;base64,RIFF" None []).
    reflexivity.
  - apply (@ReadImage_payload_or_error _ Scenario.panicking_world
             "/pics/photo.jpg" "" (Some "failed to open file /pics/photo.jpg: no such file") []).
    reflexivity.
Defined.

Lemma ReadImage_raf_always_returns_witness :
  exists enc err log,
    ReadImage Scenario.fallback_world "/pics/DSCF0001.RAF"
    = Returns ((enc, err), log)
    /\ (err = None <->
        exists raf, raw_ReadRAF Scenario.fallback_world "/pics/DSCF0001.RAF"
                    = Returns (Some raf) /\ Jpeg raf <> "")
    /\ (forall raf, raw_ReadRAF Scenario.fallback_world "/pics/DSCF0001.RAF"
                    = Returns (Some raf) ->
                    Jpeg raf <> "" ->
                    enc = "data:image/jpeg;base64,"
                          ++ base64_EncodeToString Scenario.fallback_world (Jpeg raf)).
Proof.
  apply (@ReadImage_raf_always_returns _ Scenario.fallback_world "/pics/DSCF0001.RAF").
  reflexivity.
Defined.

Lemma ListSubfolders_hides_dot_directories_witness :
  Forall (fun c => HasPrefix (Name c) "." = false)
         (descendants
            (mkFolder "albums" "/albums"
               [ mkFolder "img2" "/albums/img2" [mkFolder "raw" "/albums/img2/raw" []];
                 mkFolder "img10" "/albums/img10" [];
                 mkFolder "locked" "/albums/locked" [] ])).
Proof.
  refine (@ListSubfolders_hides_dot_directories _ "/albums" Scenario.albums _ _ _ _);
    reflexivity.
Defined.

Lemma ListSubfolders_paths_follow_tree_witness :
  let root :=
    mkFolder "albums" "/albums"
       [ mkFolder "img2" "/albums/img2" [mkFolder "raw" "/albums/img2/raw" []];
         mkFolder "img10" "/albums/img10" [];
         mkFolder "locked" "/albums/locked" [] ] in
  Path root = "/albums"
  /\ Name root = Filepath.Base "/albums"
  /\ Forall (fun g => Forall (fun c => Path c = Filepath.Join (Path g) (Name c))
                             (Children g))
            (root :: descendants root).
Proof.
  refine (@ListSubfolders_paths_follow_tree _ "/albums" Scenario.albums _ _ _ _);
    reflexivity.
Defined.
End BackendExamples.

Section FrontEndExamples.
Import App ImageViewer FolderTree.
Existing Instance GoStrings.ascii_names.

Lemma nextLeafFolder_is_next_in_leaf_list_witness :
  nextLeafFolder Scenario.at_b
  = at_index (leafFolderList Scenario.at_b)
             (indexOf (leafFolderList Scenario.at_b) (currentFolder Scenario.at_b) + 1).
Proof.
  apply (@nextLeafFolder_is_next_in_leaf_list Scenario.at_b Scenario.library_tree).
  - reflexivity.
  - reflexivity.
  - assert (H : flatFolderList Scenario.at_b
                = ["/root"; "/root/2024-01"; "/root/2024-02"])
      by (vm_compute; reflexivity).
    rewrite H.
    repeat constructor; cbn [In]; intros C;
      repeat (destruct C as [C|C]; [discriminate C|]); exact C.
  - vm_compute. left. reflexivity.
Defined.

Lemma hasNextLeafFolder_unless_last_witness :
  hasNextLeafFolder Scenario.at_b = true
  <-> (0 <= indexOf (flatFolderList Scenario.at_b) (currentFolder Scenario.at_b)
       < len (flatFolderList Scenario.at_b) - 1)%Z.
Proof.
  apply (@hasNextLeafFolder_unless_last Scenario.at_b Scenario.library_tree);
    reflexivity.
Defined.

Lemma images_are_listing_of_current_folder_witness :
  ListImages Scenario.library (currentFolder Scenario.at_c_playing)
  = Ok (images Scenario.at_c_playing).
Proof.
  apply (@images_are_listing_of_current_folder Scenario.library
           (map (pair Scenario.library)
                [ Browse (Ok "/root"); TreeClick "/root/2024-01"; PrefetchSettled 0;
                  ClickSlideshow 1 []; PrefetchSettled 0; Tick 1 [] ])
           Scenario.at_c_playing).
  - repeat constructor.
  - vm_compute. reflexivity.
  - vm_compute. discriminate.
Defined.

Lemma shown_image_is_at_current_index_witness :
  exists path,
    at_index (images Scenario.at_c_playing) (currentIndex Scenario.at_c_playing)
    = Some path
    /\ ReadImage Scenario.library path = Ok (currentImageSrc Scenario.at_c_playing).
Proof.
  apply (@shown_image_is_at_current_index Scenario.library
           (map (pair Scenario.library)
                [ Browse (Ok "/root"); TreeClick "/root/2024-01"; PrefetchSettled 0;
                  ClickSlideshow 1 []; PrefetchSettled 0; Tick 1 [] ])
           Scenario.at_c_playing).
  - repeat constructor.
  - vm_compute. reflexivity.
  - vm_compute. discriminate.
Defined.

Lemma preload_slot_holds_named_image_witness :
  exists imgs path,
    ListImages Scenario.library (preloadedFolder Scenario.at_a_preloaded) = Ok imgs
    /\ at_index imgs (preloadedIndex Scenario.at_a_preloaded) = Some path
    /\ ReadImage Scenario.library path
       = Ok (preloadedImageSrc Scenario.at_a_preloaded).
Proof.
  apply (@preload_slot_holds_named_image Scenario.library
           (map (pair Scenario.library)
                [ Browse (Ok "/root"); TreeClick "/root/2024-01"; PrefetchSettled 0 ])
           Scenario.at_a_preloaded).
  - repeat constructor.
  - vm_compute. reflexivity.
  - vm_compute. discriminate.
Defined.

Lemma active_slideshow_has_live_timer_witness :
  exists h, slideshowInterval Scenario.at_c_playing = Some h
            /\ In h (timers Scenario.at_c_playing).
Proof.
  apply (@active_slideshow_has_live_timer Scenario.library Scenario.at_c_playing).
  - exists [ Browse (Ok "/root"); TreeClick "/root/2024-01"; PrefetchSettled 0;
             ClickSlideshow 1 []; PrefetchSettled 0; Tick 1 [] ].
    vm_compute. reflexivity.
  - reflexivity.
Defined.

Lemma active_slideshow_delay_at_least_minimum_witness :
  let s := Scenario.after Scenario.library
             [ Browse (Ok "/root"); TreeClick "/root/2024-01";
               EnterDelay (Some 20%Z); ClickSlideshow 1 [] ] in
  slideshowActive s = true
  /\ exists d, slideshowDelay s = Some d /\ (500 <= d)%Z.
Proof.
  intros s. split; [reflexivity|].
  apply (@active_slideshow_delay_at_least_minimum Scenario.library s).
  - exists [ Browse (Ok "/root"); TreeClick "/root/2024-01";
               EnterDelay (Some 20%Z); ClickSlideshow 1 [] ].
    vm_compute. reflexivity.
  - reflexivity.
Defined.

Lemma navigation_lists_belong_to_tree_witness :
  flatFolderList Scenario.at_b = flattenTree (folderTreeRoot Scenario.at_b)
  /\ (forall tree, folderTreeRoot Scenario.at_b = Some tree ->
                   leafFolderList Scenario.at_b = getLeafFolders (Some tree)).
Proof.
  apply (@navigation_lists_belong_to_tree Scenario.library Scenario.at_b).
  exists [ Browse (Ok "/root"); TreeClick "/root/2024-01"; ClickNext ].
  vm_compute. reflexivity.
Defined.

Lemma nextImage_prevImage_undo_each_other_witness :
  (let s' := prevImage Scenario.library (nextImage Scenario.library Scenario.at_a) in
   currentFolder s' = currentFolder Scenario.at_a
   /\ images s' = images Scenario.at_a
   /\ currentIndex s' = currentIndex Scenario.at_a)
  /\ (let s' := nextImage Scenario.library (prevImage Scenario.library Scenario.at_b) in
      currentFolder s' = currentFolder Scenario.at_b
      /\ images s' = images Scenario.at_b
      /\ currentIndex s' = currentIndex Scenario.at_b).
Proof.
  split.
  - apply (proj1 (@nextImage_prevImage_undo_each_other Scenario.library Scenario.at_a));
      vm_compute; [discriminate|reflexivity].
  - apply (proj2 (@nextImage_prevImage_undo_each_other Scenario.library Scenario.at_b));
      vm_compute; reflexivity.
Defined.

Lemma displayRandomImageInFolder_picks_another_image_witness :
  exists s',
    displayRandomImageInFolder Scenario.library [1; 0]%nat Scenario.at_b = Some s'
    /\ currentIndex s' <> currentIndex Scenario.at_b
    /\ (0 <= currentIndex s' < len (images Scenario.at_b))%Z
    /\ images s' = images Scenario.at_b
    /\ currentFolder s' = currentFolder Scenario.at_b.
Proof.
  eexists. split; [vm_compute; reflexivity|].
  apply (@displayRandomImageInFolder_picks_another_image
           Scenario.library [1; 0]%nat Scenario.at_b).
  - vm_compute. discriminate.
  - vm_compute. reflexivity.
Defined.

Lemma goToNextLeafFolder_then_goToPrevLeafFolder_witness :
  let s1 := goToNextLeafFolder Scenario.library Scenario.at_a in
  let s2 := goToPrevLeafFolder Scenario.library s1 in
  currentFolder Scenario.at_a = "/root/2024-01"
  /\ currentFolder s1 = "/root/2024-02"
  /\ currentFolder s2 = currentFolder Scenario.at_a
  /\ lastVisitedFolder s2 = "/root/2024-02".
Proof.
  intros s1 s2. split; [reflexivity|].
  apply (@goToNextLeafFolder_then_goToPrevLeafFolder
           Scenario.library Scenario.at_a "/root/2024-02").
  - reflexivity.
  - assert (H : leafFolderList Scenario.at_a = ["/root/2024-01"; "/root/2024-02"])
      by (vm_compute; reflexivity).
    rewrite H.
    repeat constructor; cbn [In]; intros C;
      repeat (destruct C as [C|C]; [discriminate C|]); exact C.
  - assert (H : leafFolderList Scenario.at_a = ["/root/2024-01"; "/root/2024-02"])
      by (vm_compute; reflexivity).
    rewrite H. cbn [In]. intros C.
    repeat (destruct C as [C|C]; [discriminate C|]). exact C.
  - vm_compute. discriminate.
  - vm_compute. reflexivity.
Defined.

Lemma leaf_folder_jumps_stop_at_the_ends_witness :
  goToNextLeafFolder Scenario.library Scenario.at_c = Scenario.at_c
  /\ goToPrevLeafFolder Scenario.library Scenario.at_a = Scenario.at_a.
Proof.
  split.
  - apply (proj1 (@leaf_folder_jumps_stop_at_the_ends Scenario.library Scenario.at_c)).
    vm_compute. reflexivity.
  - apply (proj2 (@leaf_folder_jumps_stop_at_the_ends Scenario.library Scenario.at_a)).
    vm_compute. reflexivity.
Defined.

Lemma goToRandomFolder_leaves_current_folder_witness :
  exists s',
    goToRandomFolder Scenario.library [0; 1]%nat Scenario.at_a = Some s'
    /\ In (currentFolder s') (leafFolderList Scenario.at_a)
    /\ currentFolder s' <> currentFolder Scenario.at_a.
Proof.
  assert (Hleaf : leafFolderList Scenario.at_a = ["/root/2024-01"; "/root/2024-02"])
    by (vm_compute; reflexivity).
  destruct (@goToRandomFolder_leaves_current_folder
              Scenario.library [0; 1]%nat Scenario.at_a)
    as (Hends & Hleaves & _).
  - reflexivity.
  - vm_compute. discriminate.
  - rewrite Hleaf. cbn [In]. intros C.
    repeat (destruct C as [C|C]; [discriminate C|]). exact C.
  - destruct Hends as [s' Hgo].
    + apply Exists_cons_tl. apply Exists_cons_hd.
      vm_compute. discriminate.
    + exists s'. split; [exact Hgo|]. now apply Hleaves.
Defined.

Lemma currentFilename_is_entry_name_witness :
  currentFilename Scenario.at_b = "b.jpg".
Proof.
  apply (@currentFilename_is_entry_name Scenario.at_b "/root/2024-01" "b.jpg");
    reflexivity.
Defined.

Lemma FolderTree_opens_path_to_selection_witness :
  let img2 := mkFolder "img2" "/albums/img2" [mkFolder "raw" "/albums/img2/raw" []] in
  isSelectedOrParentOfSelected
    {| folder := img2; level := Some 1%nat;
       selectedPath := Some "/albums/img2/raw" |} = true
  /\ watch_selectedPath
       {| folder := img2; level := Some 1%nat;
          selectedPath := Some "/albums/img2/raw" |} false = true.
Proof.
  intros img2.
  refine (@FolderTree_opens_path_to_selection _
            "/albums" Scenario.albums _ _ img2 "/albums/img2/raw" (Some 1%nat)
            _ _ _ _ _ _ _).
  - reflexivity.
  - reflexivity.
  - reflexivity.
  - reflexivity.
  - vm_compute. repeat constructor.
  - vm_compute. right. left. reflexivity.
  - vm_compute. right. left. reflexivity.
Defined.

Lemma FolderTree_ignores_sibling_with_common_prefix_witness :
  isSelectedOrParentOfSelected
    {| folder := mkFolder "folder" "/base/folder" []; level := None;
       selectedPath := Some "/base/folder-other" |} = false.
Proof.
  apply (@FolderTree_ignores_sibling_with_common_prefix
           "/base" "folder" "folder-other" [] None).
  - reflexivity.
  - reflexivity.
  - reflexivity.
  - discriminate.
  - reflexivity.
Defined.
Lemma sparse_tree_nodup : NoDup (flattenNode Scenario.sparse_tree).
Proof.
  cbn.
  repeat constructor; cbn [In]; intros C;
    repeat (destruct C as [C|C]; [discriminate C|]); exact C.
Qed.

Lemma sparse_tree_named : ~ In "" (leafNode Scenario.sparse_tree).
Proof.
  cbn. intros C. repeat (destruct C as [C|C]; [discriminate C|]). exact C.
Qed.

Lemma library_tree_nodup : NoDup (flattenNode Scenario.library_tree).
Proof.
  cbn.
  repeat constructor; cbn [In]; intros C;
    repeat (destruct C as [C|C]; [discriminate C|]); exact C.
Qed.

Lemma library_tree_named : ~ In "" (leafNode Scenario.library_tree).
Proof.
  cbn. intros C. repeat (destruct C as [C|C]; [discriminate C|]). exact C.
Qed.

Lemma nextImage_at_folder_end_matches_goToNextLeafFolder_witness :
  (preloadedImageSrc Scenario.at_b = ""
   /\ currentFolder (nextImage Scenario.library Scenario.at_b) = "/root/2024-02"
   /\ nextImage Scenario.library Scenario.at_b
      = goToNextLeafFolder Scenario.library Scenario.at_b)
  /\ (preloadedImageSrc Scenario.at_b_preloaded <> ""
      /\ currentFolder (nextImage Scenario.library Scenario.at_b_preloaded)
         = currentFolder (goToNextLeafFolder Scenario.library Scenario.at_b_preloaded)
      /\ images (nextImage Scenario.library Scenario.at_b_preloaded)
         = images (goToNextLeafFolder Scenario.library Scenario.at_b_preloaded)
      /\ currentIndex (nextImage Scenario.library Scenario.at_b_preloaded)
         = currentIndex (goToNextLeafFolder Scenario.library Scenario.at_b_preloaded)).
Proof.
  split.
  - destruct (@nextImage_at_folder_end_matches_goToNextLeafFolder
                Scenario.library Scenario.library_tree library_tree_nodup
                library_tree_named Scenario.at_b)
      as (_ & _ & _ & Hsame).
    + reflexivity.
    + reflexivity.
    + vm_compute. left. reflexivity.
    + reflexivity.
    + vm_compute. discriminate.
    + reflexivity.
    + intros C. contradiction C. reflexivity.
    + split; [reflexivity|]. split; [reflexivity|]. apply Hsame. reflexivity.
  - destruct (@nextImage_at_folder_end_matches_goToNextLeafFolder
                Scenario.library Scenario.library_tree library_tree_nodup
                library_tree_named Scenario.at_b_preloaded)
      as (F & I & J & _).
    + reflexivity.
    + reflexivity.
    + vm_compute. left. reflexivity.
    + reflexivity.
    + vm_compute. discriminate.
    + reflexivity.
    + intros _. exists ["/root/2024-02/c.jpg"], "/root/2024-02/c.jpg".
      repeat split.
    + split; [vm_compute; discriminate|]. split; [exact F|]. split; [exact I|exact J].
Defined.

Lemma next_walks_the_leaf_folders_in_order_witness :
  tour Scenario.sparse_library (leafNode Scenario.sparse_tree)
  = [ ("/lib/a", 0%Z); ("/lib/a", 1%Z); ("/lib/b", (-1)%Z); ("/lib/c", 0%Z) ]
  /\ exists s',
       run_on (map (pair Scenario.sparse_library)
                   [ ClickNext; PrefetchSettled 0; Keydown ArrowRight 1 [];
                     ClickNext; ClickNext; ClickNext ]) Scenario.at_x = Some s'
       /\ position s' = ("/lib/c", 0%Z).
Proof.
  split; [vm_compute; reflexivity|].
  assert (Hpast : steady Scenario.sparse_library
                    (map (pair Scenario.sparse_library)
                         [ Browse (Ok "/lib"); TreeClick "/lib/a" ]))
    by repeat constructor.
  assert (Hreach : run_on (map (pair Scenario.sparse_library)
                               [ Browse (Ok "/lib"); TreeClick "/lib/a" ])
                          initialState = Some Scenario.at_x)
    by (vm_compute; reflexivity).
  assert (Htree : folderTreeRoot Scenario.at_x = Some Scenario.sparse_tree)
    by (vm_compute; reflexivity).
  assert (Hat : nth_error (tour Scenario.sparse_library
                                (leafNode Scenario.sparse_tree)) 0
                = Some (position Scenario.at_x))
    by (vm_compute; reflexivity).
  eexists. split; [vm_compute; reflexivity|].
  assert (Hgoal : forall s' : State,
             run_on (map (pair Scenario.sparse_library)
                         [ ClickNext; PrefetchSettled 0; Keydown ArrowRight 1 [];
                           ClickNext; ClickNext; ClickNext ]) Scenario.at_x
             = Some s' ->
             nth_error (tour Scenario.sparse_library
                             (leafNode Scenario.sparse_tree)) 3
             = Some (position s')).
  { intros s' Hrun.
    exact (@next_walks_the_leaf_folders_in_order
             Scenario.sparse_library Scenario.sparse_tree sparse_tree_nodup
             sparse_tree_named
             (map (pair Scenario.sparse_library)
                  [ Browse (Ok "/lib"); TreeClick "/lib/a" ])
             (map (pair Scenario.sparse_library)
                  [ ClickNext; PrefetchSettled 0; Keydown ArrowRight 1 [];
                    ClickNext; ClickNext; ClickNext ])
             Scenario.at_x s' 0
             Hpast Hreach Htree Hat
             ltac:(repeat constructor) eq_refl Hrun). }
  match goal with
  | |- position ?s = _ =>
      specialize (Hgoal s ltac:(vm_compute; reflexivity))
  end.
  assert (E : nth_error (tour Scenario.sparse_library
                              (leafNode Scenario.sparse_tree)) 3
              = Some ("/lib/c", 0%Z)) by (vm_compute; reflexivity).
  exact (eq_sym (f_equal (fun o : option (string * Z) =>
                            match o with Some p => p | None => ("", 0%Z) end)
                         (eq_trans (eq_sym E) Hgoal))).
Defined.

End FrontEndExamples.


